(** * Sudoku engine of SUDOKO_GAME: grid, generator, carver, validator, hints

    A shallow embedding of the engine functions of [src/sudoku.js] (the bare
    build) and of [src/unnamed/part_000] (the monetized build, which adds
    [isCellConflicting], [getDailySeed] and [mulberry32]).  The two builds
    share [generateSolution], [isValid], [generatePuzzle], [isSolutionValid],
    [checkGameCompletion] and [grantHint] line for line, up to the random
    source ([Math.random] against [this.random]) and to logging. *)

From Stdlib Require Import ZArith QArith Qround Qpower Lia Lqa.
From stdpp Require Import base list gmap strings pretty sorting.

Local Open Scope Z_scope.

(** ** Grids

    A grid is a JavaScript array of nine arrays of nine numbers.  Every
    read and write of the source uses indices produced by loops over
    [0..8] (or by [Math.floor(random() * 9)]), so on a 9x9 grid no access
    is out of range; [get] answers 0 and [set] changes nothing there, and
    every theorem below assumes the 9x9 shape [wf9]. *)

Abbreviation Grid := (list (list Z)).

Definition get (g : Grid) (r c : nat) : Z :=
  default 0 (g !! r ≫= λ line, line !! c).

Definition set (g : Grid) (r c : nat) (v : Z) : Grid :=
  alter (λ line, <[c := v]> line) r g.

Definition wf9 (g : Grid) : Prop :=
  length g = 9%nat ∧ Forall (λ line : list Z, length line = 9%nat) g.

(** [Array(9).fill(null).map(() => Array(9).fill(0))] *)
Definition emptyGrid : Grid := replicate 9 (replicate 9 0).

(** The index ranges of the [for] loops. *)
Definition idx9 : list nat := seq 0 9.

(** All coordinates in the order of the nested loops
    [for row ... for col ...]. *)
Definition cells : list (nat * nat) :=
  r ← idx9; c ← idx9; [(r, c)].

(** [Math.floor(row / 3) * 3] *)
Definition boxStart (i : nat) : nat := (i / 3 * 3)%nat.

(** ** [isValid] (sudoku.js 264-285, part_000 2403-2424) *)

Definition isValid (grid : Grid) (row col : nat) (num : Z) : bool :=
  forallb (λ i, negb (get grid row i =? num)) idx9
  && forallb (λ i, negb (get grid i col =? num)) idx9
  && (let boxRow := boxStart row in
      let boxCol := boxStart col in
      forallb (λ i,
        forallb (λ j, negb (get grid i j =? num)) (seq boxCol 3))
        (seq boxRow 3)).

(** ** [isCellConflicting] (part_000 1026-1044)

    [!val] is true of 0 only, the cells being integers. *)
Definition isCellConflicting (grid : Grid) (row col : nat) : bool :=
  let val := get grid row col in
  if val =? 0 then false
  else if existsb (λ i,
            (negb (i =? col)%nat && (get grid row i =? val))
            || (negb (i =? row)%nat && (get grid i col =? val))) idx9
  then true
  else
    let boxRow := boxStart row in
    let boxCol := boxStart col in
    existsb (λ r,
      existsb (λ c,
        (negb (r =? row)%nat || negb (c =? col)%nat)
        && (get grid r c =? val)) (seq boxCol 3)) (seq boxRow 3).

(** ** [isSolutionValid] (sudoku.js 574-610, part_000 2807-2843) *)

(** The body shared by the three checks: walk the numbers with the
    [Set] [seen], stop at the first one already in it. *)
Fixpoint noneSeenTwice (seen : gset Z) (nums : list Z) : bool :=
  match nums with
  | [] => true
  | num :: rest =>
      if bool_decide (num ∈ seen) then false
      else noneSeenTwice ({[num]} ∪ seen) rest
  end.

Definition rowOf (g : Grid) (row : nat) : list Z :=
  (λ col, get g row col) <$> idx9.

Definition colOf (g : Grid) (col : nat) : list Z :=
  (λ row, get g row col) <$> idx9.

(** The box whose top left cell is [(boxRow, boxCol)], in loop order. *)
Definition boxOf (g : Grid) (boxRow boxCol : nat) : list Z :=
  i ← seq boxRow 3; j ← seq boxCol 3; [get g i j].

Definition isSolutionValid (g : Grid) : bool :=
  forallb (λ row, noneSeenTwice ∅ (rowOf g row)) idx9
  && forallb (λ col, noneSeenTwice ∅ (colOf g col)) idx9
  && forallb (λ boxRow,
       forallb (λ boxCol, noneSeenTwice ∅ (boxOf g boxRow boxCol))
         [0; 3; 6]%nat) [0; 3; 6]%nat.

(** ** [getDailySeed] (part_000 1884-1891)

    JavaScript numbers are binary64.  [roundDouble] is the rounding (to
    nearest, ties to even) of an integer to the 53-bit significand;
    overflow to infinity needs more than 2^1023 and is left out. *)
Definition roundDouble (z : Z) : Z :=
  let a := Z.abs z in
  if a <? 2 ^ 53 then z
  else
    let e := Z.log2 a - 52 in
    let q := a / 2 ^ e in
    let r := a mod 2 ^ e in
    let half := 2 ^ (e - 1) in
    let q' := if r <? half then q
              else if half <? r then q + 1
              else if Z.even q then q else q + 1 in
    Z.sgn z * (q' * 2 ^ e).

Definition jsMul (a b : Z) : Z := roundDouble (a * b).
Definition jsAdd (a b : Z) : Z := roundDouble (a + b).

(** [x >>> 0] on an integral number: ToUint32. *)
Definition toUint32 (x : Z) : Z := x mod 2 ^ 32.

(** [today.charCodeAt(i)]; the loop only asks for [i < today.length]
    (outside, JavaScript answers NaN, here 0). *)
Definition charCodeAt (today : string) (i : nat) : Z :=
  match String.get i today with
  | Some ch => Z.of_N (Ascii.N_of_ascii ch)
  | None => 0
  end.

(** The [for] loop from index [i], with [n] iterations left. *)
Fixpoint seedLoop (today : string) (n i : nat) (hash : Z) : Z :=
  match n with
  | O => hash
  | S n' =>
      seedLoop today n' (S i)
        (toUint32 (jsAdd (jsMul hash 31) (charCodeAt today i)))
  end.

(** [getDailySeed], with [today] the value of
    [new Date().toISOString().slice(0, 10)]. *)
Definition getDailySeed (today : string) : Z :=
  seedLoop today (String.length today) 0 0.

(** The hash as the specification words it: for each character in
    order, [hash = hash * 31 + charCode], wrapped to unsigned 32 bits. *)
Definition charCodes (s : string) : list Z :=
  (λ ch, Z.of_N (Ascii.N_of_ascii ch)) <$> String.list_ascii_of_string s.

Definition seedFromDateString (s : string) : Z :=
  fold_left (λ hash code, (hash * 31 + code) mod 2 ^ 32) (charCodes s) 0.

(** ** [mulberry32] (part_000 1893-1900)

    The closure's state is the captured [seed], a JavaScript number that
    [seed += 0x6D2B79F5] increases without wrapping.  The bit operators
    convert their operands with ToInt32 ([>>>] with ToUint32). *)
Definition toInt32 (x : Z) : Z := (x + 2 ^ 31) mod 2 ^ 32 - 2 ^ 31.

(** [a ^ b], [a | b], [a >>> n] and [Math.imul(a, b)] *)
Definition jsXor (a b : Z) : Z := Z.lxor (toInt32 a) (toInt32 b).
Definition jsOr (a b : Z) : Z := Z.lor (toInt32 a) (toInt32 b).
Definition jsShru (a n : Z) : Z := Z.shiftr (toUint32 a) n.
Definition imul (a b : Z) : Z := toInt32 (toInt32 a * toInt32 b).

Definition mulberry32 (seed : Z) : Q * Z :=
  let seed' := jsAdd seed 0x6D2B79F5 in
  let t := seed' in
  let t := imul (jsXor t (jsShru t 15)) (jsOr t 1) in
  let t := jsXor t (jsAdd t (imul (jsXor t (jsShru t 7)) (jsOr t 61))) in
  (Qmake (jsShru (jsXor t (jsShru t 14)) 0) 4294967296, seed').

(** ** The random source

    [random] is [Math.random] (sudoku.js) or [this.random] (part_000, either
    [Math.random] or a [mulberry32] closure): one call returns a binary64
    number of [0,1) and advances the generator.  A binary64 number is a
    rational, hence [Q]; the largest one below 1 is 1 - 2^-53.

    The product in [Math.floor(random() * n)] is a binary64 product: the
    exact product rounded to the nearest binary64 number, ties to the even
    significand.  [roundDoubleQ] is that rounding on a rational (53-bit
    significand, exponent not below -1074 for the subnormal numbers;
    overflow to infinity needs more than 2^1023 and is left out).

    [sort_random l] is [l.sort(() => random() - 0.5)]: which comparisons
    the engine's sort performs, and so how many numbers it draws and which
    order comes out, is left to the JavaScript engine; what is used is that
    sorting permutes the array. *)

(** The exponent of the leading bit of a positive rational. *)
Definition floorLog2 (q : Q) : Z :=
  let d := Z.log2 (Qnum q) - Z.log2 (Zpos (Qden q)) in
  if Qle_bool (2 ^ d) q then d else d - 1.

(** The rounding of a positive rational: its significand [q / 2^e] is
    rounded to an integer, to nearest and ties to even. *)
Definition roundPos (q : Q) : Q :=
  let e := Z.max (-1074) (floorLog2 q - 52) in
  let scaled := (q / 2 ^ e)%Q in
  let k := Qfloor scaled in
  let k' := match (scaled - inject_Z k ?= 1 # 2)%Q with
            | Lt => k
            | Gt => k + 1
            | Eq => if Z.even k then k else k + 1
            end in
  (inject_Z k' * 2 ^ e)%Q.

Definition roundDoubleQ (q : Q) : Q :=
  match (q ?= 0)%Q with
  | Eq => 0%Q
  | Gt => roundPos q
  | Lt => (- roundPos (- q))%Q
  end.

(** The largest binary64 number below 1, and the range of the numbers
    that [random] returns. *)
Definition maxBelowOne : Q := 9007199254740991 # 9007199254740992.

Definition inUnitRange (x : Q) : Prop := (0 <= x ∧ x <= maxBelowOne)%Q.

Section Engine.

Variable R : Type.
Variable random : R → Q * R.
Variable sort_random : list Z → R → list Z * R.

(** [Math.floor(random() * n)] *)
Definition randomBelow (n : nat) (s : R) : nat * R :=
  let '(x, s') := random s in
  (Z.to_nat (Qfloor (roundDoubleQ (x * inject_Z (Z.of_nat n)))), s').

(** ** [generateSolution] (sudoku.js 239-262, part_000 2378-2401)

    The two nested loops look for the first cell holding 0 in row-major
    order and return from inside the loop body, so the function is: find
    that cell, try the shuffled digits there, recursing after each
    placement.  The grid is mutated in place, so the grid a failed
    recursive call leaves behind is the one the next candidate is tried
    on.  The recursion is on [fuel]; [None] means the fuel ran out. *)

Definition firstEmpty (grid : Grid) : option (nat * nat) :=
  find (λ rc, get grid rc.1 rc.2 =? 0) cells.

Fixpoint tryNumbers (recur : Grid → R → option (bool * Grid * R))
    (row col : nat) (numbers : list Z) (grid : Grid) (s : R)
    : option (bool * Grid * R) :=
  match numbers with
  | [] => Some (false, grid, s)
  | num :: rest =>
      if isValid grid row col num then
        match recur (set grid row col num) s with
        | None => None
        | Some (true, grid', s') => Some (true, grid', s')
        | Some (false, grid', s') =>
            tryNumbers recur row col rest (set grid' row col 0) s'
        end
      else tryNumbers recur row col rest grid s
  end.

Fixpoint generateSolution (fuel : nat) (grid : Grid) (s : R)
    : option (bool * Grid * R) :=
  match fuel with
  | O => None
  | S fuel' =>
      match firstEmpty grid with
      | Some (row, col) =>
          let '(numbers, s1) := sort_random [1; 2; 3; 4; 5; 6; 7; 8; 9] s in
          tryNumbers (generateSolution fuel') row col numbers grid s1
      | None => Some (true, grid, s)
      end
  end.

(** ** [generatePuzzle] (sudoku.js 210-237, part_000 2346-2376) *)

(** The key [`${row}-${col}`] *)
Definition cellKey (row col : nat) : string :=
  pretty row +:+ "-" +:+ pretty col.

(** [difficulty === 'easy' ? 40 : difficulty === 'medium' ? 50 : 60] *)
Definition cellsToRemoveOf (difficulty : string) : nat :=
  if String.eqb difficulty "easy" then 40%nat
  else if String.eqb difficulty "medium" then 50%nat
  else 60%nat.

(** The [while (removed < cellsToRemove)] loop.  One unit of [fuel] pays
    for one run of the body (two draws); [None] means the fuel ran out with
    the loop condition still true.  The result carries the locals
    [fullGrid], [removed] and [cellsRemoved] at loop exit. *)
Fixpoint carveLoop (fuel : nat) (cellsToRemove : nat) (fullGrid : Grid)
    (removed : nat) (cellsRemoved : list string) (s : R)
    : option (Grid * nat * list string * R) :=
  if (removed <? cellsToRemove)%nat then
    match fuel with
    | O => None
    | S fuel' =>
        let '(row, s1) := randomBelow 9 s in
        let '(col, s2) := randomBelow 9 s1 in
        let key := cellKey row col in
        if negb (get fullGrid row col =? 0)
           && negb (bool_decide (key ∈ cellsRemoved))
        then carveLoop fuel' cellsToRemove (set fullGrid row col 0)
               (S removed) (cellsRemoved ++ [key]) s2
        else carveLoop fuel' cellsToRemove fullGrid removed cellsRemoved s2
    end
  else Some (fullGrid, removed, cellsRemoved, s).

(** What the UI is told: the "no empty cells" message of [grantHint] and
    the completion modal of [checkGameCompletion]. *)
Inductive Signal : Type :=
  | NoEmptyCells
  | CompletionModal.

(** The fields of the game object the engine reads and writes. *)
Record Game : Type := mkGame {
  solution : Grid;
  grid : Grid;
  originalGrid : Grid;
  difficulty : string;
  hintsUsed : nat;
  isGameComplete : bool;
  rng : R;
  signals : list Signal
}.

(** [JSON.parse(JSON.stringify(g))] is a deep copy: the same value, no
    sharing, so the carving never touches [solution].  The result of
    [generateSolution] is not looked at by the source. *)
Definition generatePuzzle (fuelSolve fuelCarve : nat) (this : Game)
    : option Game :=
  match generateSolution fuelSolve emptyGrid (rng this) with
  | None => None
  | Some (_, sol, s1) =>
      let fullGrid := sol in
      let cellsToRemove := cellsToRemoveOf (difficulty this) in
      match carveLoop fuelCarve cellsToRemove fullGrid 0 [] s1 with
      | None => None
      | Some (fullGrid', _, _, s2) =>
          Some (mkGame sol fullGrid' fullGrid' (difficulty this)
                  (hintsUsed this) (isGameComplete this) s2 (signals this))
      end
  end.

(** ** [checkGameCompletion] (sudoku.js 557-572, part_000 2790-2805) *)
Definition checkGameCompletion (this : Game) : Game :=
  if isGameComplete this then this
  else if existsb (λ rc, get (grid this) rc.1 rc.2 =? 0) cells then this
  else if isSolutionValid (grid this) then
    mkGame (solution this) (grid this) (originalGrid this) (difficulty this)
      (hintsUsed this) true (rng this) (signals this ++ [CompletionModal])
  else this.

(** ** [grantHint] (sudoku.js 692-724, part_000 3106-3150)

    [None] stands for the [TypeError] of destructuring
    [emptyCells[i]] when that is [undefined]. *)
Definition emptyCellsOf (g : Grid) : list (nat * nat) :=
  filter (λ rc, get g rc.1 rc.2 = 0) cells.

Definition grantHint (this : Game) : option (Game) :=
  let emptyCells := emptyCellsOf (grid this) in
  if (length emptyCells =? 0)%nat then
    Some (mkGame (solution this) (grid this) (originalGrid this)
            (difficulty this) (hintsUsed this) (isGameComplete this)
            (rng this) (signals this ++ [NoEmptyCells]))
  else
    let '(i, s') := randomBelow (length emptyCells) (rng this) in
    match emptyCells !! i with
    | None => None
    | Some (row, col) =>
        Some (checkGameCompletion
                (mkGame (solution this)
                   (set (grid this) row col (get (solution this) row col))
                   (originalGrid this) (difficulty this)
                   (S (hintsUsed this)) (isGameComplete this) s'
                   (signals this)))
    end.

End Engine.

Arguments randomBelow {R}.
Arguments tryNumbers {R}.
Arguments generateSolution {R}.
Arguments carveLoop {R}.
Arguments generatePuzzle {R}.
Arguments checkGameCompletion {R}.
Arguments grantHint {R}.
Arguments mkGame {R}.
Arguments solution {R}.
Arguments grid {R}.
Arguments originalGrid {R}.
Arguments difficulty {R}.
Arguments hintsUsed {R}.
Arguments isGameComplete {R}.
Arguments rng {R}.
Arguments signals {R}.


(** * Properties *)

(** ** Reading and writing cells *)

Lemma get_set_eq (g : Grid) (r c : nat) (v : Z) :
  wf9 g → (r < 9)%nat → (c < 9)%nat → get (set g r c v) r c = v.
Proof.
  intros [Hlen Hrows] Hr Hc. unfold get, set.
  destruct (lookup_lt_is_Some_2 g r) as [line Hline]; [lia|].
  rewrite list_lookup_alter_eq, Hline. simpl.
  rewrite list_lookup_insert_eq; [done|].
  rewrite Forall_lookup in Hrows. rewrite (Hrows _ _ Hline). done.
Qed.

Lemma get_set_ne (g : Grid) (r c r' c' : nat) (v : Z) :
  (r, c) ≠ (r', c') → get (set g r c v) r' c' = get g r' c'.
Proof.
  intros Hne. unfold get, set.
  destruct (decide (r = r')) as [->|Hr].
  - rewrite list_lookup_alter_eq. destruct (g !! r') as [line|]; simpl; [|done].
    rewrite list_lookup_insert_ne; [done|]. congruence.
  - by rewrite list_lookup_alter_ne.
Qed.

Lemma wf9_set (g : Grid) (r c : nat) (v : Z) : wf9 g → wf9 (set g r c v).
Proof.
  intros [Hlen Hrows]. unfold set. split.
  - by rewrite length_alter.
  - apply Forall_alter; [done|]. intros line _ Hl. by rewrite length_insert.
Qed.

Lemma set_get_same (g : Grid) (r c : nat) : set g r c (get g r c) = g.
Proof.
  unfold set, get. apply list_eq. intros i.
  destruct (decide (i = r)) as [->|Hi].
  - rewrite list_lookup_alter_eq. destruct (g !! r) as [line|]; simpl; [|done].
    f_equal. destruct (line !! c) as [x|] eqn:Hx; simpl.
    + by apply list_insert_id.
    + apply list_insert_ge. by apply lookup_ge_None.
  - by rewrite list_lookup_alter_ne.
Qed.

Lemma set_set (g : Grid) (r c : nat) (v w : Z) :
  set (set g r c v) r c w = set g r c w.
Proof.
  unfold set. apply list_eq. intros i.
  destruct (decide (i = r)) as [->|Hi].
  - rewrite !list_lookup_alter_eq. destruct (g !! r) as [line|]; simpl; [|done].
    by rewrite list_insert_insert_eq.
  - by rewrite !list_lookup_alter_ne.
Qed.

(** Undoing a placement on a cell that held 0 gives the grid back. *)
Lemma set_undo (g : Grid) (r c : nat) (v : Z) :
  get g r c = 0 → set (set g r c v) r c 0 = g.
Proof. intros H0. rewrite set_set, <- H0. apply set_get_same. Qed.

Lemma wf9_emptyGrid : wf9 emptyGrid.
Proof. split; [done|]. unfold emptyGrid. repeat constructor. Qed.

Lemma get_emptyGrid (r c : nat) : get emptyGrid r c = 0.
Proof.
  unfold get, emptyGrid.
  destruct (replicate 9 (replicate 9 0) !! r) as [line|] eqn:Hl; simpl; [|done].
  apply lookup_replicate in Hl as [-> _].
  destruct (replicate 9 0 !! c) as [x|] eqn:Hx; simpl; [|done].
  by apply lookup_replicate in Hx as [-> _].
Qed.

Lemma in_idx9 (i : nat) : In i idx9 ↔ (i < 9)%nat.
Proof. unfold idx9. rewrite in_seq. lia. Qed.

Lemma elem_of_cells (r c : nat) : (r, c) ∈ cells ↔ (r < 9)%nat ∧ (c < 9)%nat.
Proof.
  unfold cells. rewrite list_elem_of_bind. split.
  - intros (r' & Hin & Hr'). apply list_elem_of_bind in Hin as (c' & Hin & Hc').
    apply list_elem_of_singleton in Hin. inversion Hin; subst.
    apply list_elem_of_In, in_idx9 in Hr'. apply list_elem_of_In, in_idx9 in Hc'. done.
  - intros [Hr Hc]. exists r. split; [|by apply list_elem_of_In, in_idx9].
    apply list_elem_of_bind. exists c. split; [by apply list_elem_of_singleton|].
    by apply list_elem_of_In, in_idx9.
Qed.

(** The box loops [boxStart i .. boxStart i + 2] run over the indices
    with the same quotient by 3. *)
Lemma in_box_seq (i k : nat) :
  In k (seq (boxStart i) 3) ↔ (k / 3 = i / 3)%nat.
Proof.
  rewrite in_seq. unfold boxStart.
  pose proof (Nat.div_mod_eq k 3). pose proof (Nat.mod_upper_bound k 3).
  pose proof (Nat.div_mod_eq i 3). pose proof (Nat.mod_upper_bound i 3).
  lia.
Qed.

Lemma box_lt9 (i k : nat) : (i < 9)%nat → (k / 3 = i / 3)%nat → (k < 9)%nat.
Proof.
  intros Hi Hk.
  pose proof (Nat.div_mod_eq k 3). pose proof (Nat.mod_upper_bound k 3).
  pose proof (Nat.div_mod_eq i 3). pose proof (Nat.mod_upper_bound i 3).
  lia.
Qed.

(** ** Conflicts *)

(** Two coordinates share a row, a column or a 3x3 box. *)
Definition sameUnit (r c r' c' : nat) : Prop :=
  r = r' ∨ c = c' ∨ ((r / 3 = r' / 3)%nat ∧ (c / 3 = c' / 3)%nat).

(** Another cell of a unit of [(row, col)] holds the value of [(row, col)]. *)
Definition hasTwin (g : Grid) (row col : nat) : Prop :=
  ∃ r' c', (r' < 9)%nat ∧ (c' < 9)%nat ∧ (r', c') ≠ (row, col)
           ∧ sameUnit row col r' c' ∧ get g r' c' = get g row col.

Lemma sameUnit_sym (r c r' c' : nat) : sameUnit r c r' c' → sameUnit r' c' r c.
Proof. unfold sameUnit. intuition auto. Qed.

Lemma isCellConflicting_true (g : Grid) (row col : nat) :
  (row < 9)%nat → (col < 9)%nat →
  isCellConflicting g row col = true ↔ get g row col ≠ 0 ∧ hasTwin g row col.
Proof.
  intros Hrow Hcol. unfold isCellConflicting, hasTwin.
  destruct (Z.eqb_spec (get g row col) 0) as [H0|H0]; [intuition congruence|].
  destruct (existsb _ idx9) eqn:Hline.
  - split; [intros _; split; [done|]|done].
    apply existsb_exists in Hline as (i & Hi & Hline). apply in_idx9 in Hi.
    apply orb_true_iff in Hline as [H|H]; apply andb_true_iff in H as [Hne Heq];
      apply negb_true_iff, Nat.eqb_neq in Hne; apply Z.eqb_eq in Heq.
    + exists row, i. unfold sameUnit. repeat split; auto. congruence.
    + exists i, col. unfold sameUnit. repeat split; auto. congruence.
  - split.
    + intros Hbox. split; [done|].
      apply existsb_exists in Hbox as (r & Hr & Hbox).
      apply existsb_exists in Hbox as (c & Hc & Hbox).
      apply in_box_seq in Hr, Hc.
      apply andb_true_iff in Hbox as [Hne Heq]. apply Z.eqb_eq in Heq.
      exists r, c. repeat split; eauto using box_lt9.
      * intros [= -> ->]. rewrite !Nat.eqb_refl in Hne. done.
      * unfold sameUnit. auto.
    + intros (_ & r' & c' & Hr' & Hc' & Hne & Hunit & Heq).
      assert (Hnot : ∀ i, (i < 9)%nat →
                ¬ (i ≠ col ∧ get g row i = get g row col)
                ∧ ¬ (i ≠ row ∧ get g i col = get g row col)).
      { intros i Hi. apply in_idx9 in Hi.
        assert (Hf := Hline). apply not_true_iff_false in Hf.
        split; intros [Hd He]; apply Hf, existsb_exists; exists i;
          (split; [done|]); apply orb_true_iff; [left|right];
          apply andb_true_iff; (split; [by apply negb_true_iff, Nat.eqb_neq|]);
          by apply Z.eqb_eq. }
      destruct Hunit as [<-|[<-|[Hbr Hbc]]].
      * destruct (Hnot c' Hc') as [Hn _]. exfalso. apply Hn. split; congruence.
      * destruct (Hnot r' Hr') as [_ Hn]. exfalso. apply Hn. split; congruence.
      * apply existsb_exists. exists r'. split; [by apply in_box_seq|].
        apply existsb_exists. exists c'. split; [by apply in_box_seq|].
        apply andb_true_iff. split; [|by apply Z.eqb_eq].
        apply orb_true_iff.
        destruct (Nat.eqb_spec r' row) as [->|]; [right|by left].
        destruct (Nat.eqb_spec c' col) as [->|]; [done|done].
Qed.

(** C4: on a grid and a coordinate of [0,9)x[0,9), [isCellConflicting] is
    true exactly when the cell is non-zero and another cell of its row,
    column or box holds the same value; a zero cell never conflicts; and
    two distinct cells of one unit with the same non-zero value are both
    flagged. *)
Theorem isCellConflicting_spec (g : Grid) (row col : nat) :
  (row < 9)%nat → (col < 9)%nat →
  (isCellConflicting g row col = true
     ↔ get g row col ≠ 0 ∧ hasTwin g row col)
  ∧ (get g row col = 0 → isCellConflicting g row col = false)
  ∧ (∀ r' c', (r' < 9)%nat → (c' < 9)%nat → (r', c') ≠ (row, col) →
       sameUnit row col r' c' → get g row col ≠ 0 →
       get g r' c' = get g row col →
       isCellConflicting g row col = true
       ∧ isCellConflicting g r' c' = true).
Proof.
  intros Hrow Hcol. split; [by apply isCellConflicting_true|]. split.
  - intros H0. unfold isCellConflicting. by rewrite H0.
  - intros r' c' Hr' Hc' Hne Hunit Hnz Heq. split.
    + apply isCellConflicting_true; [done..|]. split; [done|].
      exists r', c'. done.
    + apply isCellConflicting_true; [done..|]. split; [congruence|].
      exists row, col. repeat split; auto using sameUnit_sym.
Qed.

(** ** Rows, columns and boxes without a repeated value *)

Lemma noneSeenTwice_spec (nums : list Z) (seen : gset Z) :
  noneSeenTwice seen nums = true ↔ NoDup nums ∧ ∀ x, x ∈ nums → x ∉ seen.
Proof.
  revert seen. induction nums as [|num rest IH]; intros seen; simpl.
  - split; [intros _|done]. split; [constructor|].
    intros x Hx. by apply elem_of_nil in Hx.
  - case_bool_decide as Hin.
    + split; [done|]. intros [_ Hall]. exfalso.
      by apply (Hall num); [left|].
    + rewrite IH, NoDup_cons. split.
      * intros [Hnd Hall]. split; [split; [|done]|].
        -- intros Hmem. apply (Hall num Hmem).
           by apply elem_of_union_l, elem_of_singleton.
        -- intros x [->|Hx]%elem_of_cons; [done|].
           intros Hs. apply (Hall x Hx). by apply elem_of_union_r.
      * intros [[Hnum Hnd] Hall]. split; [done|].
        intros x Hx [->%elem_of_singleton|Hs]%elem_of_union; [done|].
        apply (Hall x); [by right|done].
Qed.

Lemma noneSeenTwice_NoDup (nums : list Z) :
  noneSeenTwice ∅ nums = true ↔ NoDup nums.
Proof.
  rewrite noneSeenTwice_spec. split; [by intros [? _]|].
  intros Hnd. split; [done|]. intros x _. apply not_elem_of_empty.
Qed.

Lemma NoDup_fmap_iff {A B : Type} (f : A → B) (l : list A) :
  NoDup l →
  NoDup (f <$> l) ↔ ∀ x y, x ∈ l → y ∈ l → f x = f y → x = y.
Proof.
  intros Hl. split; [|intros Hinj; by apply NoDup_fmap_2_strong].
  intros Hnd x y Hx Hy Hxy.
  apply list_elem_of_lookup in Hx as [i Hi]. apply list_elem_of_lookup in Hy as [j Hj].
  assert (i = j) as ->; [|congruence].
  eapply NoDup_lookup; [exact Hnd| |].
  - rewrite list_lookup_fmap, Hi. done.
  - rewrite list_lookup_fmap, Hj. simpl. by rewrite Hxy.
Qed.

(** The coordinates of a box, in the order of its two loops. *)
Definition boxCells (boxRow boxCol : nat) : list (nat * nat) :=
  i ← seq boxRow 3; j ← seq boxCol 3; [(i, j)].

Lemma boxOf_boxCells (g : Grid) (boxRow boxCol : nat) :
  boxOf g boxRow boxCol = (λ rc, get g rc.1 rc.2) <$> boxCells boxRow boxCol.
Proof. reflexivity. Qed.

Lemma elem_of_boxCells (boxRow boxCol i j : nat) :
  (i, j) ∈ boxCells boxRow boxCol
  ↔ (boxRow ≤ i < boxRow + 3)%nat ∧ (boxCol ≤ j < boxCol + 3)%nat.
Proof.
  unfold boxCells. rewrite list_elem_of_bind. split.
  - intros (i' & Hin & Hi'). apply list_elem_of_bind in Hin as (j' & Hin & Hj').
    apply list_elem_of_singleton in Hin. inversion Hin; subst.
    apply elem_of_seq in Hi', Hj'. lia.
  - intros [Hi Hj]. exists i. split; [|apply elem_of_seq; lia].
    apply list_elem_of_bind. exists j. split; [by apply list_elem_of_singleton|].
    apply elem_of_seq. lia.
Qed.

Lemma NoDup_boxCells (boxRow boxCol : nat) : NoDup (boxCells boxRow boxCol).
Proof.
  unfold boxCells. simpl.
  repeat (apply NoDup_cons; split;
    [rewrite ?elem_of_cons, elem_of_nil; intros H;
     repeat (destruct H as [H|H]); first [done | injection H; lia]|]).
  apply NoDup_nil_2.
Qed.

(** No two distinct cells of one row, column or box hold the same value. *)
Definition allDistinct (g : Grid) : Prop :=
  ∀ r c r' c', (r < 9)%nat → (c < 9)%nat → (r' < 9)%nat → (c' < 9)%nat →
    (r, c) ≠ (r', c') → sameUnit r c r' c' → get g r c ≠ get g r' c'.

Definition unitsNoDup (g : Grid) : Prop :=
  (∀ row, (row < 9)%nat → NoDup (rowOf g row))
  ∧ (∀ col, (col < 9)%nat → NoDup (colOf g col))
  ∧ (∀ bi bj, (bi < 3)%nat → (bj < 3)%nat →
       NoDup (boxOf g (3 * bi) (3 * bj))).

Lemma in_036 (k : nat) : In k [0; 3; 6]%nat ↔ ∃ b, (b < 3)%nat ∧ k = (3 * b)%nat.
Proof.
  simpl. split.
  - intros [<-|[<-|[<-|[]]]]; [exists 0%nat|exists 1%nat|exists 2%nat]; lia.
  - intros (b & Hb & ->). lia.
Qed.

Lemma isSolutionValid_unitsNoDup (g : Grid) :
  isSolutionValid g = true ↔ unitsNoDup g.
Proof.
  unfold isSolutionValid, unitsNoDup.
  rewrite !andb_true_iff, !forallb_forall. split.
  - intros [[Hrows Hcols] Hboxes]. repeat split.
    + intros row Hrow. by apply noneSeenTwice_NoDup, Hrows, in_idx9.
    + intros col Hcol. by apply noneSeenTwice_NoDup, Hcols, in_idx9.
    + intros bi bj Hbi Hbj. apply noneSeenTwice_NoDup.
      assert (Hin : In (3 * bi)%nat [0; 3; 6]%nat) by (apply in_036; eauto).
      specialize (Hboxes _ Hin). rewrite forallb_forall in Hboxes.
      apply Hboxes, in_036. eauto.
  - intros (Hrows & Hcols & Hboxes). repeat split.
    + intros row Hrow. by apply noneSeenTwice_NoDup, Hrows, in_idx9.
    + intros col Hcol. by apply noneSeenTwice_NoDup, Hcols, in_idx9.
    + intros boxRow (bi & Hbi & ->)%in_036. apply forallb_forall.
      intros boxCol (bj & Hbj & ->)%in_036.
      by apply noneSeenTwice_NoDup, Hboxes.
Qed.

Lemma NoDup_idx9 : NoDup idx9.
Proof. apply NoDup_seq. Qed.

Lemma elem_of_idx9 (i : nat) : i ∈ idx9 ↔ (i < 9)%nat.
Proof. rewrite list_elem_of_In. apply in_idx9. Qed.

Lemma unitsNoDup_allDistinct (g : Grid) : unitsNoDup g ↔ allDistinct g.
Proof.
  unfold unitsNoDup, allDistinct. split.
  - intros (Hrows & Hcols & Hboxes) r c r' c' Hr Hc Hr' Hc' Hne Hunit Heq.
    destruct Hunit as [<-|[<-|[Hbr Hbc]]].
    + specialize (Hrows r Hr). unfold rowOf in Hrows.
      rewrite (NoDup_fmap_iff _ _ NoDup_idx9) in Hrows.
      apply Hne. f_equal. apply Hrows; [by apply elem_of_idx9..|done].
    + specialize (Hcols c Hc). unfold colOf in Hcols.
      rewrite (NoDup_fmap_iff _ _ NoDup_idx9) in Hcols.
      apply Hne. f_equal. apply Hcols; [by apply elem_of_idx9..|done].
    + assert (Hbi : (r / 3 < 3)%nat) by (apply Nat.Div0.div_lt_upper_bound; lia).
      assert (Hbj : (c / 3 < 3)%nat) by (apply Nat.Div0.div_lt_upper_bound; lia).
      specialize (Hboxes _ _ Hbi Hbj). rewrite boxOf_boxCells in Hboxes.
      rewrite (NoDup_fmap_iff _ _ (NoDup_boxCells _ _)) in Hboxes.
      apply Hne. apply (Hboxes (r, c) (r', c')); [| |done].
      * apply elem_of_boxCells.
        pose proof (Nat.div_mod_eq r 3). pose proof (Nat.mod_upper_bound r 3).
        pose proof (Nat.div_mod_eq c 3). pose proof (Nat.mod_upper_bound c 3).
        lia.
      * apply elem_of_boxCells.
        pose proof (Nat.div_mod_eq r' 3). pose proof (Nat.mod_upper_bound r' 3).
        pose proof (Nat.div_mod_eq c' 3). pose proof (Nat.mod_upper_bound c' 3).
        lia.
  - intros Hall. repeat split.
    + intros row Hrow. unfold rowOf. apply (NoDup_fmap_iff _ _ NoDup_idx9).
      intros x y Hx%elem_of_idx9 Hy%elem_of_idx9 Heq.
      destruct (decide (x = y)) as [|Hne]; [done|]. exfalso.
      apply (Hall row x row y); unfold sameUnit; auto. congruence.
    + intros col Hcol. unfold colOf. apply (NoDup_fmap_iff _ _ NoDup_idx9).
      intros x y Hx%elem_of_idx9 Hy%elem_of_idx9 Heq.
      destruct (decide (x = y)) as [|Hne]; [done|]. exfalso.
      apply (Hall x col y col); unfold sameUnit; auto. congruence.
    + intros bi bj Hbi Hbj. rewrite boxOf_boxCells.
      apply (NoDup_fmap_iff _ _ (NoDup_boxCells _ _)).
      intros [r c] [r' c'] [Hr Hc]%elem_of_boxCells [Hr' Hc']%elem_of_boxCells Heq.
      simpl in Heq.
      destruct (decide ((r, c) = (r', c'))) as [|Hne]; [done|]. exfalso.
      apply (Hall r c r' c'); [lia..|done| |done].
      right. right.
      assert (Hq : ∀ k b, (3 * b ≤ k < 3 * b + 3)%nat → (k / 3 = b)%nat).
      { intros k b Hk. symmetry. apply (Nat.div_unique k 3 b (k - 3 * b)); lia. }
      rewrite (Hq r bi), (Hq r' bi), (Hq c bj), (Hq c' bj); done.
Qed.

(** C6: on a fully filled grid (every cell in 1..9), [isSolutionValid] is
    true exactly when [isCellConflicting] is false at every coordinate. *)
Theorem isSolutionValid_iff_no_conflict (g : Grid) :
  (∀ r c, (r < 9)%nat → (c < 9)%nat → 1 ≤ get g r c ≤ 9) →
  isSolutionValid g = true
  ↔ ∀ r c, (r < 9)%nat → (c < 9)%nat → isCellConflicting g r c = false.
Proof.
  intros Hfull. rewrite isSolutionValid_unitsNoDup, unitsNoDup_allDistinct.
  split.
  - intros Hall r c Hr Hc. apply not_true_iff_false.
    intros [_ (r' & c' & Hr' & Hc' & Hne & Hunit & Heq)]%isCellConflicting_true;
      [|done..].
    by apply (Hall r c r' c').
  - intros Hnone r c r' c' Hr Hc Hr' Hc' Hne Hunit Heq.
    specialize (Hnone r c Hr Hc). apply not_true_iff_false in Hnone.
    apply Hnone, isCellConflicting_true; [done..|]. split.
    + specialize (Hfull r c Hr Hc). lia.
    + exists r', c'. repeat split; auto.
Qed.

(** ** Permutations of 1..9 *)

Definition digits : list Z := [1; 2; 3; 4; 5; 6; 7; 8; 9].

Lemma NoDup_digits_perm (l : list Z) :
  NoDup l → length l = 9%nat → (∀ x, x ∈ l → 1 ≤ x ≤ 9) → l ≡ₚ digits.
Proof.
  intros Hnd Hlen Hrange. apply submseteq_length_Permutation.
  - apply NoDup_submseteq; [done|]. intros x Hx. specialize (Hrange x Hx).
    unfold digits. rewrite !elem_of_cons. lia.
  - rewrite Hlen. done.
Qed.

(** Every row, column and box is a permutation of 1..9. *)
Definition unitsArePermutations (g : Grid) : Prop :=
  (∀ row, (row < 9)%nat → rowOf g row ≡ₚ digits)
  ∧ (∀ col, (col < 9)%nat → colOf g col ≡ₚ digits)
  ∧ (∀ bi bj, (bi < 3)%nat → (bj < 3)%nat →
       boxOf g (3 * bi) (3 * bj) ≡ₚ digits).

Definition noZero (g : Grid) : Prop :=
  ∀ r c, (r < 9)%nat → (c < 9)%nat → get g r c ≠ 0.

Lemma unitsNoDup_permutations (g : Grid) :
  (∀ r c, (r < 9)%nat → (c < 9)%nat → 1 ≤ get g r c ≤ 9) →
  unitsNoDup g → unitsArePermutations g.
Proof.
  intros Hfull (Hrows & Hcols & Hboxes). repeat split.
  - intros row Hrow. apply NoDup_digits_perm; [by apply Hrows|done|].
    intros x (c & -> & Hc%elem_of_idx9)%list_elem_of_fmap. by apply Hfull.
  - intros col Hcol. apply NoDup_digits_perm; [by apply Hcols|done|].
    intros x (r & -> & Hr%elem_of_idx9)%list_elem_of_fmap. by apply Hfull.
  - intros bi bj Hbi Hbj. apply NoDup_digits_perm; [by apply Hboxes|done|].
    rewrite boxOf_boxCells.
    intros x ([r c] & -> & [Hr Hc]%elem_of_boxCells)%list_elem_of_fmap.
    simpl. apply Hfull; lia.
Qed.

Lemma permutations_noZero (g : Grid) : unitsArePermutations g → noZero g.
Proof.
  intros (Hrows & _ & _) r c Hr Hc H0.
  assert (Hin : get g r c ∈ rowOf g r).
  { unfold rowOf. apply list_elem_of_fmap. exists c. by rewrite elem_of_idx9. }
  rewrite (Hrows r Hr), H0 in Hin. unfold digits in Hin.
  rewrite !elem_of_cons, elem_of_nil in Hin. lia.
Qed.

(** ** Completion *)

(** The zero scan of [checkGameCompletion]. *)
Lemma zero_scan_false (g : Grid) :
  existsb (λ rc, get g rc.1 rc.2 =? 0) cells = false ↔ noZero g.
Proof.
  rewrite <- not_true_iff_false, existsb_exists. unfold noZero. split.
  - intros Hno r c Hr Hc H0. apply Hno. exists (r, c). split.
    + by apply list_elem_of_In, elem_of_cells.
    + simpl. by apply Z.eqb_eq.
  - intros Hnz ([r c] & [Hr Hc]%list_elem_of_In%elem_of_cells & H0%Z.eqb_eq).
    by apply (Hnz r c).
Qed.

Lemma permutations_unitsNoDup (g : Grid) : unitsArePermutations g → unitsNoDup g.
Proof.
  assert (Hd : NoDup digits) by (apply (bool_decide_unpack _); by vm_compute).
  intros (Hrows & Hcols & Hboxes). repeat split.
  - intros row Hrow. by rewrite (Hrows row Hrow).
  - intros col Hcol. by rewrite (Hcols col Hcol).
  - intros bi bj Hbi Hbj. by rewrite (Hboxes bi bj Hbi Hbj).
Qed.

(** A solved grid with every 9 taken out: one 0 in each row, column and
    box, and no repeated value anywhere. *)
Definition ninesBlanked : Grid :=
  [ [1; 2; 3; 4; 5; 6; 7; 8; 0];
    [4; 5; 6; 7; 8; 0; 1; 2; 3];
    [7; 8; 0; 1; 2; 3; 4; 5; 6];
    [2; 1; 4; 3; 6; 5; 8; 0; 7];
    [3; 6; 5; 8; 0; 7; 2; 1; 4];
    [8; 0; 7; 2; 1; 4; 3; 6; 5];
    [5; 3; 1; 6; 4; 2; 0; 7; 8];
    [6; 4; 2; 0; 7; 8; 5; 3; 1];
    [0; 7; 8; 5; 3; 1; 6; 4; 2] ].

(** C5, counterexample: [isSolutionValid] answers true on a grid that
    holds zeros and whose first row is no permutation of 1..9. *)
Lemma isSolutionValid_accepts_zeros :
  isSolutionValid ninesBlanked = true
  ∧ get ninesBlanked 0 8 = 0
  ∧ ¬ rowOf ninesBlanked 0 ≡ₚ digits.
Proof.
  split; [by vm_compute|]. split; [done|].
  intros Hperm.
  assert (Hin : 0 ∈ rowOf ninesBlanked 0)
    by (apply (bool_decide_unpack _); by vm_compute).
  rewrite Hperm in Hin. unfold digits in Hin.
  rewrite !elem_of_cons, elem_of_nil in Hin. lia.
Qed.

(** C5, as the code has it: the completion test is the zero scan of
    [checkGameCompletion] followed by [isSolutionValid].  On a grid with
    cells in 0..9 of a game not yet complete, it marks the game complete
    exactly when every row, column and box is a permutation of 1..9 (and
    then no cell is 0); a grid with a zero cell leaves the game as it
    was; and [isSolutionValid] alone is true only if no row, column or
    box repeats a value. *)
Theorem checkGameCompletion_spec {R : Type} (this : Game R) :
  isGameComplete this = false →
  (∀ r c, (r < 9)%nat → (c < 9)%nat → 0 ≤ get (grid this) r c ≤ 9) →
  (isGameComplete (checkGameCompletion this) = true
     ↔ unitsArePermutations (grid this))
  ∧ (isGameComplete (checkGameCompletion this) = true → noZero (grid this))
  ∧ ((∃ r c, (r < 9)%nat ∧ (c < 9)%nat ∧ get (grid this) r c = 0) →
       checkGameCompletion this = this)
  ∧ (isSolutionValid (grid this) = true → unitsNoDup (grid this)).
Proof.
  intros Hnot Hrange.
  assert (Hiff : isGameComplete (checkGameCompletion this) = true
                 ↔ unitsArePermutations (grid this)).
  { unfold checkGameCompletion. rewrite Hnot.
    destruct (existsb _ cells) eqn:Hscan.
    - rewrite Hnot. split; [done|].
      intros Hnz%permutations_noZero%zero_scan_false. congruence.
    - apply zero_scan_false in Hscan.
      destruct (isSolutionValid (grid this)) eqn:Hvalid; simpl.
      + split; [intros _|done]. apply unitsNoDup_permutations.
        * intros r c Hr Hc. specialize (Hrange r c Hr Hc).
          specialize (Hscan r c Hr Hc). lia.
        * by apply isSolutionValid_unitsNoDup.
      + rewrite Hnot. split; [done|].
        intros Hv%permutations_unitsNoDup%isSolutionValid_unitsNoDup. congruence. }
  split; [done|]. split; [|split].
  - intros Hc. by apply permutations_noZero, Hiff.
  - intros (r & c & Hr & Hc & H0). unfold checkGameCompletion. rewrite Hnot.
    destruct (existsb _ cells) eqn:Hscan; [done|].
    apply zero_scan_false in Hscan. by destruct (Hscan r c Hr Hc).
  - apply isSolutionValid_unitsNoDup.
Qed.

(** ** [isValid] and partial grids *)

Lemma isValid_true (g : Grid) (row col : nat) (num : Z) :
  (row < 9)%nat → (col < 9)%nat →
  isValid g row col num = true
  ↔ ∀ r' c', (r' < 9)%nat → (c' < 9)%nat → sameUnit row col r' c' →
      get g r' c' ≠ num.
Proof.
  intros Hrow Hcol. unfold isValid.
  rewrite !andb_true_iff, !forallb_forall. split.
  - intros [[Hr Hc] Hb] r' c' Hr' Hc' [<-|[<-|[Hbr Hbc]]].
    + apply Z.eqb_neq, negb_true_iff, Hr. by apply in_idx9.
    + apply Z.eqb_neq, negb_true_iff, Hc. by apply in_idx9.
    + assert (Hi : In r' (seq (boxStart row) 3)) by (by apply in_box_seq).
      specialize (Hb r' Hi). rewrite forallb_forall in Hb.
      apply Z.eqb_neq, negb_true_iff, Hb. by apply in_box_seq.
  - intros Hall. unfold sameUnit in Hall. repeat split.
    + intros i Hi%in_idx9. apply negb_true_iff, Z.eqb_neq. apply Hall; auto.
    + intros i Hi%in_idx9. apply negb_true_iff, Z.eqb_neq. apply Hall; auto.
    + intros i Hi%in_box_seq. apply forallb_forall. intros j Hj%in_box_seq.
      apply negb_true_iff, Z.eqb_neq. apply Hall; eauto using box_lt9.
Qed.

(** What [generateSolution] keeps true of the grid it works on: the 9x9
    shape, cells in 0..9, and no value other than 0 twice in a row, a
    column or a box. *)
Definition partialOK (g : Grid) : Prop :=
  wf9 g
  ∧ (∀ r c, (r < 9)%nat → (c < 9)%nat → 0 ≤ get g r c ≤ 9)
  ∧ (∀ r c r' c', (r < 9)%nat → (c < 9)%nat → (r' < 9)%nat → (c' < 9)%nat →
       (r, c) ≠ (r', c') → sameUnit r c r' c' →
       get g r c ≠ 0 → get g r c ≠ get g r' c').

Lemma partialOK_emptyGrid : partialOK emptyGrid.
Proof.
  split; [apply wf9_emptyGrid|]. split.
  - intros r c _ _. rewrite get_emptyGrid. lia.
  - intros r c r' c' _ _ _ _ _ _ Hnz. by rewrite get_emptyGrid in Hnz.
Qed.

Lemma partialOK_set (g : Grid) (row col : nat) (num : Z) :
  partialOK g → (row < 9)%nat → (col < 9)%nat → 1 ≤ num ≤ 9 →
  isValid g row col num = true → partialOK (set g row col num).
Proof.
  intros (Hwf & Hrange & Hdist) Hrow Hcol Hnum Hvalid.
  rewrite isValid_true in Hvalid by done.
  split; [by apply wf9_set|]. split.
  - intros r c Hr Hc. destruct (decide ((row, col) = (r, c))) as [[= <- <-]|Hne].
    + rewrite get_set_eq by done. lia.
    + rewrite get_set_ne by done. by apply Hrange.
  - intros r c r' c' Hr Hc Hr' Hc' Hne Hunit.
    destruct (decide ((row, col) = (r, c))) as [[= <- <-]|Hne1].
    + rewrite get_set_eq, get_set_ne by done. intros _ Heq.
      by apply (Hvalid r' c').
    + rewrite (get_set_ne _ _ _ r c) by done.
      destruct (decide ((row, col) = (r', c'))) as [[= <- <-]|Hne2].
      * rewrite get_set_eq by done. intros _.
        apply (Hvalid r c); auto using sameUnit_sym.
      * rewrite get_set_ne by done. by apply Hdist.
Qed.

Lemma partialOK_solved (g : Grid) :
  partialOK g → noZero g → unitsArePermutations g.
Proof.
  intros (_ & Hrange & Hdist) Hnz. apply unitsNoDup_permutations.
  - intros r c Hr Hc. specialize (Hrange r c Hr Hc).
    specialize (Hnz r c Hr Hc). lia.
  - apply unitsNoDup_allDistinct. intros r c r' c' Hr Hc Hr' Hc' Hne Hunit.
    apply Hdist; auto.
Qed.

Lemma firstEmpty_Some (g : Grid) (row col : nat) :
  firstEmpty g = Some (row, col) →
  (row < 9)%nat ∧ (col < 9)%nat ∧ get g row col = 0.
Proof.
  intros [Hin Hz]%find_some. apply list_elem_of_In, elem_of_cells in Hin.
  simpl in Hz. apply Z.eqb_eq in Hz. tauto.
Qed.

Lemma firstEmpty_None (g : Grid) : firstEmpty g = None → noZero g.
Proof.
  intros Hnone r c Hr Hc. apply Z.eqb_neq.
  apply (find_none _ _ Hnone (r, c)). by apply list_elem_of_In, elem_of_cells.
Qed.

(** The number of cells holding 0: the depth the recursion can reach. *)
Definition countZeros (g : Grid) : nat := length (emptyCellsOf g).

Lemma countZeros_le (g : Grid) : (countZeros g ≤ 81)%nat.
Proof.
  unfold countZeros, emptyCellsOf.
  etransitivity; [apply length_filter|]. done.
Qed.

Lemma filter_length_shrink {A : Type} (P Q : A → Prop)
    `{!∀ x, Decision (P x)} `{!∀ x, Decision (Q x)} (l : list A) (x : A) :
  (∀ y, Q y → P y) → x ∈ l → P x → ¬ Q x →
  (length (filter Q l) < length (filter P l))%nat.
Proof.
  intros Hsub Hx HP HQ.
  assert (Heq : filter Q l = filter Q (filter P l)).
  { clear Hx. induction l as [|y l IH]; [done|].
    rewrite !filter_cons. destruct (decide (Q y)) as [Hq|Hq].
    - destruct (decide (P y)) as [|Hp]; [|by destruct Hp; auto].
      rewrite filter_cons. destruct (decide (Q y)); [|done]. by f_equal.
    - destruct (decide (P y)); [|done].
      rewrite filter_cons. by destruct (decide (Q y)). }
  rewrite Heq. apply (length_filter_lt _ _ x); [|done].
  apply list_elem_of_filter. done.
Qed.

Lemma countZeros_set (g : Grid) (row col : nat) (num : Z) :
  wf9 g → (row < 9)%nat → (col < 9)%nat → get g row col = 0 → num ≠ 0 →
  (countZeros (set g row col num) < countZeros g)%nat.
Proof.
  intros Hwf Hrow Hcol H0 Hnum. unfold countZeros, emptyCellsOf.
  apply (filter_length_shrink _ _ _ (row, col)).
  - intros [r c]. simpl. destruct (decide ((row, col) = (r, c))) as [[= <- <-]|Hne].
    + by rewrite get_set_eq.
    + by rewrite get_set_ne.
  - by apply elem_of_cells.
  - done.
  - simpl. by rewrite get_set_eq.
Qed.

(** ** The solution generator *)

(** [sol] agrees with [g] wherever [g] is filled. *)
Definition extends (g sol : Grid) : Prop :=
  ∀ r c, (r < 9)%nat → (c < 9)%nat → get g r c ≠ 0 → get g r c = get sol r c.

(** A solved grid: nothing repeated in a row, a column or a box, and no
    cell left at 0. *)
Definition solved (sol : Grid) : Prop := partialOK sol ∧ noZero sol.

(** What the proofs about [tryNumbers] ask of the recursive call. *)
Definition recurOK {R : Type} (recur : Grid → R → option (bool * Grid * R))
    : Prop :=
  (∀ g s g' s', recur g s = Some (false, g', s') → g' = g)
  ∧ (∀ g s g' s', partialOK g → recur g s = Some (true, g', s') → solved g').

Section Generator.

Context {R : Type} (sort_random : list Z → R → list Z * R).
Hypothesis sort_random_perm : ∀ l s, (sort_random l s).1 ≡ₚ l.

Lemma shuffled_digits (s : R) (num : Z) :
  num ∈ (sort_random digits s).1 ↔ 1 ≤ num ≤ 9.
Proof.
  rewrite sort_random_perm. unfold digits.
  rewrite !elem_of_cons, elem_of_nil. lia.
Qed.

(** A failed attempt leaves the grid as it found it. *)
Lemma tryNumbers_false (recur : Grid → R → option (bool * Grid * R))
    (row col : nat) (numbers : list Z) (grid : Grid)
    (s : R) (g' : Grid) (s' : R) :
  (∀ g s g' s', recur g s = Some (false, g', s') → g' = g) →
  get grid row col = 0 →
  tryNumbers recur row col numbers grid s = Some (false, g', s') → g' = grid.
Proof.
  intros Hrec H0. revert s. induction numbers as [|num rest IH]; intros s; simpl.
  - by intros [= <- <-].
  - destruct (isValid grid row col num); [|by apply IH].
    destruct (recur (set grid row col num) s) as [[[[] g1] s1]|] eqn:Hr; [done| |done].
    apply Hrec in Hr as ->. rewrite set_undo by done. apply IH.
Qed.

Lemma generateSolution_false (fuel : nat) (g : Grid) (s : R) (g' : Grid) (s' : R) :
  generateSolution sort_random fuel g s = Some (false, g', s') → g' = g.
Proof.
  revert g s g' s'. induction fuel as [|fuel IH]; intros g s g' s'; simpl; [done|].
  destruct (firstEmpty g) as [[row col]|] eqn:Hfirst; [|done].
  apply firstEmpty_Some in Hfirst as (_ & _ & H0).
  destruct (sort_random _ s) as [numbers s1].
  by apply tryNumbers_false.
Qed.

Lemma tryNumbers_true (recur : Grid → R → option (bool * Grid * R))
    (row col : nat) (numbers : list Z) (grid : Grid)
    (s : R) (g' : Grid) (s' : R) :
  recurOK recur → partialOK grid →
  (row < 9)%nat → (col < 9)%nat → get grid row col = 0 →
  (∀ num, num ∈ numbers → 1 ≤ num ≤ 9) →
  tryNumbers recur row col numbers grid s = Some (true, g', s') → solved g'.
Proof.
  intros [Hfalse Htrue] Hok Hrow Hcol H0. revert s.
  induction numbers as [|num rest IH]; intros s Hnums; simpl; [done|].
  assert (Hrest : ∀ n, n ∈ rest → 1 ≤ n ≤ 9).
  { intros n Hn. apply Hnums. by right. }
  destruct (isValid grid row col num) eqn:Hvalid; [|by apply IH].
  destruct (recur (set grid row col num) s) as [[[[] g1] s1]|] eqn:Hr; [| |done].
  - intros [= <- <-]. apply (Htrue _ _ _ _ (partialOK_set _ _ _ _ Hok Hrow Hcol
      (Hnums num (list_elem_of_here _ _)) Hvalid) Hr).
  - apply Hfalse in Hr as ->. rewrite set_undo by done. by apply IH.
Qed.

(** Soundness: a grid returned with [true] is a solved grid. *)
Lemma generateSolution_true (fuel : nat) (g : Grid) (s : R) (g' : Grid) (s' : R) :
  partialOK g →
  generateSolution sort_random fuel g s = Some (true, g', s') → solved g'.
Proof.
  revert g s g' s'. induction fuel as [|fuel IH]; intros g s g' s' Hok; simpl; [done|].
  destruct (firstEmpty g) as [[row col]|] eqn:Hfirst.
  - apply firstEmpty_Some in Hfirst as (Hrow & Hcol & H0).
    destruct (sort_random _ s) as [numbers s1] eqn:Hsort.
    apply tryNumbers_true; try done.
    + split; [apply generateSolution_false|apply IH].
    + intros num Hnum. apply (shuffled_digits s). unfold digits. by rewrite Hsort.
  - intros [= <- <-]. split; [done|]. by apply firstEmpty_None.
Qed.

(** Termination: the recursion is never deeper than the number of cells
    holding 0, so 82 units of fuel are enough for any 9x9 grid. *)
Lemma tryNumbers_is_Some (recur : Grid → R → option (bool * Grid * R))
    (row col : nat) (numbers : list Z) (grid : Grid) (s : R) :
  (∀ g s g' s', recur g s = Some (false, g', s') → g' = g) →
  (∀ g s, wf9 g → (countZeros g < countZeros grid)%nat → is_Some (recur g s)) →
  wf9 grid → (row < 9)%nat → (col < 9)%nat → get grid row col = 0 →
  (∀ num, num ∈ numbers → 1 ≤ num ≤ 9) →
  is_Some (tryNumbers recur row col numbers grid s).
Proof.
  intros Hfalse Hsome Hwf Hrow Hcol H0. revert s.
  induction numbers as [|num rest IH]; intros s Hnums; simpl; [done|].
  assert (Hrest : ∀ n, n ∈ rest → 1 ≤ n ≤ 9).
  { intros n Hn. apply Hnums. by right. }
  destruct (isValid grid row col num); [|by apply IH].
  destruct (Hsome (set grid row col num) s) as [[[[] g1] s1] Hr].
  - by apply wf9_set.
  - apply countZeros_set; try done.
    specialize (Hnums num (list_elem_of_here _ _)). lia.
  - by rewrite Hr.
  - rewrite Hr. apply Hfalse in Hr as ->. rewrite set_undo by done. by apply IH.
Qed.

Lemma generateSolution_is_Some (fuel : nat) (g : Grid) (s : R) :
  wf9 g → (countZeros g < fuel)%nat →
  is_Some (generateSolution sort_random fuel g s).
Proof.
  revert g s. induction fuel as [|fuel IH]; intros g s Hwf Hfuel; simpl; [lia|].
  destruct (firstEmpty g) as [[row col]|] eqn:Hfirst; [|done].
  apply firstEmpty_Some in Hfirst as (Hrow & Hcol & H0).
  destruct (sort_random _ s) as [numbers s1] eqn:Hsort.
  apply tryNumbers_is_Some; try done.
  - apply generateSolution_false.
  - intros g1 s2 Hwf1 Hlt. apply IH; [done|lia].
  - intros num Hnum. apply (shuffled_digits s). unfold digits. by rewrite Hsort.
Qed.

(** Completeness: the search does not fail on a grid that some solved
    grid extends. *)
Lemma isValid_of_extends (g sol : Grid) (row col : nat) :
  solved sol → extends g sol → (row < 9)%nat → (col < 9)%nat →
  get g row col = 0 → isValid g row col (get sol row col) = true.
Proof.
  intros [(_ & _ & Hdist) Hnz] Hext Hrow Hcol H0.
  apply isValid_true; [done..|]. intros r' c' Hr' Hc' Hunit Heq.
  destruct (decide ((row, col) = (r', c'))) as [[= <- <-]|Hne].
  - specialize (Hnz row col Hrow Hcol). congruence.
  - assert (Hn : get g r' c' ≠ 0).
    { rewrite Heq. by apply Hnz. }
    rewrite (Hext r' c' Hr' Hc' Hn) in Heq.
    apply (Hdist row col r' c'); auto.
Qed.

Lemma extends_set (g sol : Grid) (row col : nat) :
  wf9 g → extends g sol → (row < 9)%nat → (col < 9)%nat →
  extends (set g row col (get sol row col)) sol.
Proof.
  intros Hwf Hext Hrow Hcol r c Hr Hc.
  destruct (decide ((row, col) = (r, c))) as [[= <- <-]|Hne].
  - by rewrite get_set_eq.
  - rewrite get_set_ne by done. by apply Hext.
Qed.

Lemma tryNumbers_not_false (recur : Grid → R → option (bool * Grid * R))
    (row col : nat) (numbers : list Z) (grid : Grid)
    (sol : Grid) (s : R) (g' : Grid) (s' : R) :
  (∀ g s g' s', recur g s = Some (false, g', s') → g' = g) →
  (∀ g s g' s', wf9 g → extends g sol → recur g s ≠ Some (false, g', s')) →
  solved sol → wf9 grid → extends grid sol →
  (row < 9)%nat → (col < 9)%nat → get grid row col = 0 →
  get sol row col ∈ numbers →
  tryNumbers recur row col numbers grid s ≠ Some (false, g', s').
Proof.
  intros Hfalse Hrec Hsol Hwf Hext Hrow Hcol H0. revert s.
  induction numbers as [|num rest IH]; intros s Hin; simpl.
  - by apply elem_of_nil in Hin.
  - destruct (decide (num = get sol row col)) as [->|Hne].
    + rewrite (isValid_of_extends _ _ _ _ Hsol Hext Hrow Hcol H0).
      destruct (recur _ s) as [[[[] g1] s1]|] eqn:Hr; [done| |done].
      exfalso. by apply (Hrec _ _ _ _ (wf9_set _ row col _ Hwf)
                           (extends_set _ _ _ _ Hwf Hext Hrow Hcol)) in Hr.
    + apply elem_of_cons in Hin as [Heq|Hin]; [congruence|].
      destruct (isValid grid row col num); [|by apply IH].
      destruct (recur _ s) as [[[[] g1] s1]|] eqn:Hr; [done| |done].
      apply Hfalse in Hr as ->. rewrite set_undo by done. by apply IH.
Qed.

Lemma generateSolution_not_false (fuel : nat) (g sol : Grid) (s : R) (g' : Grid) (s' : R) :
  solved sol → wf9 g → extends g sol →
  generateSolution sort_random fuel g s ≠ Some (false, g', s').
Proof.
  intros Hsol. revert g s g' s'.
  induction fuel as [|fuel IH]; intros g s g' s' Hwf Hext; simpl; [done|].
  destruct (firstEmpty g) as [[row col]|] eqn:Hfirst; [|done].
  apply firstEmpty_Some in Hfirst as (Hrow & Hcol & H0).
  destruct (sort_random _ s) as [numbers s1] eqn:Hsort.
  apply (tryNumbers_not_false _ _ _ _ _ sol); try done.
  - apply generateSolution_false.
  - assert (Hn : get sol row col ∈ (sort_random digits s).1).
    { apply shuffled_digits. destruct Hsol as [(_ & Hrange & _) Hnz].
      specialize (Hrange row col Hrow Hcol). specialize (Hnz row col Hrow Hcol).
      lia. }
    unfold digits in Hn. by rewrite Hsort in Hn.
Qed.

End Generator.

(** A solved grid: the one the search finds when the digits are tried in
    increasing order. *)
Definition sampleSolution : Grid :=
  [ [1; 2; 3; 4; 5; 6; 7; 8; 9];
    [4; 5; 6; 7; 8; 9; 1; 2; 3];
    [7; 8; 9; 1; 2; 3; 4; 5; 6];
    [2; 1; 4; 3; 6; 5; 8; 9; 7];
    [3; 6; 5; 8; 9; 7; 2; 1; 4];
    [8; 9; 7; 2; 1; 4; 3; 6; 5];
    [5; 3; 1; 6; 4; 2; 9; 7; 8];
    [6; 4; 2; 9; 7; 8; 5; 3; 1];
    [9; 7; 8; 5; 3; 1; 6; 4; 2] ].

(** Every cell holds one of 1..9. *)
Definition allFilled (g : Grid) : bool :=
  forallb (λ rc, (1 <=? get g rc.1 rc.2) && (get g rc.1 rc.2 <=? 9)) cells.

Lemma allFilled_true (g : Grid) :
  allFilled g = true ↔ ∀ r c, (r < 9)%nat → (c < 9)%nat → 1 ≤ get g r c ≤ 9.
Proof.
  unfold allFilled. rewrite forallb_forall. split.
  - intros Hall r c Hr Hc.
    assert (Hin : In (r, c) cells) by (by apply list_elem_of_In, elem_of_cells).
    apply Hall in Hin. simpl in Hin. lia.
  - intros Hall [r c] [Hr Hc]%list_elem_of_In%elem_of_cells.
    specialize (Hall r c Hr Hc). simpl. lia.
Qed.

Lemma solved_of_checks (g : Grid) :
  wf9 g → allFilled g = true → isSolutionValid g = true → solved g.
Proof.
  intros Hwf Hfill0 Hvalid%isSolutionValid_unitsNoDup%unitsNoDup_allDistinct.
  pose proof (proj1 (allFilled_true g) Hfill0) as Hfill.
  split; [split; [done|split]|].
  - intros r c Hr Hc. specialize (Hfill r c Hr Hc). lia.
  - intros r c r' c' Hr Hc Hr' Hc' Hne Hunit _. by apply Hvalid.
  - intros r c Hr Hc. specialize (Hfill r c Hr Hc). lia.
Qed.

Lemma solved_sampleSolution : solved sampleSolution.
Proof.
  apply solved_of_checks; [|by vm_compute..].
  split; [done|]. repeat constructor.
Qed.

Lemma extends_emptyGrid (sol : Grid) : extends emptyGrid sol.
Proof. intros r c _ _ Hnz. by rewrite get_emptyGrid in Hnz. Qed.

Lemma countZeros_emptyGrid : countZeros emptyGrid = 81%nat.
Proof. by vm_compute. Qed.

(** C1: started on the all-zeros grid, [generateSolution] returns (82
    units of fuel are enough) and returns [true]; and whenever it returns
    [true], every row, every column and every 3x3 box of the resulting
    grid is a permutation of 1..9 and no cell is 0. *)
Theorem generateSolution_emptyGrid {R : Type}
    (sort_random : list Z → R → list Z * R) (s : R) :
  (∀ l s, (sort_random l s).1 ≡ₚ l) →
  (∃ g' s', generateSolution sort_random 82 emptyGrid s = Some (true, g', s'))
  ∧ (∀ fuel g' s',
       generateSolution sort_random fuel emptyGrid s = Some (true, g', s') →
       unitsArePermutations g' ∧ noZero g').
Proof.
  intros Hperm. split.
  - destruct (generateSolution_is_Some sort_random Hperm 82 emptyGrid s)
      as [[[[] g'] s'] Hrun].
    + apply wf9_emptyGrid.
    + rewrite countZeros_emptyGrid. lia.
    + eauto.
    + exfalso. revert Hrun.
      apply (generateSolution_not_false sort_random Hperm _ _ sampleSolution).
      * apply solved_sampleSolution.
      * apply wf9_emptyGrid.
      * apply extends_emptyGrid.
  - intros fuel g' s' Hrun.
    apply (generateSolution_true sort_random Hperm) in Hrun as [Hok Hnz];
      [|apply partialOK_emptyGrid].
    split; [by apply partialOK_solved|done].
Qed.

(** A shuffle to run the generator with: the [n]-th call rotates the
    array by [n]. *)
Definition rotatingSort (l : list Z) (n : nat) : list Z * nat :=
  (rotate n l, S n).

Lemma rotatingSort_perm (l : list Z) (n : nat) : (rotatingSort l n).1 ≡ₚ l.
Proof.
  simpl. unfold rotate. rewrite Permutation_app_comm. by rewrite take_drop.
Qed.

Definition rotatedSolution : Grid :=
  [ [1; 2; 3; 4; 5; 6; 7; 8; 9];
    [4; 5; 6; 7; 8; 9; 1; 2; 3];
    [7; 8; 9; 1; 2; 3; 4; 5; 6];
    [2; 3; 4; 5; 6; 7; 8; 9; 1];
    [5; 6; 7; 8; 9; 1; 2; 3; 4];
    [8; 9; 1; 2; 3; 4; 5; 6; 7];
    [3; 4; 5; 6; 7; 8; 9; 1; 2];
    [6; 7; 8; 9; 1; 2; 3; 4; 5];
    [9; 1; 2; 3; 4; 5; 6; 7; 8] ].

Lemma generateSolution_emptyGrid_witness :
  generateSolution rotatingSort 82 emptyGrid 0%nat
    = Some (true, rotatedSolution, 81%nat)
  ∧ unitsArePermutations rotatedSolution ∧ noZero rotatedSolution.
Proof.
  assert (Hrun : generateSolution rotatingSort 82 emptyGrid 0%nat
                 = Some (true, rotatedSolution, 81%nat)) by (by vm_compute).
  split; [exact Hrun|].
  exact (proj2 (generateSolution_emptyGrid rotatingSort 0%nat rotatingSort_perm)
           82%nat rotatedSolution 81%nat Hrun).
Defined.

(** ** The random source stays in range

    The rounding moves a positive number by at most half a unit in its
    last place, which is at most its 2^-53rd part (2^-1075 for a
    subnormal number); hence the rounded product of a number of at most
    1 - 2^-53 and a positive integer is below the integer. *)

Lemma pow2_pos (e : Z) : (0 < 2 ^ e)%Q.
Proof. by apply Qpower_0_lt. Qed.

Lemma pow2_Z (n : Z) : 0 ≤ n → (2 ^ n == inject_Z (2 ^ n))%Q.
Proof. intros Hn. by rewrite Zpower_Qpower. Qed.

Lemma floorLog2_lower (q : Q) : (0 < q)%Q → (2 ^ floorLog2 q <= q)%Q.
Proof.
  intros Hq. unfold floorLog2.
  set (la := Z.log2 (Qnum q)). set (lb := Z.log2 (Z.pos (Qden q))).
  destruct (Qle_bool (2 ^ (la - lb)) q) eqn:Htest; [by apply Qle_bool_iff|].
  destruct q as [a b]. cbn [Qnum Qden] in *.
  assert (Ha : 0 < a) by (unfold Qlt in Hq; simpl in Hq; lia).
  pose proof (Z.log2_spec a Ha) as [Hla _]. fold la in Hla.
  pose proof (Z.log2_spec (Z.pos b) eq_refl) as [_ Hlb]. fold lb in Hlb.
  assert (H0a : 0 ≤ la) by apply Z.log2_nonneg.
  assert (H0b : 0 ≤ lb) by apply Z.log2_nonneg.
  replace (la - lb - 1) with (la - (lb + 1)) by lia.
  rewrite Qpower_minus by done.
  rewrite (pow2_Z la), (pow2_Z (lb + 1)) by lia.
  rewrite (Qmake_Qdiv a b).
  assert (Hpb : (0 < inject_Z (2 ^ (lb + 1)))%Q).
  { rewrite <- (Zlt_Qlt 0). lia. }
  assert (Hb : (0 < inject_Z (Z.pos b))%Q) by (by rewrite <- (Zlt_Qlt 0)).
  apply Qle_shift_div_l; [done|].
  unfold Qdiv. rewrite <- Qmult_assoc, (Qmult_comm (/ _)), Qmult_assoc.
  apply Qle_shift_div_r; [done|].
  rewrite <- !inject_Z_mult, <- Zle_Qle.
  rewrite <- Z.add_1_r in Hlb. nia.
Qed.

Lemma floorLog2_upper (q : Q) : (0 < q)%Q → (q < 2 ^ (floorLog2 q + 1))%Q.
Proof.
  intros Hq. unfold floorLog2.
  set (la := Z.log2 (Qnum q)). set (lb := Z.log2 (Z.pos (Qden q))).
  destruct (Qle_bool (2 ^ (la - lb)) q) eqn:Htest.
  2:{ replace (la - lb - 1 + 1) with (la - lb) by lia.
      apply Qnot_le_lt. intros Hle. apply Qle_bool_iff in Hle. congruence. }
  destruct q as [a b]. cbn [Qnum Qden] in *.
  assert (Ha : 0 < a) by (unfold Qlt in Hq; simpl in Hq; lia).
  pose proof (Z.log2_spec a Ha) as [_ Hla]. fold la in Hla.
  pose proof (Z.log2_spec (Z.pos b) eq_refl) as [Hlb _]. fold lb in Hlb.
  assert (H0a : 0 ≤ la) by apply Z.log2_nonneg.
  assert (H0b : 0 ≤ lb) by apply Z.log2_nonneg.
  replace (la - lb + 1) with (la + 1 - lb) by lia.
  rewrite Qpower_minus by done.
  rewrite (pow2_Z (la + 1)), (pow2_Z lb) by lia.
  rewrite (Qmake_Qdiv a b).
  assert (Hpb : (0 < inject_Z (2 ^ lb))%Q).
  { rewrite <- (Zlt_Qlt 0). lia. }
  assert (Hb : (0 < inject_Z (Z.pos b))%Q) by (by rewrite <- (Zlt_Qlt 0)).
  apply Qlt_shift_div_r; [done|].
  unfold Qdiv. rewrite <- Qmult_assoc, (Qmult_comm (/ _)), Qmult_assoc.
  apply Qlt_shift_div_l; [done|].
  rewrite <- !inject_Z_mult, <- Zlt_Qlt.
  rewrite <- Z.add_1_r in Hla. nia.
Qed.

Lemma ulp_bound (q : Q) (L : Z) :
  (0 < q)%Q → (2 ^ L <= q)%Q →
  (2 ^ Z.max (-1074) (L - 52) <= q * (1 # 2 ^ 52) + (1 # 2 ^ 106))%Q.
Proof.
  intros Hq Hlog.
  assert (H52 : (0 <= (1 # 2 ^ 52))%Q) by done.
  assert (H106 : (0 <= (1 # 2 ^ 106))%Q) by done.
  destruct (Z.max_spec (-1074) (L - 52)) as [[_ ->]|[_ ->]].
  - rewrite Qpower_minus by done.
    assert (Hinv : (/ 2 ^ 52 == 1 # 2 ^ 52)%Q) by done.
    unfold Qdiv. rewrite Hinv. revert Hlog. generalize (2 ^ L)%Q. intros p Hp.
    nra.
  - assert (Hsmall : (2 ^ (-1074) <= 2 ^ (-106))%Q).
    { apply Qpower_le_compat_l; [lia|done]. }
    assert (Heq : (2 ^ (-106) == 1 # 2 ^ 106)%Q) by done.
    rewrite Heq in Hsmall. revert Hsmall. generalize (2 ^ (-1074))%Q.
    intros p Hp. nra.
Qed.

Lemma roundPos_bounds (q : Q) :
  (0 < q)%Q →
  (0 <= roundPos q ∧ roundPos q <= q + q * (1 # 2 ^ 53) + (1 # 2 ^ 107))%Q.
Proof.
  intros Hq. pose proof (floorLog2_lower q Hq) as Hlog.
  pose proof (ulp_bound q _ Hq Hlog) as Hulp. unfold roundPos.
  pose proof (pow2_pos (Z.max (-1074) (floorLog2 q - 52))) as He.
  revert Hulp He. generalize (2 ^ Z.max (-1074) (floorLog2 q - 52))%Q.
  intros p Hulp Hp. clear Hlog.
  set (scaled := (q / p)%Q).
  assert (Hscaled : (scaled * p == q)%Q).
  { unfold scaled. field. lra. }
  assert (Hs : (0 <= scaled)%Q).
  { unfold scaled. apply Qle_shift_div_l; [done|].
    rewrite Qmult_0_l. by apply Qlt_le_weak. }
  set (k := Qfloor scaled).
  pose proof (Qfloor_le scaled) as Hk1. fold k in Hk1.
  assert (Hk0 : 0 ≤ k).
  { change 0 with (Qfloor 0). by apply Qfloor_resp_le. }
  set (k' := match (scaled - inject_Z k ?= 1 # 2)%Q with
             | Lt => k | Gt => k + 1
             | Eq => if Z.even k then k else k + 1 end).
  assert (Hk' : 0 ≤ k' ∧ (inject_Z k' <= scaled + (1 # 2))%Q).
  { subst k'. destruct (scaled - inject_Z k ?= 1 # 2)%Q eqn:Hc.
    - apply Qeq_alt in Hc. destruct (Z.even k).
      + split; [done|]. lra.
      + split; [lia|]. rewrite inject_Z_plus. change (inject_Z 1) with 1%Q. lra.
    - split; [done|]. lra.
    - apply Qgt_alt in Hc. split; [lia|]. rewrite inject_Z_plus. change (inject_Z 1) with 1%Q. lra. }
  destruct Hk' as [Hk'0 Hk'1].
  assert (Hk'q : (0 <= inject_Z k')%Q) by (by rewrite <- (Zle_Qle 0)).
  revert Hk'q Hk'1. generalize (inject_Z k'). intros z Hz0 Hz1.
  assert (H53 : ((1 # 2) * (1 # 2 ^ 52) == 1 # 2 ^ 53)%Q) by done.
  assert (H107 : ((1 # 2) * (1 # 2 ^ 106) == 1 # 2 ^ 107)%Q) by done.
  split; [nra|].
  assert (H1 : (z * p <= (scaled + (1 # 2)) * p)%Q).
  { apply Qmult_le_compat_r; [done|lra]. }
  assert (H2 : ((scaled + (1 # 2)) * p == q + (1 # 2) * p)%Q).
  { rewrite <- Hscaled. ring. }
  rewrite H2 in H1.
  assert (H3 : ((1 # 2) * p
                <= q * ((1 # 2) * (1 # 2 ^ 52)) + (1 # 2) * (1 # 2 ^ 106))%Q)
    by lra.
  rewrite H53, H107 in H3. lra.
Qed.

Lemma roundDoubleQ_product (x : Q) (n : Z) :
  (0 <= x)%Q → (x <= maxBelowOne)%Q → 0 < n →
  0 ≤ Qfloor (roundDoubleQ (x * inject_Z n)) < n.
Proof.
  intros H0 H1 Hn.
  assert (Hnq : (1 <= inject_Z n)%Q) by (rewrite <- (Zle_Qle 1); lia).
  set (q := (x * inject_Z n)%Q).
  assert (Hq0 : (0 <= q)%Q) by (unfold q; nra).
  assert (Hq1 : (q <= maxBelowOne * inject_Z n)%Q).
  { unfold q. apply Qmult_le_compat_r; [done|lra]. }
  assert (Hr : (0 <= roundDoubleQ q ∧ roundDoubleQ q < inject_Z n)%Q).
  { unfold roundDoubleQ. destruct (q ?= 0)%Q eqn:Hc.
    - split; [done|lra].
    - apply Qlt_alt in Hc. lra.
    - apply Qgt_alt in Hc. destruct (roundPos_bounds q Hc) as [Hlo Hhi].
      split; [done|]. eapply Qle_lt_trans; [exact Hhi|].
      unfold maxBelowOne in Hq1. revert Hq1 Hnq. generalize (inject_Z n).
      intros m Hq1 Hm.
      assert (Hm0 : (0 <= (1 # 2 ^ 53))%Q) by done.
      change (2 ^ 53)%positive with 9007199254740992%positive in *.
      change (2 ^ 107)%positive with 162259276829213363391578010288128%positive.
      nra. }
  destruct Hr as [Hlo Hhi]. split.
  - change 0 with (Qfloor 0). by apply Qfloor_resp_le.
  - rewrite Zlt_Qlt. eapply Qle_lt_trans; [apply Qfloor_le|done].
Qed.


Section RandomBelow.

Context {R : Type} (random : R → Q * R).
Hypothesis random_range : ∀ s, inUnitRange (random s).1.

Lemma randomBelow_lt (n : nat) (s : R) :
  (0 < n)%nat → ((randomBelow random n s).1 < n)%nat.
Proof.
  intros Hn. unfold randomBelow.
  destruct (random_range s) as [H0 H1]. destruct (random s) as [x s1].
  cbn [fst] in *.
  pose proof (roundDoubleQ_product x (Z.of_nat n) H0 H1 ltac:(lia)).
  lia.
Qed.

End RandomBelow.

(** The rounding at work: 0.1 and 1/3 as binary64 numbers; and
    0.4444444444444444 * 9, whose exact value 4 - 2^-52 lies halfway
    between two binary64 numbers and is rounded to 4, so that the index
    drawn is 4, not 3. *)
Example roundDoubleQ_tenth :
  Qred (roundDoubleQ (1 # 10)) = 3602879701896397 # 36028797018963968.
Proof. by vm_compute. Qed.

Example roundDoubleQ_third :
  Qred (roundDoubleQ (1 # 3)) = 6004799503160661 # 18014398509481984.
Proof. by vm_compute. Qed.

Example randomBelow_rounds_up :
  (randomBelow (λ s : unit, (2001599834386887 # 4503599627370496, s)) 9 tt).1
  = 4%nat.
Proof. by vm_compute. Qed.

(** ** Keys of removed cells *)

Definition keyOf (rc : nat * nat) : string := cellKey rc.1 rc.2.

Lemma keyOf_inj (a b : nat * nat) :
  a ∈ cells → b ∈ cells → keyOf a = keyOf b → a = b.
Proof.
  assert (Hall : forallb (λ a, forallb (λ b,
            implb (String.eqb (keyOf a) (keyOf b)) (bool_decide (a = b)))
            cells) cells = true) by (by vm_compute).
  intros Ha%list_elem_of_In Hb%list_elem_of_In Heq.
  rewrite forallb_forall in Hall. specialize (Hall a Ha).
  rewrite forallb_forall in Hall. specialize (Hall b Hb).
  apply String.eqb_eq in Heq. rewrite Heq in Hall. simpl in Hall.
  by apply bool_decide_eq_true in Hall.
Qed.

Lemma NoDup_cells : NoDup cells.
Proof. apply (bool_decide_unpack _). by vm_compute. Qed.

(** ** The carving loop *)

(** What ties the locals of the loop to the grid [sol] it started from;
    [seen] lists the coordinates cleared so far, oldest first. *)
Record CarveInv (sol fullGrid : Grid) (removed : nat)
    (cellsRemoved : list string) (seen : list (nat * nat)) : Prop := {
  inv_wf : wf9 fullGrid;
  inv_removed : removed = length seen;
  inv_keys : cellsRemoved = keyOf <$> seen;
  inv_nodup : NoDup seen;
  inv_seen : ∀ rc, rc ∈ seen → rc ∈ cells ∧ get sol rc.1 rc.2 ≠ 0;
  inv_cells : ∀ r c, (r < 9)%nat → (c < 9)%nat →
    get fullGrid r c = if bool_decide ((r, c) ∈ seen) then 0 else get sol r c
}.

(** The number of coordinates of [draws] that are neither in [seen] nor
    earlier in [draws]. *)
Fixpoint freshDraws (seen draws : list (nat * nat)) : nat :=
  match draws with
  | [] => 0%nat
  | d :: rest =>
      if bool_decide (d ∈ seen) then freshDraws seen rest
      else S (freshDraws (seen ++ [d]) rest)
  end.

(** The coordinates the first [fuel] runs of the loop body draw. *)
Fixpoint drawsOf {R : Type} (random : R → Q * R) (fuel : nat) (s : R)
    : list (nat * nat) :=
  match fuel with
  | O => []
  | S fuel' =>
      let '(row, s1) := randomBelow random 9 s in
      let '(col, s2) := randomBelow random 9 s1 in
      (row, col) :: drawsOf random fuel' s2
  end.

Lemma CarveInv_start (sol : Grid) : wf9 sol → CarveInv sol sol 0 [] [].
Proof.
  intros Hwf. split; try done.
  - constructor.
  - intros rc Hin. by apply elem_of_nil in Hin.
Qed.

Lemma CarveInv_key sol full removed keys seen (row col : nat) :
  CarveInv sol full removed keys seen → (row < 9)%nat → (col < 9)%nat →
  cellKey row col ∈ keys ↔ (row, col) ∈ seen.
Proof.
  intros Hinv Hrow Hcol. rewrite (inv_keys _ _ _ _ _ Hinv), list_elem_of_fmap.
  split.
  - intros (rc & Heq & Hin).
    destruct (inv_seen _ _ _ _ _ Hinv rc Hin) as [Hc _].
    assert ((row, col) = rc) as ->; [|done].
    apply keyOf_inj; [by apply elem_of_cells|done|done].
  - intros Hin. by exists (row, col).
Qed.

(** The test of the loop body, read on the invariant. *)
Lemma CarveInv_test sol full removed keys seen (row col : nat) :
  CarveInv sol full removed keys seen → (row < 9)%nat → (col < 9)%nat →
  (negb (get full row col =? 0)
     && negb (bool_decide (cellKey row col ∈ keys)) = true)
  ↔ ((row, col) ∉ seen) ∧ get sol row col ≠ 0.
Proof.
  intros Hinv Hrow Hcol.
  rewrite andb_true_iff, !negb_true_iff, Z.eqb_neq, bool_decide_eq_false.
  rewrite (CarveInv_key _ _ _ _ _ _ _ Hinv Hrow Hcol).
  rewrite (inv_cells _ _ _ _ _ Hinv row col Hrow Hcol).
  case_bool_decide; tauto.
Qed.

Lemma CarveInv_step sol full removed keys seen (row col : nat) :
  CarveInv sol full removed keys seen → (row < 9)%nat → (col < 9)%nat →
  (row, col) ∉ seen → get sol row col ≠ 0 →
  CarveInv sol (set full row col 0) (S removed) (keys ++ [cellKey row col])
    (seen ++ [(row, col)]).
Proof.
  intros Hinv Hrow Hcol Hnew Hnz. destruct Hinv as [Hwf Hrem Hkeys Hnd Hseen Hcells].
  split.
  - by apply wf9_set.
  - rewrite length_app. simpl. lia.
  - by rewrite fmap_app, Hkeys.
  - apply NoDup_app. split; [done|]. split; [|apply NoDup_singleton].
    intros rc Hin ->%list_elem_of_singleton. done.
  - intros rc [Hin| ->%list_elem_of_singleton]%elem_of_app; [by apply Hseen|].
    split; [by apply elem_of_cells|done].
  - intros r c Hr Hc. destruct (decide ((row, col) = (r, c))) as [[= <- <-]|Hne].
    + rewrite get_set_eq by done. rewrite bool_decide_eq_true_2; [done|].
      apply elem_of_app. right. by apply list_elem_of_singleton.
    + rewrite get_set_ne, Hcells by done.
      apply (f_equal (λ b : bool, if b then 0 else get sol r c)).
      apply bool_decide_ext. rewrite elem_of_app, list_elem_of_singleton.
      split; [tauto|]. intros [|]; [done|congruence].
Qed.

Section Carver.

Context {R : Type} (random : R → Q * R).
Hypothesis random_range : ∀ s, inUnitRange (random s).1.

Lemma draw_lt9 (s : R) : ((randomBelow random 9 s).1 < 9)%nat.
Proof. apply randomBelow_lt; [done|lia]. Qed.

(** Name the two draws of one run of the loop body, with their ranges. *)
Ltac draw_cell s row col s1 s2 Hrow Hcol :=
  pose proof (draw_lt9 s) as Hrow;
  destruct (randomBelow random 9 s) as [row s1]; simpl in Hrow;
  pose proof (draw_lt9 s1) as Hcol;
  destruct (randomBelow random 9 s1) as [col s2]; simpl in Hcol.

(** When the loop exits, [removed] is the target and the invariant holds. *)
Lemma carveLoop_exit (sol : Grid) (n fuel : nat) (full : Grid) (removed : nat)
    (keys : list string) (seen : list (nat * nat)) (s : R)
    (full' : Grid) (removed' : nat) (keys' : list string) (s' : R) :
  CarveInv sol full removed keys seen → (removed ≤ n)%nat →
  carveLoop random fuel n full removed keys s = Some (full', removed', keys', s') →
  ∃ seen', CarveInv sol full' removed' keys' seen' ∧ removed' = n.
Proof.
  revert full removed keys seen s.
  induction fuel as [|fuel IH]; intros full removed keys seen s Hinv Hle; simpl;
    destruct (Nat.ltb_spec removed n) as [Hlt|Hge]; try done;
    try (intros [= <- <- <- <-]; exists seen; split; [done|lia]).
  draw_cell s row col s1 s2 Hrow Hcol.
  destruct (negb _ && negb _) eqn:Htest.
  - apply (CarveInv_test _ _ _ _ _ _ _ Hinv Hrow Hcol) in Htest as [Hnew Hnz].
    apply (IH _ _ _ (seen ++ [(row, col)])); [|lia].
    by apply CarveInv_step.
  - by apply (IH _ _ _ seen).
Qed.

(** The loop exits within [fuel] runs of its body exactly when those runs
    draw enough coordinates not yet cleared. *)
Lemma carveLoop_is_Some (sol : Grid) (n fuel : nat) (full : Grid) (removed : nat)
    (keys : list string) (seen : list (nat * nat)) (s : R) :
  noZero sol → CarveInv sol full removed keys seen →
  is_Some (carveLoop random fuel n full removed keys s)
  ↔ (n ≤ removed + freshDraws seen (drawsOf random fuel s))%nat.
Proof.
  intros Hnz. revert full removed keys seen s.
  induction fuel as [|fuel IH]; intros full removed keys seen s Hinv; simpl;
    destruct (Nat.ltb_spec removed n) as [Hlt|Hge].
  - split; [by intros [? ?]|lia].
  - split; [lia|eauto].
  - draw_cell s row col s1 s2 Hrow Hcol.
    pose proof (CarveInv_test _ _ _ _ _ row col Hinv Hrow Hcol) as Htest.
    destruct (negb _ && negb _); simpl.
    + destruct (proj1 Htest eq_refl) as [Hnew Hsol].
      rewrite bool_decide_eq_false_2 by done.
      rewrite (IH _ _ _ (seen ++ [(row, col)])) by (by apply CarveInv_step).
      lia.
    + rewrite bool_decide_eq_true_2.
      * by apply IH.
      * destruct (decide ((row, col) ∈ seen)) as [|Hnot]; [done|]. exfalso.
        assert (Hf : false = true) by (apply Htest; split; [done|by apply Hnz]).
        done.
  - split; [lia|eauto].
Qed.





(** The loop as [generatePuzzle] starts it. *)
Lemma carveLoop_from_start (sol : Grid) (n fuel : nat) (s : R)
    (orig : Grid) (removed : nat) (keys : list string) (s' : R) :
  wf9 sol →
  carveLoop random fuel n sol 0 [] s = Some (orig, removed, keys, s') →
  ∃ seen, CarveInv sol orig removed keys seen ∧ removed = n.
Proof.
  intros Hwf Hrun.
  apply (carveLoop_exit sol n fuel sol 0%nat [] [] s _ _ _ s'); [|lia|done].
  by apply CarveInv_start.
Qed.


End Carver.

(** On a grid that started without zeros, the cells holding 0 are the
    cleared ones, so there are [removed] of them. *)
Lemma CarveInv_zero_iff sol full removed keys seen (r c : nat) :
  noZero sol → CarveInv sol full removed keys seen →
  (r < 9)%nat → (c < 9)%nat → get full r c = 0 ↔ (r, c) ∈ seen.
Proof.
  intros Hnz Hinv Hr Hc. rewrite (inv_cells _ _ _ _ _ Hinv r c Hr Hc).
  case_bool_decide; [done|]. split; [|done]. intros H0. by destruct (Hnz r c).
Qed.

Lemma CarveInv_countZeros sol full removed keys seen :
  noZero sol → CarveInv sol full removed keys seen → countZeros full = removed.
Proof.
  intros Hnz Hinv. rewrite (inv_removed _ _ _ _ _ Hinv).
  unfold countZeros, emptyCellsOf. apply Permutation_length, NoDup_Permutation.
  - apply NoDup_filter, NoDup_cells.
  - apply (inv_nodup _ _ _ _ _ Hinv).
  - intros [r c]. rewrite list_elem_of_filter. simpl. split.
    + intros [H0 [Hr Hc]%elem_of_cells].
      by apply (CarveInv_zero_iff _ _ _ _ _ _ _ Hnz Hinv Hr Hc).
    + intros Hin. destruct (inv_seen _ _ _ _ _ Hinv _ Hin) as [Hcell _].
      split; [|done]. apply elem_of_cells in Hcell as [Hr Hc].
      by apply (CarveInv_zero_iff _ _ _ _ _ _ _ Hnz Hinv Hr Hc).
Qed.

Lemma freshDraws_size (seen draws : list (nat * nat)) :
  freshDraws seen draws
  = size ((list_to_set draws : gset (nat * nat)) ∖ list_to_set seen).
Proof.
  revert seen. induction draws as [|d rest IH]; intros seen.
  - simpl. symmetry. apply size_empty_iff, set_equiv. intros x.
    rewrite elem_of_difference, elem_of_empty. tauto.
  - cbn [freshDraws]. case_bool_decide as Hin.
    + rewrite IH. f_equal. apply set_eq. intros x.
      rewrite !elem_of_difference, !elem_of_list_to_set, elem_of_cons.
      split; [tauto|]. intros [[->|Hx] Hn]; tauto.
    + rewrite IH.
      assert (Heq : (list_to_set (d :: rest) ∖ list_to_set seen : gset (nat * nat))
                    = {[d]} ∪ (list_to_set rest ∖ list_to_set (seen ++ [d]))).
      { apply set_eq. intros x.
        rewrite elem_of_union, !elem_of_difference, elem_of_singleton,
          !elem_of_list_to_set, elem_of_cons, elem_of_app,
          list_elem_of_singleton.
        destruct (decide (x = d)) as [->|Hne]; tauto. }
      rewrite Heq, (size_union (C:=gset (nat * nat)) {[d]}).
      { by rewrite size_singleton. }
      intros x. rewrite elem_of_singleton, elem_of_difference,
        !elem_of_list_to_set, elem_of_app, list_elem_of_singleton.
      intros -> [_ Hn]. tauto.
Qed.


(** [freshDraws] counts distinct coordinates. *)
(** C8, as the code has it: the loop is a rejection sampling without a
    bound on the number of draws.  On a complete grid it exits within
    [fuel] runs of its body exactly when the coordinates drawn in those
    runs contain at least the target number of distinct ones; and when it
    exits, exactly that many distinct cells have been cleared. *)
Theorem carveLoop_terminates_iff {R : Type} (random : R → Q * R) (sol : Grid)
    (difficulty : string) (fuel : nat) (s : R) :
  (∀ s, inUnitRange (random s).1) →
  wf9 sol → noZero sol →
  (is_Some (carveLoop random fuel (cellsToRemoveOf difficulty) sol 0 [] s)
     ↔ (cellsToRemoveOf difficulty
          ≤ size (list_to_set (drawsOf random fuel s) : gset (nat * nat)))%nat)
  ∧ (∀ orig removed keys s',
       carveLoop random fuel (cellsToRemoveOf difficulty) sol 0 [] s
         = Some (orig, removed, keys, s') →
       removed = cellsToRemoveOf difficulty
       ∧ countZeros orig = cellsToRemoveOf difficulty
       ∧ length keys = cellsToRemoveOf difficulty).
Proof.
  intros Hrange Hwf Hnz. split.
  - rewrite (carveLoop_is_Some random Hrange sol _ _ _ _ _ [] s Hnz
               (CarveInv_start sol Hwf)).
    rewrite freshDraws_size. simpl. by rewrite difference_empty_L.
  - intros orig removed keys s' Hrun.
    destruct (carveLoop_from_start random Hrange sol _ _ _ _ _ _ _ Hwf Hrun)
      as (seen & Hinv & Hrem).
    split; [done|]. split.
    + rewrite <- Hrem. by apply (CarveInv_countZeros sol _ _ keys seen).
    + rewrite (inv_keys _ _ _ _ _ Hinv), length_fmap,
        <- (inv_removed _ _ _ _ _ Hinv). done.
Qed.

(** A random source that always answers 0: every draw is the cell (0,0). *)
Definition stuckRandom (s : unit) : Q * unit := (0%Q, s).

Lemma stuckRandom_range (s : unit) : inUnitRange (stuckRandom s).1.
Proof. done. Qed.

Lemma drawsOf_stuckRandom (fuel : nat) :
  drawsOf stuckRandom fuel tt = replicate fuel (0, 0)%nat.
Proof.
  induction fuel as [|fuel IH]; [done|].
  change (drawsOf stuckRandom (S fuel) tt)
    with ((0, 0)%nat :: drawsOf stuckRandom fuel tt).
  by rewrite IH.
Qed.

(** C8, counterexample: with the source that always answers 0 (a stream
    of values of [0,1)), the loop on a complete grid at difficulty easy
    exits for no amount of fuel: after the first run it draws the cleared
    cell (0,0) forever. *)
Lemma carveLoop_never_exits :
  (∀ s, inUnitRange (stuckRandom s).1)
  ∧ wf9 sampleSolution ∧ noZero sampleSolution
  ∧ ¬ ∃ fuel, is_Some (carveLoop stuckRandom fuel (cellsToRemoveOf "easy")
                         sampleSolution 0 [] tt).
Proof.
  destruct solved_sampleSolution as [(Hwf & _ & _) Hnz].
  split; [apply stuckRandom_range|].
  split; [done|]. split; [done|]. intros [fuel Hsome].
  apply (carveLoop_is_Some stuckRandom stuckRandom_range sampleSolution _ _ _ _ _ []
           tt Hnz (CarveInv_start _ Hwf)) in Hsome.
  rewrite freshDraws_size, drawsOf_stuckRandom in Hsome.
  assert (Hsub : (list_to_set (replicate fuel (0, 0)%nat) ∖ list_to_set []
                    : gset (nat * nat)) ⊆ {[ (0, 0)%nat ]}).
  { intros x [Hx _]%elem_of_difference.
    apply elem_of_list_to_set, elem_of_replicate in Hx as [-> _].
    by apply elem_of_singleton. }
  apply subseteq_size in Hsub. rewrite size_singleton in Hsub.
  change (cellsToRemoveOf "easy") with 40%nat in Hsome. lia.
Qed.

Example carveLoop_stuck_after_1000_runs :
  carveLoop stuckRandom 1000 (cellsToRemoveOf "easy") sampleSolution 0 [] tt
  = None.
Proof. by vm_compute. Qed.

(** ** Unrecognized difficulties *)

Definition withDifficulty {R : Type} (d : string) (this : Game R) : Game R :=
  mkGame (solution this) (grid this) (originalGrid this) d
    (hintsUsed this) (isGameComplete this) (rng this) (signals this).

Lemma cellsToRemoveOf_other (d : string) :
  d ≠ "easy" → d ≠ "medium" → cellsToRemoveOf d = 60%nat.
Proof.
  intros He Hm. unfold cellsToRemoveOf.
  apply String.eqb_neq in He, Hm. by rewrite He, Hm.
Qed.

(** C10: a difficulty that is neither 'easy' nor 'medium' is treated as
    'hard': the number of cells to remove is 60 and [generatePuzzle] does
    exactly what it does for 'hard' (no other outcome exists).  With a
    shuffle that permutes, as soon as the coordinates drawn after the
    solution is generated contain 60 distinct ones, [generatePuzzle]
    returns a puzzle with exactly 60 cells removed; and whenever the
    carving of a complete grid exits, 60 cells have been removed. *)
Theorem generatePuzzle_other_difficulty {R : Type} (random : R → Q * R)
    (sort_random : list Z → R → list Z * R) (d : string) :
  (∀ s, inUnitRange (random s).1) →
  d ≠ "easy" → d ≠ "medium" →
  cellsToRemoveOf d = 60%nat
  ∧ cellsToRemoveOf d = cellsToRemoveOf "hard"
  ∧ (∀ fuelSolve fuelCarve this, difficulty this = d →
       generatePuzzle random sort_random fuelSolve fuelCarve this
       = withDifficulty d
           <$> generatePuzzle random sort_random fuelSolve fuelCarve
                 (withDifficulty "hard" this))
  ∧ (∀ fuelCarve this,
       (∀ l s, (sort_random l s).1 ≡ₚ l) → difficulty this = d →
       (∀ ok sol s1,
          generateSolution sort_random 82 emptyGrid (rng this)
            = Some (ok, sol, s1) →
          (60 ≤ size (list_to_set (drawsOf random fuelCarve s1)
                        : gset (nat * nat)))%nat) →
       ∃ this',
         generatePuzzle random sort_random 82 fuelCarve this = Some this'
         ∧ countZeros (originalGrid this') = 60%nat
         ∧ grid this' = originalGrid this'
         ∧ difficulty this' = d)
  ∧ (∀ sol fuel s orig removed keys s', wf9 sol → noZero sol →
       carveLoop random fuel (cellsToRemoveOf d) sol 0 [] s
         = Some (orig, removed, keys, s') →
       removed = 60%nat ∧ countZeros orig = 60%nat ∧ length keys = 60%nat).
Proof.
  intros Hrange He Hm. pose proof (cellsToRemoveOf_other d He Hm) as H60.
  split; [done|]. split; [done|]. split; [|split].
  - intros fuelSolve fuelCarve [sol g og d' h c s sg] Hd. simpl in Hd. subst d'.
    unfold generatePuzzle. simpl.
    destruct (generateSolution sort_random fuelSolve emptyGrid s)
      as [[[ok sol'] s1]|]; [|done].
    rewrite H60. change (cellsToRemoveOf "hard") with 60%nat.
    by destruct (carveLoop random fuelCarve 60 sol' 0 [] s1) as [[[[g' n] ks] s2]|].
  - intros fuelCarve this Hperm Hd Hdraws. unfold generatePuzzle.
    destruct (generateSolution_is_Some sort_random Hperm 82 emptyGrid (rng this))
      as [[[ok sol] s1] Hsol].
    { apply wf9_emptyGrid. }
    { rewrite countZeros_emptyGrid. lia. }
    rewrite Hsol. specialize (Hdraws ok sol s1 Hsol).
    assert (Hsolved : wf9 sol ∧ noZero sol).
    { destruct ok.
      - apply (generateSolution_true sort_random Hperm) in Hsol as [Hok Hnz];
          [|apply partialOK_emptyGrid].
        split; [apply Hok|done].
      - exfalso. revert Hsol.
        apply (generateSolution_not_false sort_random Hperm _ _ sampleSolution).
        + apply solved_sampleSolution.
        + apply wf9_emptyGrid.
        + apply extends_emptyGrid. }
    destruct Hsolved as [Hwf Hnz]. rewrite Hd, H60.
    destruct (proj2 (carveLoop_is_Some random Hrange sol 60 fuelCarve _ _ _ [] s1
                       Hnz (CarveInv_start sol Hwf)))
      as [[[[orig removed] keys] s2] Hrun].
    { rewrite freshDraws_size. simpl. by rewrite difference_empty_L. }
    rewrite Hrun.
    destruct (carveLoop_from_start random Hrange sol _ _ _ _ _ _ _ Hwf Hrun)
      as (seen & Hinv & ->).
    eexists. split; [reflexivity|]. cbn [originalGrid grid difficulty].
    split; [|done]. by apply (CarveInv_countZeros sol _ _ keys seen).
  - intros sol fuel s orig removed keys s' Hwf Hnz Hrun.
    destruct (carveLoop_from_start random Hrange sol _ _ _ _ _ _ _ Hwf Hrun)
      as (seen & Hinv & Hrem).
    rewrite H60 in Hrem. split; [done|]. split.
    + rewrite <- Hrem. by apply (CarveInv_countZeros sol _ _ keys seen).
    + rewrite (inv_keys _ _ _ _ _ Hinv), length_fmap,
        <- (inv_removed _ _ _ _ _ Hinv). done.
Qed.

(** ** [mulberry32] as the random source *)

Lemma mulberry32_range (seed : Z) : inUnitRange (mulberry32 seed).1.
Proof.
  unfold inUnitRange, maxBelowOne, mulberry32. cbn [fst].
  match goal with |- context [jsShru ?x 0] => generalize x end. intros x.
  unfold jsShru, toUint32. rewrite Z.shiftr_0_r.
  pose proof (Z.mod_pos_bound x (2 ^ 32) eq_refl) as Hb.
  unfold Qle, Qlt. simpl Qnum. simpl Qden. lia.
Qed.

(** ** Hints *)

Lemma elem_of_emptyCellsOf (g : Grid) (r c : nat) :
  (r, c) ∈ emptyCellsOf g ↔ (r < 9)%nat ∧ (c < 9)%nat ∧ get g r c = 0.
Proof.
  unfold emptyCellsOf. rewrite list_elem_of_filter, elem_of_cells. simpl. tauto.
Qed.

Lemma checkGameCompletion_frame {R : Type} (this : Game R) :
  solution (checkGameCompletion this) = solution this
  ∧ grid (checkGameCompletion this) = grid this
  ∧ originalGrid (checkGameCompletion this) = originalGrid this
  ∧ hintsUsed (checkGameCompletion this) = hintsUsed this
  ∧ (signals (checkGameCompletion this) = signals this
     ∨ signals (checkGameCompletion this) = signals this ++ [CompletionModal]).
Proof.
  unfold checkGameCompletion.
  destruct (isGameComplete this); [repeat split; by left|].
  destruct (existsb _ cells); [repeat split; by left|].
  destruct (isSolutionValid (grid this)); simpl; repeat split; auto.
Qed.

(** The game after the "no empty cells" message. *)
Definition afterNoEmptyCells {R : Type} (this : Game R) : Game R :=
  mkGame (solution this) (grid this) (originalGrid this) (difficulty this)
    (hintsUsed this) (isGameComplete this) (rng this)
    (signals this ++ [NoEmptyCells]).

(** The game after the hint at [(row, col)] is written, before the
    rendering and the completion check. *)
Definition afterReveal {R : Type} (this : Game R) (row col : nat) (s' : R)
    : Game R :=
  mkGame (solution this)
    (set (grid this) row col (get (solution this) row col))
    (originalGrid this) (difficulty this) (S (hintsUsed this))
    (isGameComplete this) s' (signals this).

Section HintProofs.

Context {R : Type} (random : R → Q * R).
Hypothesis random_range : ∀ s, inUnitRange (random s).1.

(** The two ways [grantHint] runs. *)
Lemma grantHint_cases (this : Game R) :
  (noZero (grid this) ∧ grantHint random this = Some (afterNoEmptyCells this))
  ∨ (∃ row col s', (row < 9)%nat ∧ (col < 9)%nat
       ∧ get (grid this) row col = 0
       ∧ grantHint random this
         = Some (checkGameCompletion (afterReveal this row col s'))).
Proof.
  unfold grantHint.
  destruct (emptyCellsOf (grid this)) as [|rc0 rest] eqn:Hempty.
  - left. split; [|done]. intros r c Hr Hc H0.
    assert (Hin : (r, c) ∈ emptyCellsOf (grid this))
      by (by apply elem_of_emptyCellsOf).
    rewrite Hempty in Hin. by apply elem_of_nil in Hin.
  - right. rewrite <- Hempty.
    assert (Hpos : (0 < length (emptyCellsOf (grid this)))%nat)
      by (rewrite Hempty; simpl; lia).
    destruct (Nat.eqb_spec (length (emptyCellsOf (grid this))) 0) as [Hz|_]; [lia|].
    pose proof (randomBelow_lt random random_range _ (rng this) Hpos) as Hlt.
    destruct (randomBelow random _ (rng this)) as [i s']. simpl in Hlt.
    destruct (lookup_lt_is_Some_2 _ _ Hlt) as [[row col] Hrc].
    rewrite Hrc. exists row, col, s'.
    apply list_elem_of_lookup_2, elem_of_emptyCellsOf in Hrc. tauto.
Qed.

End HintProofs.

(** C3: if the player grid has a cell equal to 0, [grantHint] picks a
    coordinate whose player-grid value is 0 at call time and the value it
    writes there is the solution's value at that coordinate (and it does
    not send the "no empty cells" message); if the player grid has no
    zero cell, it sends the "no empty cells" message and touches nothing
    else. *)
Theorem grantHint_spec {R : Type} (random : R → Q * R) (this : Game R) :
  (∀ s, inUnitRange (random s).1) →
  wf9 (grid this) →
  ((∃ r c, (r < 9)%nat ∧ (c < 9)%nat ∧ get (grid this) r c = 0) →
     ∃ row col this',
       grantHint random this = Some this'
       ∧ (row < 9)%nat ∧ (col < 9)%nat
       ∧ get (grid this) row col = 0
       ∧ grid this' = set (grid this) row col (get (solution this) row col)
       ∧ get (grid this') row col = get (solution this) row col
       ∧ NoEmptyCells ∉ drop (length (signals this)) (signals this'))
  ∧ (noZero (grid this) →
       grantHint random this = Some (afterNoEmptyCells this)).
Proof.
  intros Hrange Hwf.
  destruct (grantHint_cases random Hrange this)
    as [[Hnz Hrun]|(row & col & s' & Hrow & Hcol & H0 & Hrun)].
  - split; [|done]. intros (r & c & Hr & Hc & Hz). by destruct (Hnz r c).
  - split; [|intros Hnz; by destruct (Hnz row col)].
    intros _. exists row, col, (checkGameCompletion (afterReveal this row col s')).
    destruct (checkGameCompletion_frame (afterReveal this row col s'))
      as (_ & Hgrid & _ & _ & Hsig).
    split; [done|]. split; [done|]. split; [done|]. split; [done|].
    split; [by rewrite Hgrid|]. split.
    + rewrite Hgrid. simpl. by rewrite get_set_eq.
    + simpl in Hsig. destruct Hsig as [-> | ->].
      * rewrite drop_all. apply not_elem_of_nil.
      * rewrite drop_app_length. by intros [=]%list_elem_of_singleton.
Qed.

(** C7, as the code has it: [grantHint] always returns; [solution] and
    [originalGrid] are untouched; when the player grid has no zero cell
    the player grid is untouched too; otherwise the player grid is written
    at exactly one coordinate, which held 0, with the solution's value
    there, and every other cell keeps its value. *)
Theorem grantHint_frame {R : Type} (random : R → Q * R) (this : Game R) :
  (∀ s, inUnitRange (random s).1) →
  wf9 (grid this) →
  ∃ this',
    grantHint random this = Some this'
    ∧ solution this' = solution this
    ∧ originalGrid this' = originalGrid this
    ∧ (noZero (grid this) → grid this' = grid this)
    ∧ (¬ noZero (grid this) →
         ∃ row col, (row < 9)%nat ∧ (col < 9)%nat
           ∧ get (grid this) row col = 0
           ∧ get (grid this') row col = get (solution this) row col
           ∧ ∀ r c, (r, c) ≠ (row, col) →
               get (grid this') r c = get (grid this) r c).
Proof.
  intros Hrange Hwf.
  destruct (grantHint_cases random Hrange this)
    as [[Hnz Hrun]|(row & col & s' & Hrow & Hcol & H0 & Hrun)].
  - exists (afterNoEmptyCells this). repeat split; try done.
  - exists (checkGameCompletion (afterReveal this row col s')).
    destruct (checkGameCompletion_frame (afterReveal this row col s'))
      as (Hsol & Hgrid & Horig & _ & _).
    split; [done|]. split; [done|]. split; [done|]. split.
    + intros Hnz. by destruct (Hnz row col).
    + intros _. exists row, col. rewrite Hgrid. simpl.
      split; [done|]. split; [done|]. split; [done|]. split.
      * by rewrite get_set_eq.
      * intros r c Hne. by rewrite get_set_ne.
Qed.

(** ** The daily seed *)

Lemma roundDouble_exact (z : Z) : Z.abs z < 2 ^ 53 → roundDouble z = z.
Proof.
  intros Hz. unfold roundDouble.
  destruct (Z.ltb_spec (Z.abs z) (2 ^ 53)); [done|lia].
Qed.

Lemma string_get_lookup (s : string) (i : nat) :
  String.get i s = String.list_ascii_of_string s !! i.
Proof.
  revert i. induction s as [|ch s IH]; intros [|i]; simpl; done.
Qed.

Lemma charCodes_length (s : string) : length (charCodes s) = String.length s.
Proof.
  unfold charCodes. rewrite length_fmap.
  induction s as [|ch s IH]; simpl; [done|]. by rewrite IH.
Qed.

Lemma charCodeAt_lookup (s : string) (i : nat) (code : Z) :
  charCodes s !! i = Some code → charCodeAt s i = code ∧ 0 ≤ code < 256.
Proof.
  unfold charCodes, charCodeAt. rewrite list_lookup_fmap, string_get_lookup.
  destruct (String.list_ascii_of_string s !! i) as [ch|]; simpl; [|done].
  intros [= <-]. split; [done|].
  pose proof (Ascii.N_ascii_bounded ch). lia.
Qed.

(** One step of the hash, as the specification words it. *)
Definition hashStep (hash code : Z) : Z := (hash * 31 + code) mod 2 ^ 32.

(** On a 32-bit hash and a character code, the binary64 product and sum
    are exact, so the step of the loop is [hashStep]. *)
Lemma loop_step_exact (hash code : Z) :
  0 ≤ hash < 2 ^ 32 → 0 ≤ code < 256 →
  toUint32 (jsAdd (jsMul hash 31) code) = hashStep hash code.
Proof.
  intros Hh Hc. unfold jsAdd, jsMul, toUint32, hashStep.
  rewrite (roundDouble_exact (hash * 31)) by lia.
  rewrite roundDouble_exact by lia. done.
Qed.

Lemma seedLoop_fold (today : string) (n i : nat) (hash : Z) :
  0 ≤ hash < 2 ^ 32 → (i + n)%nat = String.length today →
  seedLoop today n i hash = fold_left hashStep (drop i (charCodes today)) hash.
Proof.
  revert i hash. induction n as [|n IH]; intros i hash Hh Hlen; simpl.
  - rewrite drop_ge; [done|]. rewrite charCodes_length. lia.
  - destruct (lookup_lt_is_Some_2 (charCodes today) i) as [code Hcode].
    { rewrite charCodes_length. lia. }
    rewrite (drop_S _ _ _ Hcode). simpl.
    destruct (charCodeAt_lookup _ _ _ Hcode) as [-> Hrange].
    rewrite loop_step_exact by done.
    apply IH; [|lia]. unfold hashStep. by apply Z.mod_pos_bound.
Qed.

Lemma fold_hashStep_range (codes : list Z) (hash : Z) :
  0 ≤ hash < 2 ^ 32 → 0 ≤ fold_left hashStep codes hash < 2 ^ 32.
Proof.
  revert hash. induction codes as [|code codes IH]; intros hash Hh; simpl; [done|].
  apply IH. unfold hashStep. by apply Z.mod_pos_bound.
Qed.

(** C9: [getDailySeed] on a date string is the fold of
    [hash = (hash * 31 + charCode) wrapped to unsigned 32 bits] over the
    characters in order, from 0; the result is a 32-bit unsigned integer
    and depends on the string only. *)
Theorem getDailySeed_spec (today : string) :
  getDailySeed today = seedFromDateString today
  ∧ getDailySeed today
    = fold_left (λ hash code, (hash * 31 + code) mod 2 ^ 32) (charCodes today) 0
  ∧ 0 ≤ getDailySeed today < 2 ^ 32
  ∧ ∀ other : string, other = today → getDailySeed other = getDailySeed today.
Proof.
  assert (Heq : getDailySeed today = seedFromDateString today).
  { unfold getDailySeed. rewrite seedLoop_fold; [done|lia|done]. }
  split; [done|]. split; [done|]. split.
  - rewrite Heq. by apply (fold_hashStep_range (charCodes today) 0).
  - by intros other ->.
Qed.

Example getDailySeed_2024_01_01 : getDailySeed "2024-01-01" = 3681625664.
Proof. by vm_compute. Qed.

(** ** [generatePuzzle] as a whole *)

(** With a shuffle that permutes and a source in [0,1): 82 units of fuel
    always suffice for the solution; whenever the carving exits, the
    stored solution is a solved grid, the player grid and the original
    grid are the same carved grid, which has as many zero cells as the
    difficulty asks for and agrees with the solution on every other
    cell. *)
Lemma generatePuzzle_spec {R : Type} (random : R → Q * R)
    (sort_random : list Z → R → list Z * R) (fuelCarve : nat)
    (this this' : Game R) :
  (∀ s, inUnitRange (random s).1) →
  (∀ l s, (sort_random l s).1 ≡ₚ l) →
  generatePuzzle random sort_random 82 fuelCarve this = Some this' →
  unitsArePermutations (solution this')
  ∧ grid this' = originalGrid this'
  ∧ countZeros (originalGrid this') = cellsToRemoveOf (difficulty this)
  ∧ ∀ r c, (r < 9)%nat → (c < 9)%nat → get (originalGrid this') r c ≠ 0 →
      get (originalGrid this') r c = get (solution this') r c.
Proof.
  intros Hrange Hperm. unfold generatePuzzle.
  destruct (generateSolution_is_Some sort_random Hperm 82 emptyGrid (rng this))
    as [[[ok sol] s1] Hsol].
  { apply wf9_emptyGrid. }
  { rewrite countZeros_emptyGrid. lia. }
  rewrite Hsol. destruct ok.
  - apply (generateSolution_true sort_random Hperm) in Hsol as [Hok Hnz];
      [|apply partialOK_emptyGrid].
    destruct (carveLoop random fuelCarve _ sol 0 [] s1)
      as [[[[orig removed] keys] s2]|] eqn:Hcarve; [|done].
    intros [= <-]. simpl.
    destruct (carveLoop_from_start random Hrange sol _ _ _ _ _ _ _ (proj1 Hok) Hcarve)
      as (seen & Hinv & Hrem).
    split; [by apply partialOK_solved|]. split; [done|]. split.
    + rewrite <- Hrem. by apply (CarveInv_countZeros sol _ _ keys seen).
    + intros r c Hr Hc. rewrite (inv_cells _ _ _ _ _ Hinv r c Hr Hc).
      by case_bool_decide.
  - exfalso. revert Hsol.
    apply (generateSolution_not_false sort_random Hperm _ _ sampleSolution).
    + apply solved_sampleSolution.
    + apply wf9_emptyGrid.
    + apply extends_emptyGrid.
Qed.

(** ** The theorems at concrete inputs *)

Lemma wf9_sampleSolution : wf9 sampleSolution.
Proof. split; [done|]. repeat constructor. Qed.

Lemma noZero_sampleSolution : noZero sampleSolution.
Proof. apply solved_sampleSolution. Qed.

Lemma filled_sampleSolution (r c : nat) :
  (r < 9)%nat → (c < 9)%nat → 1 ≤ get sampleSolution r c ≤ 9.
Proof. apply allFilled_true. by vm_compute. Qed.

(** The seed of 2024-01-01. *)
Definition seed20240101 : Z := 3681625664.



(** A grid whose first row starts with two 1s. *)
Definition clashGrid : Grid := set sampleSolution 0 1 1.

Lemma isCellConflicting_spec_witness :
  isCellConflicting clashGrid 0 0 = true
  ∧ isCellConflicting clashGrid 0 1 = true.
Proof.
  refine (proj2 (proj2 (isCellConflicting_spec clashGrid 0 0 _ _))
            0%nat 1%nat _ _ _ _ _ _).
  - lia.
  - lia.
  - lia.
  - lia.
  - discriminate.
  - left. reflexivity.
  - discriminate.
  - reflexivity.
Defined.

Lemma isSolutionValid_iff_no_conflict_witness :
  isSolutionValid sampleSolution = true
  ↔ ∀ r c, (r < 9)%nat → (c < 9)%nat →
      isCellConflicting sampleSolution r c = false.
Proof.
  exact (isSolutionValid_iff_no_conflict sampleSolution filled_sampleSolution).
Defined.

(** A game on [sampleSolution] with the 9s still to be entered, and the
    same game with the grid filled in. *)
Definition sampleGame : Game Z :=
  mkGame sampleSolution ninesBlanked ninesBlanked "easy" 0 false 12345 [].

Definition filledGame : Game Z :=
  mkGame sampleSolution sampleSolution ninesBlanked "easy" 0 false 12345 [].

Lemma checkGameCompletion_spec_witness :
  isGameComplete (checkGameCompletion filledGame) = true
  ∧ unitsArePermutations (grid filledGame).
Proof.
  assert (Hdone : isGameComplete (checkGameCompletion filledGame) = true)
    by (vm_compute; reflexivity).
  split; [exact Hdone|].
  refine (proj1 (proj1 (checkGameCompletion_spec filledGame eq_refl _)) Hdone).
  intros r c Hr Hc. pose proof (filled_sampleSolution r c Hr Hc) as Hf.
  simpl. lia.
Defined.

Lemma wf9_ninesBlanked : wf9 ninesBlanked.
Proof. split; [done|]. repeat constructor. Qed.

Lemma grantHint_spec_witness :
  ((∃ r c, (r < 9)%nat ∧ (c < 9)%nat ∧ get (grid sampleGame) r c = 0) →
     ∃ row col this',
       grantHint mulberry32 sampleGame = Some this'
       ∧ (row < 9)%nat ∧ (col < 9)%nat
       ∧ get (grid sampleGame) row col = 0
       ∧ grid this'
         = set (grid sampleGame) row col (get (solution sampleGame) row col)
       ∧ get (grid this') row col = get (solution sampleGame) row col
       ∧ NoEmptyCells ∉ drop (length (signals sampleGame)) (signals this'))
  ∧ (noZero (grid sampleGame) →
       grantHint mulberry32 sampleGame = Some (afterNoEmptyCells sampleGame)).
Proof.
  exact (grantHint_spec mulberry32 sampleGame mulberry32_range wf9_ninesBlanked).
Defined.

(** C7, counterexample: the hint writes the player grid.  With the source
    that always answers 0, the hint on [ninesBlanked] goes to the first
    empty cell, (0,8), which holds 0 before the call and 9 after it. *)
Lemma grantHint_writes_grid :
  ∃ this',
    grantHint stuckRandom
      (mkGame sampleSolution ninesBlanked ninesBlanked "easy" 0 false tt [])
    = Some this'
    ∧ get ninesBlanked 0 8 = 0
    ∧ get (grid this') 0 8 = 9.
Proof. eexists. split; [by vm_compute|]. by vm_compute. Qed.

Lemma grantHint_frame_witness :
  ∃ this',
    grantHint mulberry32 sampleGame = Some this'
    ∧ solution this' = solution sampleGame
    ∧ originalGrid this' = originalGrid sampleGame
    ∧ (noZero (grid sampleGame) → grid this' = grid sampleGame)
    ∧ (¬ noZero (grid sampleGame) →
         ∃ row col, (row < 9)%nat ∧ (col < 9)%nat
           ∧ get (grid sampleGame) row col = 0
           ∧ get (grid this') row col = get (solution sampleGame) row col
           ∧ ∀ r c, (r, c) ≠ (row, col) →
               get (grid this') r c = get (grid sampleGame) r c).
Proof.
  exact (grantHint_frame mulberry32 sampleGame mulberry32_range wf9_ninesBlanked).
Defined.

Lemma carveLoop_terminates_iff_witness :
  is_Some (carveLoop mulberry32 80 (cellsToRemoveOf "easy") sampleSolution 0 []
             seed20240101).
Proof.
  refine (proj2 (proj1 (carveLoop_terminates_iff mulberry32 sampleSolution "easy"
                          80 seed20240101 mulberry32_range wf9_sampleSolution
                          noZero_sampleSolution)) _).
  apply Nat.leb_le. vm_compute. reflexivity.
Defined.

(** A sort that leaves the array as it is and draws nothing. *)
Definition keepOrder (l : list Z) (s : Z) : list Z * Z := (l, s).

Lemma keepOrder_perm (l : list Z) (s : Z) : (keepOrder l s).1 ≡ₚ l.
Proof. done. Qed.

(** A game set to a difficulty the page does not offer. *)
Definition expertGame : Game Z := withDifficulty "expert" sampleGame.

Lemma generatePuzzle_other_difficulty_witness :
  ∃ this',
    generatePuzzle mulberry32 keepOrder 82 300 expertGame = Some this'
    ∧ countZeros (originalGrid this') = 60%nat
    ∧ grid this' = originalGrid this'
    ∧ difficulty this' = "expert".
Proof.
  pose proof (generatePuzzle_other_difficulty mulberry32 keepOrder "expert"
                mulberry32_range ltac:(discriminate) ltac:(discriminate))
    as (_ & _ & _ & Hruns & _).
  apply (Hruns 300%nat expertGame keepOrder_perm eq_refl).
  intros ok sol s1 Hgen. vm_compute in Hgen. injection Hgen as _ _ <-.
  apply Nat.leb_le. vm_compute. reflexivity.
Defined.

(** * Further properties of the engine *)

(** ** [generateSolution] as a solver of partial grids *)

Section Solver.

Context {R : Type} (sort_random : list Z → R → list Z * R).
Hypothesis sort_random_perm : ∀ l s, (sort_random l s).1 ≡ₚ l.

(** A successful search only fills cells that held 0. *)
Lemma tryNumbers_extends (recur : Grid → R → option (bool * Grid * R))
    (row col : nat) (numbers : list Z) (grid : Grid)
    (s : R) (g' : Grid) (s' : R) :
  (∀ g s g' s', recur g s = Some (false, g', s') → g' = g) →
  (∀ g s g' s', wf9 g → recur g s = Some (true, g', s') → extends g g') →
  wf9 grid → (row < 9)%nat → (col < 9)%nat → get grid row col = 0 →
  tryNumbers recur row col numbers grid s = Some (true, g', s') →
  extends grid g'.
Proof.
  intros Hfalse Htrue Hwf Hrow Hcol H0. revert s.
  induction numbers as [|num rest IH]; intros s; simpl; [done|].
  destruct (isValid grid row col num); [|by apply IH].
  destruct (recur (set grid row col num) s) as [[[[] g1] s1]|] eqn:Hr; [| |done].
  - intros [= <- <-]. apply Htrue in Hr; [|by apply wf9_set].
    intros r c Hr' Hc' Hnz.
    destruct (decide ((row, col) = (r, c))) as [[= <- <-]|Hne]; [done|].
    rewrite <- (Hr r c Hr' Hc'); rewrite get_set_ne by done; done.
  - apply Hfalse in Hr as ->. rewrite set_undo by done. by apply IH.
Qed.

Lemma generateSolution_extends (fuel : nat) (g : Grid) (s : R)
    (g' : Grid) (s' : R) :
  wf9 g →
  generateSolution sort_random fuel g s = Some (true, g', s') → extends g g'.
Proof.
  revert g s g' s'. induction fuel as [|fuel IH]; intros g s g' s' Hwf; simpl; [done|].
  destruct (firstEmpty g) as [[row col]|] eqn:Hfirst.
  - apply firstEmpty_Some in Hfirst as (Hrow & Hcol & H0).
    destruct (sort_random _ s) as [numbers s1].
    apply tryNumbers_extends; try done. apply generateSolution_false.
  - by intros [= <- <-] r c _ _ _.
Qed.

End Solver.

(** X1: on any 9x9 grid with cells in 0..9 and no value other than 0
    repeated in a row, column or box, [generateSolution] returns within 82
    levels of recursion; it answers [true] exactly when some solved grid
    agrees with the input on its filled cells; with [true] the grid it
    leaves is solved and keeps every filled cell of the input; with
    [false] it leaves the grid as it found it. *)
Theorem generateSolution_solver {R : Type}
    (sort_random : list Z → R → list Z * R) (g : Grid) (s : R) :
  (∀ l s, (sort_random l s).1 ≡ₚ l) →
  partialOK g →
  ∃ ok g' s',
    generateSolution sort_random 82 g s = Some (ok, g', s')
    ∧ (ok = true ↔ ∃ sol, solved sol ∧ extends g sol)
    ∧ (ok = true → solved g' ∧ extends g g')
    ∧ (ok = false → g' = g).
Proof.
  intros Hperm Hok. pose proof Hok as (Hwf & _ & _).
  destruct (generateSolution_is_Some sort_random Hperm 82 g s Hwf)
    as [[[ok g'] s'] Hrun].
  { pose proof (countZeros_le g). lia. }
  exists ok, g', s'. split; [done|]. destruct ok.
  - pose proof (generateSolution_true sort_random Hperm _ _ _ _ _ Hok Hrun) as Hs.
    pose proof (generateSolution_extends sort_random _ _ _ _ _ Hwf Hrun) as He.
    split; [|split; [done|done]]. split; [|done]. intros _. by exists g'.
  - split; [|split; [done|]].
    + split; [done|]. intros (sol & Hsol & Hext). exfalso. revert Hrun.
      by apply (generateSolution_not_false sort_random Hperm _ _ sol).
    + intros _. by apply (generateSolution_false sort_random _ _ _ _ _ Hrun).
Qed.

(** A consistent grid that no solved grid extends: the first row lacks
    only a 9 and the last column already holds one. *)
Definition deadEndGrid : Grid :=
  [ [1; 2; 3; 4; 5; 6; 7; 8; 0];
    [0; 0; 0; 0; 0; 0; 0; 0; 9];
    [0; 0; 0; 0; 0; 0; 0; 0; 0];
    [0; 0; 0; 0; 0; 0; 0; 0; 0];
    [0; 0; 0; 0; 0; 0; 0; 0; 0];
    [0; 0; 0; 0; 0; 0; 0; 0; 0];
    [0; 0; 0; 0; 0; 0; 0; 0; 0];
    [0; 0; 0; 0; 0; 0; 0; 0; 0];
    [0; 0; 0; 0; 0; 0; 0; 0; 0] ].

(** A boolean test of [partialOK], for concrete grids. *)
Definition sameUnitb (a b : nat * nat) : bool :=
  (a.1 =? b.1)%nat || (a.2 =? b.2)%nat
  || ((a.1 / 3 =? b.1 / 3)%nat && (a.2 / 3 =? b.2 / 3)%nat).

Definition partialOKb (g : Grid) : bool :=
  forallb (λ a, (0 <=? get g a.1 a.2) && (get g a.1 a.2 <=? 9)) cells
  && forallb (λ a, forallb (λ b,
       bool_decide (a = b) || negb (sameUnitb a b)
       || (get g a.1 a.2 =? 0) || negb (get g a.1 a.2 =? get g b.1 b.2))
       cells) cells.

Lemma partialOKb_true (g : Grid) : wf9 g → partialOKb g = true → partialOK g.
Proof.
  intros Hwf [Hrange Hdist]%andb_true_iff. rewrite forallb_forall in Hrange, Hdist.
  split; [done|]. split.
  - intros r c Hr Hc.
    assert (Hin : In (r, c) cells) by (by apply list_elem_of_In, elem_of_cells).
    apply Hrange in Hin. simpl in Hin. lia.
  - intros r c r' c' Hr Hc Hr' Hc' Hne Hunit Hnz Heq.
    assert (Ha : In (r, c) cells) by (by apply list_elem_of_In, elem_of_cells).
    assert (Hb : In (r', c') cells) by (by apply list_elem_of_In, elem_of_cells).
    specialize (Hdist _ Ha). rewrite forallb_forall in Hdist.
    specialize (Hdist _ Hb). simpl in Hdist.
    rewrite !orb_true_iff in Hdist. destruct Hdist as [[[Hd|Hd]|Hd]|Hd].
    + by apply bool_decide_eq_true in Hd.
    + apply negb_true_iff, not_true_iff_false in Hd. apply Hd.
      unfold sameUnitb. cbn [fst snd]. destruct Hunit as [->|[->|[H1 H2]]].
      * by rewrite Nat.eqb_refl.
      * by rewrite Nat.eqb_refl, orb_true_r.
      * rewrite H1, H2, !Nat.eqb_refl. by rewrite orb_true_r.
    + by apply Z.eqb_eq in Hd.
    + by apply negb_true_iff, Z.eqb_neq in Hd.
Qed.

Lemma wf9_deadEndGrid : wf9 deadEndGrid.
Proof. split; [done|]. repeat constructor. Qed.

Lemma generateSolution_solver_witness :
  ∃ ok g' s',
    generateSolution rotatingSort 82 deadEndGrid 0%nat = Some (ok, g', s')
    ∧ (ok = true ↔ ∃ sol, solved sol ∧ extends deadEndGrid sol)
    ∧ (ok = true → solved g' ∧ extends deadEndGrid g')
    ∧ (ok = false → g' = deadEndGrid).
Proof.
  refine (generateSolution_solver rotatingSort deadEndGrid 0%nat
            rotatingSort_perm _).
  apply partialOKb_true; [apply wf9_deadEndGrid|]. vm_compute. reflexivity.
Defined.

Example generateSolution_deadEnd :
  generateSolution rotatingSort 82 deadEndGrid 0%nat
  = Some (false, deadEndGrid, 1%nat).
Proof. by vm_compute. Qed.

(** ** [isValid] against [isCellConflicting] *)

(** X2: the placement test of the generator and the conflict test of the
    validator agree: on a 9x9 grid, for a value other than 0 that the cell
    does not already hold, [isValid] accepts the value for the cell
    exactly when the cell, once it holds the value, is not conflicting. *)
Theorem isValid_iff_not_conflicting (g : Grid) (row col : nat) (num : Z) :
  wf9 g → (row < 9)%nat → (col < 9)%nat → num ≠ 0 → get g row col ≠ num →
  isValid g row col num = true
  ↔ isCellConflicting (set g row col num) row col = false.
Proof.
  intros Hwf Hrow Hcol Hnum Hown.
  rewrite (isValid_true g row col num Hrow Hcol), <- not_true_iff_false,
    (isCellConflicting_true _ row col Hrow Hcol), get_set_eq by done.
  split.
  - intros Hall [_ (r' & c' & Hr' & Hc' & Hne & Hunit & Heq)].
    rewrite get_set_ne, get_set_eq in Heq by (done || congruence).
    by apply (Hall r' c').
  - intros Hno r' c' Hr' Hc' Hunit Heq. apply Hno. split; [done|].
    exists r', c'. split; [done|]. split; [done|]. split; [congruence|].
    split; [done|]. rewrite get_set_eq by done.
    rewrite get_set_ne; [done|]. congruence.
Qed.

Lemma isValid_iff_not_conflicting_witness :
  isValid ninesBlanked 0 8 9 = true
  ↔ isCellConflicting (set ninesBlanked 0 8 9) 0 8 = false.
Proof.
  refine (isValid_iff_not_conflicting ninesBlanked 0 8 9 wf9_ninesBlanked _ _ _ _);
    [lia|lia|discriminate|discriminate].
Defined.

(** ** [isNumberComplete] (sudoku.js 505-555, part_000 2738-2788)

    The function with which [updateNumberButtonStates] decides, for each
    of 1..9, whether to disable the button of the number. *)

(** The counting loop. *)
Definition countNumber (g : Grid) (num : Z) : nat :=
  foldl (λ count rc, if get g rc.1 rc.2 =? num then S count else count)
    0%nat cells.

(** The three checks made for one cell holding [num]. *)
Definition numberClashes (g : Grid) (row col : nat) (num : Z) : bool :=
  existsb (λ i, negb (i =? col)%nat && (get g row i =? num)) idx9
  || existsb (λ i, negb (i =? row)%nat && (get g i col =? num)) idx9
  || (let boxRow := boxStart row in
      let boxCol := boxStart col in
      existsb (λ i,
        existsb (λ j,
          (negb (i =? row)%nat || negb (j =? col)%nat)
          && (get g i j =? num)) (seq boxCol 3)) (seq boxRow 3)).

Definition isNumberComplete (g : Grid) (num : Z) : bool :=
  if (countNumber g num =? 9)%nat then
    forallb (λ rc,
      if get g rc.1 rc.2 =? num then negb (numberClashes g rc.1 rc.2 num)
      else true) cells
  else false.

(** How often [num] occurs in a list of cell values. *)
Definition occurs (num : Z) (l : list Z) : nat :=
  length (filter (λ x, x = num) l).

(** [num] occurs exactly once in every row, column and box. *)
Definition onceInEveryUnit (g : Grid) (num : Z) : Prop :=
  (∀ row, (row < 9)%nat → occurs num (rowOf g row) = 1%nat)
  ∧ (∀ col, (col < 9)%nat → occurs num (colOf g col) = 1%nat)
  ∧ (∀ bi bj, (bi < 3)%nat → (bj < 3)%nat →
       occurs num (boxOf g (3 * bi) (3 * bj)) = 1%nat).

(** The cell at [rc] holds [num]. *)
Definition holdsNum (g : Grid) (num : Z) (rc : nat * nat) : Prop :=
  get g rc.1 rc.2 = num.

#[global] Instance holdsNum_dec (g : Grid) (num : Z) (rc : nat * nat) :
  Decision (holdsNum g num rc).
Proof. unfold holdsNum. apply _. Defined.

Section Counting.

Context (g : Grid) (num : Z).

Abbreviation holds := (holdsNum g num).

Lemma countNumber_filter : countNumber g num = length (filter holds cells).
Proof.
  unfold countNumber.
  assert (Hgen : ∀ l n,
    foldl (λ count rc, if get g rc.1 rc.2 =? num then S count else count) n l
    = (n + length (filter holds l))%nat).
  { induction l as [|rc l IH]; intros n; simpl; [lia|].
    rewrite IH, filter_cons. unfold holdsNum at 2.
    destruct (Z.eqb_spec (get g rc.1 rc.2) num); destruct (decide _);
      simpl; try done; lia. }
  by rewrite Hgen.
Qed.

Lemma occurs_fmap (u : list (nat * nat)) :
  occurs num ((λ rc, get g rc.1 rc.2) <$> u) = length (filter holds u).
Proof.
  unfold occurs. induction u as [|rc u IH]; [done|].
  rewrite fmap_cons, !filter_cons. unfold holdsNum at 1.
  repeat case_decide; simpl; try done; by rewrite IH.
Qed.

Lemma numberClashes_true (row col : nat) :
  (row < 9)%nat → (col < 9)%nat →
  numberClashes g row col num = true
  ↔ ∃ r' c', (r' < 9)%nat ∧ (c' < 9)%nat ∧ (r', c') ≠ (row, col)
             ∧ sameUnit row col r' c' ∧ get g r' c' = num.
Proof.
  intros Hrow Hcol. unfold numberClashes.
  rewrite !orb_true_iff, !existsb_exists. split.
  - intros [[(i & Hi%in_idx9 & [Hne%negb_true_iff%Nat.eqb_neq Heq%Z.eqb_eq]%andb_true_iff)
            |(i & Hi%in_idx9 & [Hne%negb_true_iff%Nat.eqb_neq Heq%Z.eqb_eq]%andb_true_iff)]
            |(i & Hi%in_box_seq & Hbox)].
    + exists row, i. unfold sameUnit. repeat split; auto. congruence.
    + exists i, col. unfold sameUnit. repeat split; auto. congruence.
    + apply existsb_exists in Hbox
        as (j & Hj%in_box_seq & [Hne Heq%Z.eqb_eq]%andb_true_iff).
      exists i, j. repeat split; eauto using box_lt9.
      * intros [= -> ->]. rewrite !Nat.eqb_refl in Hne. done.
      * unfold sameUnit. auto.
  - intros (r' & c' & Hr' & Hc' & Hne & Hunit & Heq).
    destruct (decide (r' = row)) as [->|Hr].
    { left. left. exists c'. split; [by apply in_idx9|].
      apply andb_true_iff. split; [|by apply Z.eqb_eq].
      apply negb_true_iff, Nat.eqb_neq. congruence. }
    destruct (decide (c' = col)) as [->|Hc].
    { left. right. exists r'. split; [by apply in_idx9|].
      apply andb_true_iff. split; [|by apply Z.eqb_eq].
      by apply negb_true_iff, Nat.eqb_neq. }
    destruct Hunit as [?|[?|[Hbr Hbc]]]; [congruence..|].
    right. exists r'. split; [by apply in_box_seq|].
    apply existsb_exists. exists c'. split; [by apply in_box_seq|].
    apply andb_true_iff. split; [|by apply Z.eqb_eq].
    apply orb_true_iff. left. by apply negb_true_iff, Nat.eqb_neq.
Qed.

(** No two distinct cells of one unit both hold [num]. *)
Definition noClash : Prop :=
  ∀ r c r' c', (r < 9)%nat → (c < 9)%nat → (r' < 9)%nat → (c' < 9)%nat →
    (r, c) ≠ (r', c') → sameUnit r c r' c' →
    get g r c = num → get g r' c' ≠ num.

Lemma isNumberComplete_true :
  isNumberComplete g num = true
  ↔ length (filter holds cells) = 9%nat ∧ noClash.
Proof.
  unfold isNumberComplete. rewrite countNumber_filter.
  destruct (Nat.eqb_spec (length (filter holds cells)) 9) as [Hn|Hn];
    [|split; [done|tauto]].
  rewrite forallb_forall. split.
  - intros Hall. split; [done|].
    intros r c r' c' Hr Hc Hr' Hc' Hne Hunit Heq Heq'.
    assert (Hin : In (r, c) cells) by (by apply list_elem_of_In, elem_of_cells).
    specialize (Hall _ Hin). simpl in Hall.
    rewrite (proj2 (Z.eqb_eq _ _) Heq) in Hall.
    apply negb_true_iff, not_true_iff_false in Hall. apply Hall.
    apply numberClashes_true; [done..|]. exists r', c'.
    repeat split; auto.
  - intros [_ Hno] [r c] [Hr Hc]%list_elem_of_In%elem_of_cells. simpl.
    destruct (Z.eqb_spec (get g r c) num) as [Heq|]; [|done].
    apply negb_true_iff, not_true_iff_false.
    intros (r' & c' & Hr' & Hc' & Hne & Hunit & Heq')%numberClashes_true;
      [|done..].
    by apply (Hno r c r' c').
Qed.

End Counting.

(** The coordinates of a row and of a column, and the three ways to cut
    the 81 cells into nine units. *)
Definition rowCells (row : nat) : list (nat * nat) := (λ col, (row, col)) <$> idx9.
Definition colCells (col : nat) : list (nat * nat) := (λ row, (row, col)) <$> idx9.

Definition rowFamily : list (list (nat * nat)) := rowCells <$> idx9.
Definition colFamily : list (list (nat * nat)) := colCells <$> idx9.
Definition boxFamily : list (list (nat * nat)) :=
  bi ← seq 0 3; bj ← seq 0 3; [boxCells (3 * bi) (3 * bj)].

Lemma rowOf_rowCells (g : Grid) (row : nat) :
  rowOf g row = (λ rc, get g rc.1 rc.2) <$> rowCells row.
Proof. unfold rowOf, rowCells. by rewrite <- list_fmap_compose. Qed.

Lemma colOf_colCells (g : Grid) (col : nat) :
  colOf g col = (λ rc, get g rc.1 rc.2) <$> colCells col.
Proof. unfold colOf, colCells. by rewrite <- list_fmap_compose. Qed.

(** A family cuts the cells into nine units: together its members are
    the 81 cells, no member lists a cell twice, and the cells of a member
    share a row, a column or a box. *)
Definition familyOK (F : list (list (nat * nat))) : Prop :=
  concat F ≡ₚ cells
  ∧ length F = 9%nat
  ∧ Forall (λ u, NoDup u
                 ∧ ∀ a b, a ∈ u → b ∈ u → sameUnit a.1 a.2 b.1 b.2) F.

Definition familyOKb (F : list (list (nat * nat))) : bool :=
  bool_decide (NoDup (concat F))
  && forallb (λ a, bool_decide (a ∈ cells)) (concat F)
  && (length (concat F) =? 81)%nat
  && (length F =? 9)%nat
  && forallb (λ u, bool_decide (NoDup u)
                   && forallb (λ a, forallb (λ b, sameUnitb a b) u) u) F.

Lemma sameUnitb_true (a b : nat * nat) :
  sameUnitb a b = true → sameUnit a.1 a.2 b.1 b.2.
Proof.
  unfold sameUnitb, sameUnit.
  rewrite !orb_true_iff, andb_true_iff, !Nat.eqb_eq. tauto.
Qed.

Lemma familyOKb_true (F : list (list (nat * nat))) :
  familyOKb F = true → familyOK F.
Proof.
  unfold familyOKb. rewrite !andb_true_iff.
  intros [[[[Hnd%bool_decide_eq_true Hsub] Hlen%Nat.eqb_eq] H9%Nat.eqb_eq] Hunits].
  split; [|split; [done|]].
  - apply submseteq_length_Permutation.
    + apply NoDup_submseteq; [done|]. intros x Hx%list_elem_of_In.
      rewrite forallb_forall in Hsub.
      by apply (bool_decide_unpack _), Is_true_true, Hsub.
    + by rewrite Hlen.
  - apply Forall_forall. intros u Hu%list_elem_of_In.
    rewrite forallb_forall in Hunits. specialize (Hunits u Hu).
    apply andb_true_iff in Hunits as [Hn%bool_decide_eq_true Hpairs].
    split; [done|]. intros a b Ha%list_elem_of_In Hb%list_elem_of_In.
    rewrite forallb_forall in Hpairs. specialize (Hpairs a Ha).
    rewrite forallb_forall in Hpairs. by apply sameUnitb_true, Hpairs.
Qed.

Lemma rowFamily_OK : familyOK rowFamily.
Proof. apply familyOKb_true. by vm_compute. Qed.

Lemma colFamily_OK : familyOK colFamily.
Proof. apply familyOKb_true. by vm_compute. Qed.

Lemma boxFamily_OK : familyOK boxFamily.
Proof. apply familyOKb_true. by vm_compute. Qed.

Lemma length_le_1_of_distinct {A : Type} (l : list A) :
  NoDup l → (∀ x y, x ∈ l → y ∈ l → x = y) → (length l ≤ 1)%nat.
Proof.
  intros Hnd Hall. destruct l as [|x [|y l]]; simpl; [lia..|]. exfalso.
  apply NoDup_cons in Hnd as [Hx _]. apply Hx.
  rewrite (Hall x y); [by left|by left|by right; left].
Qed.

Lemma length_ge_2_of_two {A : Type} (l : list A) (x y : A) :
  x ∈ l → y ∈ l → x ≠ y → (2 ≤ length l)%nat.
Proof.
  intros Hx Hy Hne. destruct l as [|a [|b l]]; simpl; [|exfalso|lia].
  - by apply elem_of_nil in Hx.
  - apply list_elem_of_singleton in Hx, Hy. congruence.
Qed.

Lemma sum_all_ones (ns : list nat) :
  Forall (λ n, (n ≤ 1)%nat) ns → sum_list ns = length ns →
  Forall (λ n, n = 1%nat) ns.
Proof.
  induction 1 as [|n ns Hn Hall IH]; simpl; intros Hsum; [constructor|].
  assert (Hle : (sum_list ns ≤ length ns)%nat).
  { clear -Hall. induction Hall; simpl; lia. }
  constructor; [lia|]. apply IH. lia.
Qed.

Lemma filter_concat_length {A : Type} (P : A → Prop) `{!∀ x, Decision (P x)}
    (F : list (list A)) :
  length (filter P (concat F)) = sum_list ((λ u, length (filter P u)) <$> F).
Proof.
  induction F as [|u F IH]; simpl; [done|].
  by rewrite filter_app, length_app, IH.
Qed.

Section Pigeonhole.

Context (g : Grid) (num : Z).

Abbreviation holds := (holdsNum g num).

Lemma family_counts (F : list (list (nat * nat))) :
  familyOK F →
  sum_list ((λ u, length (filter holds u)) <$> F)
  = length (filter holds cells).
Proof. intros (Hperm & _ & _). by rewrite <- filter_concat_length, Hperm. Qed.

(** Nine cells hold [num] and no unit holds it twice: each unit of a
    family holds it once. *)
Lemma family_once (F : list (list (nat * nat))) :
  familyOK F → length (filter holds cells) = 9%nat → noClash g num →
  Forall (λ u, length (filter holds u) = 1%nat) F.
Proof.
  intros HF Hcount Hno. pose proof (family_counts F HF) as Hsum.
  destruct HF as (Hperm & Hlen & Hunits).
  assert (Hones : Forall (λ n, n = 1%nat) ((λ u, length (filter holds u)) <$> F)).
  { apply sum_all_ones; [|by rewrite Hsum, length_fmap, Hlen].
    apply Forall_fmap. apply Forall_forall. intros u Hu. simpl.
    rewrite Forall_forall in Hunits. destruct (Hunits u Hu) as [Hnd Hsame].
    apply length_le_1_of_distinct; [by apply NoDup_filter|].
    intros [r c] [r' c'] [Ha Hina]%list_elem_of_filter [Hb Hinb]%list_elem_of_filter.
    destruct (decide ((r, c) = (r', c'))) as [|Hne]; [done|]. exfalso.
    assert (Hca : (r, c) ∈ cells).
    { rewrite <- Hperm. apply list_elem_of_In, in_concat.
      exists u. split; by apply list_elem_of_In. }
    assert (Hcb : (r', c') ∈ cells).
    { rewrite <- Hperm. apply list_elem_of_In, in_concat.
      exists u. split; by apply list_elem_of_In. }
    apply elem_of_cells in Hca as [Hr Hc], Hcb as [Hr' Hc'].
    by apply (Hno r c r' c' Hr Hc Hr' Hc' Hne (Hsame _ _ Hina Hinb) Ha). }
  by apply Forall_fmap in Hones.
Qed.

End Pigeonhole.

Lemma elem_of_rowCells (row r c : nat) :
  (r, c) ∈ rowCells row ↔ r = row ∧ (c < 9)%nat.
Proof.
  unfold rowCells. rewrite list_elem_of_fmap. split.
  - intros (c' & [= -> ->] & Hc%elem_of_idx9). done.
  - intros [-> Hc]. exists c. by rewrite elem_of_idx9.
Qed.

Lemma elem_of_colCells (col r c : nat) :
  (r, c) ∈ colCells col ↔ c = col ∧ (r < 9)%nat.
Proof.
  unfold colCells. rewrite list_elem_of_fmap. split.
  - intros (r' & [= -> ->] & Hr%elem_of_idx9). done.
  - intros [-> Hr]. exists r. by rewrite elem_of_idx9.
Qed.

Lemma elem_of_boxFamily (bi bj : nat) :
  (bi < 3)%nat → (bj < 3)%nat → boxCells (3 * bi) (3 * bj) ∈ boxFamily.
Proof.
  intros Hbi Hbj. unfold boxFamily. apply list_elem_of_bind. exists bi.
  split; [|apply elem_of_seq; lia].
  apply list_elem_of_bind. exists bj.
  split; [by apply list_elem_of_singleton|apply elem_of_seq; lia].
Qed.

Lemma onceInEveryUnit_families (g : Grid) (num : Z) :
  onceInEveryUnit g num
  ↔ Forall (λ u, length (filter (holdsNum g num) u) = 1%nat) rowFamily
    ∧ Forall (λ u, length (filter (holdsNum g num) u) = 1%nat) colFamily
    ∧ Forall (λ u, length (filter (holdsNum g num) u) = 1%nat) boxFamily.
Proof.
  unfold onceInEveryUnit, rowFamily, colFamily.
  rewrite !Forall_fmap, !Forall_forall. split.
  - intros (Hrows & Hcols & Hboxes). repeat split.
    + intros row Hrow%elem_of_idx9. simpl.
      rewrite <- occurs_fmap, <- rowOf_rowCells. by apply Hrows.
    + intros col Hcol%elem_of_idx9. simpl.
      rewrite <- occurs_fmap, <- colOf_colCells. by apply Hcols.
    + intros u (bi & (bj & ->%list_elem_of_singleton & Hbj%elem_of_seq)%list_elem_of_bind
                   & Hbi%elem_of_seq)%list_elem_of_bind.
      rewrite <- occurs_fmap, <- boxOf_boxCells. apply Hboxes; lia.
  - intros (Hrows & Hcols & Hboxes). repeat split.
    + intros row Hrow%elem_of_idx9.
      rewrite rowOf_rowCells, occurs_fmap. by apply (Hrows row).
    + intros col Hcol%elem_of_idx9.
      rewrite colOf_colCells, occurs_fmap. by apply (Hcols col).
    + intros bi bj Hbi Hbj. rewrite boxOf_boxCells, occurs_fmap.
      by apply Hboxes, elem_of_boxFamily.
Qed.

Lemma isNumberComplete_onceInEveryUnit (g : Grid) (num : Z) :
  isNumberComplete g num = true ↔ onceInEveryUnit g num.
Proof.
  rewrite isNumberComplete_true, onceInEveryUnit_families. split.
  - intros [Hcount Hno]. repeat split; apply family_once;
      auto using rowFamily_OK, colFamily_OK, boxFamily_OK.
  - intros (Hrows & Hcols & Hboxes). split.
    + rewrite <- (family_counts g num rowFamily rowFamily_OK).
      rewrite (sum_list_fmap_same 1 rowFamily); [done|done].
    + intros r c r' c' Hr Hc Hr' Hc' Hne Hunit Ha Hb.
      assert (Htwo : ∀ u, (r, c) ∈ u → (r', c') ∈ u →
                (2 ≤ length (filter (holdsNum g num) u))%nat).
      { intros u Hu Hu'. apply (length_ge_2_of_two _ (r, c) (r', c')); [| |done];
          by apply list_elem_of_filter. }
      rewrite !Forall_forall in Hrows, Hcols, Hboxes.
      destruct Hunit as [<-|[<-|[Hbr Hbc]]].
      * specialize (Hrows (rowCells r)). specialize (Htwo (rowCells r)).
        rewrite !elem_of_rowCells in Htwo. unfold rowFamily in Hrows.
        rewrite list_elem_of_fmap in Hrows.
        assert (Hone : length (filter (holdsNum g num) (rowCells r)) = 1%nat).
        { apply Hrows. exists r. by rewrite elem_of_idx9. }
        specialize (Htwo (conj eq_refl Hc) (conj eq_refl Hc')). lia.
      * specialize (Hcols (colCells c)). specialize (Htwo (colCells c)).
        rewrite !elem_of_colCells in Htwo. unfold colFamily in Hcols.
        rewrite list_elem_of_fmap in Hcols.
        assert (Hone : length (filter (holdsNum g num) (colCells c)) = 1%nat).
        { apply Hcols. exists c. by rewrite elem_of_idx9. }
        specialize (Htwo (conj eq_refl Hr) (conj eq_refl Hr')). lia.
      * assert (Hbi : (r / 3 < 3)%nat) by (apply Nat.Div0.div_lt_upper_bound; lia).
        assert (Hbj : (c / 3 < 3)%nat) by (apply Nat.Div0.div_lt_upper_bound; lia).
        pose proof (Hboxes _ (elem_of_boxFamily _ _ Hbi Hbj)) as Hone.
        specialize (Htwo (boxCells (3 * (r / 3)) (3 * (c / 3)))).
        rewrite !elem_of_boxCells in Htwo.
        pose proof (Nat.div_mod_eq r 3). pose proof (Nat.mod_upper_bound r 3).
        pose proof (Nat.div_mod_eq c 3). pose proof (Nat.mod_upper_bound c 3).
        pose proof (Nat.div_mod_eq r' 3). pose proof (Nat.mod_upper_bound r' 3).
        pose proof (Nat.div_mod_eq c' 3). pose proof (Nat.mod_upper_bound c' 3).
        assert (2 ≤ length (filter (holdsNum g num)
                      (boxCells (3 * (r / 3)) (3 * (c / 3)))))%nat
          by (apply Htwo; lia).
        lia.
Qed.

(** X3: [isNumberComplete] is true of a number exactly when the number
    occurs exactly once in every row, every column and every 3x3 box of
    the grid (so nine times in all). *)
Theorem isNumberComplete_spec (g : Grid) (num : Z) :
  isNumberComplete g num = true
  ↔ (∀ row, (row < 9)%nat → occurs num (rowOf g row) = 1%nat)
    ∧ (∀ col, (col < 9)%nat → occurs num (colOf g col) = 1%nat)
    ∧ (∀ bi bj, (bi < 3)%nat → (bj < 3)%nat →
         occurs num (boxOf g (3 * bi) (3 * bj)) = 1%nat).
Proof. apply isNumberComplete_onceInEveryUnit. Qed.

(** X4: [isNumberComplete] is true of each of 1..9 (so that
    [updateNumberButtonStates] disables all nine number buttons) exactly
    when every row, every column and every 3x3 box of the grid is a
    permutation of 1..9. *)
Theorem all_numbers_complete_iff_solved (g : Grid) :
  (∀ num, 1 ≤ num ≤ 9 → isNumberComplete g num = true)
  ↔ unitsArePermutations g.
Proof.
  assert (Hd : NoDup digits) by (apply (bool_decide_unpack _); by vm_compute).
  assert (Hin : ∀ num, num ∈ digits ↔ 1 ≤ num ≤ 9).
  { intros num. unfold digits. rewrite !elem_of_cons, elem_of_nil. lia. }
  assert (Hto : ∀ l, length l = 9%nat →
            (∀ num, 1 ≤ num ≤ 9 → occurs num l = 1%nat) → l ≡ₚ digits).
  { intros l Hlen Hocc. symmetry. apply submseteq_length_Permutation; [|by rewrite Hlen].
    apply NoDup_submseteq; [done|]. intros num Hnum%Hin.
    specialize (Hocc num Hnum). unfold occurs in Hocc.
    destruct (filter (λ x, x = num) l) as [|x rest] eqn:Hf; [done|].
    assert (Hx : x ∈ filter (λ x, x = num) l) by (rewrite Hf; by left).
    apply list_elem_of_filter in Hx as [-> Hx]. done. }
  assert (Hfrom : ∀ l num, l ≡ₚ digits → 1 ≤ num ≤ 9 → occurs num l = 1%nat).
  { intros l num Hperm Hnum. unfold occurs. rewrite Hperm.
    assert (Hcases : num = 1 ∨ num = 2 ∨ num = 3 ∨ num = 4 ∨ num = 5
                     ∨ num = 6 ∨ num = 7 ∨ num = 8 ∨ num = 9) by lia.
    by repeat destruct Hcases as [->|Hcases]; [..|subst num]. }
  split.
  - intros Hall. repeat split.
    + intros row Hrow. apply Hto; [done|]. intros num Hnum.
      by apply (proj1 (isNumberComplete_onceInEveryUnit g num) (Hall num Hnum)).
    + intros col Hcol. apply Hto; [done|]. intros num Hnum.
      by apply (proj1 (isNumberComplete_onceInEveryUnit g num) (Hall num Hnum)).
    + intros bi bj Hbi Hbj. apply Hto; [done|]. intros num Hnum.
      by apply (proj1 (isNumberComplete_onceInEveryUnit g num) (Hall num Hnum)).
  - intros (Hrows & Hcols & Hboxes) num Hnum.
    apply isNumberComplete_onceInEveryUnit. repeat split.
    + intros row Hrow. by apply Hfrom; [apply Hrows|].
    + intros col Hcol. by apply Hfrom; [apply Hcols|].
    + intros bi bj Hbi Hbj. by apply Hfrom; [apply Hboxes|].
Qed.

(** ** [updateCellStyles] (sudoku.js 425-487, part_000 2658-2720)

    The classes the function leaves on the cell at [(row, col)]; it first
    removes all three, and adding a class twice adds it once. *)
Record CellStyle : Type := mkCellStyle {
  selectedClass : bool;
  relatedClass : bool;
  conflictClass : bool
}.

Definition cellStyle (grid : Grid) (selectedCell : option (nat * nat))
    (row col : nat) : CellStyle :=
  let isSelected :=
    match selectedCell with
    | Some (srow, scol) => (row =? srow)%nat && (col =? scol)%nat
    | None => false
    end in
  let related :=
    if isSelected then false
    else match selectedCell with
         | Some (srow, scol) =>
             ((row =? srow)%nat || (col =? scol)%nat)
             || ((row / 3 =? srow / 3)%nat && (col / 3 =? scol / 3)%nat)
         | None => false
         end in
  let cellValue := get grid row col in
  let conflict :=
    if negb (cellValue =? 0) then
      existsb (λ i, negb (i =? col)%nat && (get grid row i =? cellValue)) idx9
      || existsb (λ i, negb (i =? row)%nat && (get grid i col =? cellValue)) idx9
      || (let boxRow := boxStart row in
          let boxCol := boxStart col in
          existsb (λ i,
            existsb (λ j,
              (negb (i =? row)%nat || negb (j =? col)%nat)
              && (get grid i j =? cellValue)) (seq boxCol 3)) (seq boxRow 3))
    else false in
  mkCellStyle isSelected related conflict.

Lemma existsb_orb {A : Type} (f h : A → bool) (l : list A) :
  existsb (λ x, f x || h x) l = existsb f l || existsb h l.
Proof.
  induction l as [|x l IH]; simpl; [done|]. rewrite IH.
  destruct (f x), (h x), (existsb f l), (existsb h l); done.
Qed.

(** X5: the styling agrees with the validator and marks the peers of
    the selection.  The cell gets the class 'conflict' exactly when
    [isCellConflicting] is true of it; it gets 'selected' exactly when it
    is the selected cell, and 'related' exactly when a cell is selected,
    it is another cell, and it shares a row, a column or a box with it. *)
Theorem cellStyle_spec (grid : Grid) (selectedCell : option (nat * nat))
    (row col : nat) :
  conflictClass (cellStyle grid selectedCell row col)
    = isCellConflicting grid row col
  ∧ (selectedClass (cellStyle grid selectedCell row col) = true
       ↔ selectedCell = Some (row, col))
  ∧ (relatedClass (cellStyle grid selectedCell row col) = true
       ↔ ∃ srow scol, selectedCell = Some (srow, scol)
           ∧ (row, col) ≠ (srow, scol) ∧ sameUnit row col srow scol).
Proof.
  split; [|split].
  - unfold cellStyle, isCellConflicting. cbn [conflictClass].
    destruct (get grid row col =? 0); cbn [negb]; cbv iota; [done|].
    rewrite existsb_orb.
    destruct (existsb _ idx9), (existsb _ idx9); done.
  - unfold cellStyle. simpl. destruct selectedCell as [[srow scol]|]; [|done].
    rewrite andb_true_iff, !Nat.eqb_eq. split; [by intros [-> ->]|].
    by intros [= -> ->].
  - unfold cellStyle. simpl. destruct selectedCell as [[srow scol]|].
    + destruct (Nat.eqb_spec row srow) as [->|Hr];
        destruct (Nat.eqb_spec col scol) as [->|Hc]; simpl.
      * split; [done|]. by intros (? & ? & [= <- <-] & Hne & _).
      * split; [intros _|done]. exists srow, scol.
        split; [done|]. split; [congruence|]. by left.
      * split; [intros _|done]. exists srow, scol.
        split; [done|]. split; [congruence|]. right. by left.
      * rewrite andb_true_iff, !Nat.eqb_eq. split.
        -- intros Hbox. exists srow, scol. split; [done|]. split; [congruence|].
           right. by right.
        -- intros (? & ? & [= <- <-] & _ & [?|[?|?]]); done.
    + split; [done|]. by intros (? & ? & [=] & _).
Qed.

(** * The game operations of sudoku.js *)

(** [g[row] ? g[row][col] : 0], with [None] for [undefined]: the guard
    answers 0 for a missing row (both grids are [[]] before the first
    game); a row that is there is read at [col]. *)
Definition rowCellOr0 (g : Grid) (row col : nat) : option Z :=
  match g !! row with
  | Some line => line !! col
  | None => Some 0
  end.

(** [hasUserProgress] (sudoku.js 82-92, part_000 2095-2105) *)
Definition hasUserProgress {R : Type} (this : Game R) : bool :=
  existsb (λ rc,
    let orig := rowCellOr0 (originalGrid this) rc.1 rc.2 in
    let cur := rowCellOr0 (grid this) rc.1 rc.2 in
    negb (bool_decide (orig = cur)) && negb (bool_decide (cur = Some 0)))
    cells.

(** [resetGame] (sudoku.js 205-208) *)
Definition resetGame {R : Type} (this : Game R) : Game R :=
  mkGame (solution this) (originalGrid this) (originalGrid this)
    (difficulty this) (hintsUsed this) (isGameComplete this) (rng this)
    (signals this).

(** [solveGame] (sudoku.js 612-618) *)
Definition solveGame {R : Type} (this : Game R) : Game R :=
  mkGame (solution this) (solution this) (originalGrid this)
    (difficulty this) (hintsUsed this) true (rng this)
    (signals this ++ [CompletionModal]).

(** [startNewGame] (sudoku.js 179-203), the timer and the page apart. *)
Definition startNewGame {R : Type} (random : R → Q * R)
    (sort_random : list Z → R → list Z * R) (fuelSolve fuelCarve : nat)
    (this : Game R) : option (Game R) :=
  generatePuzzle random sort_random fuelSolve fuelCarve
    (mkGame (solution this) (grid this) (originalGrid this) (difficulty this)
       0 false (rng this) (signals this)).

(** A [value] that passes [/^[1-9]$/], with its [parseInt]. *)
Definition digitOf (value : string) : option Z :=
  match value with
  | String ch EmptyString =>
      let code := Z.of_N (Ascii.N_of_ascii ch) in
      if (49 <=? code) && (code <=? 57) then Some (code - 48) else None
  | _ => None
  end.

Definition withGrid {R : Type} (g : Grid) (this : Game R) : Game R :=
  mkGame (solution this) g (originalGrid this) (difficulty this)
    (hintsUsed this) (isGameComplete this) (rng this) (signals this).

(** [handleCellInput] (sudoku.js 335-349), with [value] the text of the
    input field.  A rejected text empties the field and returns. *)
Definition handleCellInput {R : Type} (value : string) (row col : nat)
    (this : Game R) : Game R :=
  if String.eqb value "" then
    checkGameCompletion (withGrid (set (grid this) row col 0) this)
  else
    match digitOf value with
    | Some d => checkGameCompletion (withGrid (set (grid this) row col d) this)
    | None => this
    end.

(** [focusCell] (sudoku.js 380-387): the cell whose input field gets the
    focus, if any. *)
Definition focusCell {R : Type} (this : Game R) (row col : nat)
    : option (nat * nat) :=
  if get (originalGrid this) row col =? 0 then Some (row, col) else None.

(** [handleKeyDown] (sudoku.js 351-373), with [key] the value of [e.key]:
    the game after the key and the cell that gets the focus. *)
Definition handleKeyDown {R : Type} (key : string) (rowNum colNum : nat)
    (this : Game R) : Game R * option (nat * nat) :=
  if String.eqb key "ArrowUp" && (0 <? rowNum)%nat then
    (this, focusCell this (rowNum - 1) colNum)
  else if String.eqb key "ArrowDown" && (rowNum <? 8)%nat then
    (this, focusCell this (rowNum + 1) colNum)
  else if String.eqb key "ArrowLeft" && (0 <? colNum)%nat then
    (this, focusCell this rowNum (colNum - 1))
  else if String.eqb key "ArrowRight" && (colNum <? 8)%nat then
    (this, focusCell this rowNum (colNum + 1))
  else if String.eqb key "Backspace" || String.eqb key "Delete" then
    (withGrid (set (grid this) rowNum colNum 0) this, None)
  else (this, None).

(** ** What the operations keep *)

Lemma grid_ext (g h : Grid) :
  wf9 g → wf9 h →
  (∀ r c, (r < 9)%nat → (c < 9)%nat → get g r c = get h r c) → g = h.
Proof.
  intros [Hg Hgl] [Hh Hhl] Hall. apply list_eq. intros r.
  destruct (decide (r < 9)%nat) as [Hr|Hr].
  - destruct (lookup_lt_is_Some_2 g r) as [lg Hlg]; [lia|].
    destruct (lookup_lt_is_Some_2 h r) as [lh Hlh]; [lia|].
    rewrite Hlg, Hlh. f_equal. apply list_eq. intros c.
    rewrite Forall_lookup in Hgl, Hhl.
    pose proof (Hgl _ _ Hlg) as Hlen1. pose proof (Hhl _ _ Hlh) as Hlen2.
    destruct (decide (c < 9)%nat) as [Hc|Hc].
    + specialize (Hall r c Hr Hc). unfold get in Hall.
      rewrite Hlg, Hlh in Hall. simpl in Hall.
      destruct (lookup_lt_is_Some_2 lg c) as [x Hx]; [lia|].
      destruct (lookup_lt_is_Some_2 lh c) as [y Hy]; [lia|].
      rewrite Hx, Hy in *. simpl in Hall. congruence.
    + rewrite !lookup_ge_None_2 by lia. done.
  - rewrite !lookup_ge_None_2 by lia. done.
Qed.

Lemma rowCellOr0_get (g : Grid) (r c : nat) :
  wf9 g → (r < 9)%nat → (c < 9)%nat → rowCellOr0 g r c = Some (get g r c).
Proof.
  intros [Hlen Hrows] Hr Hc. unfold rowCellOr0, get.
  destruct (lookup_lt_is_Some_2 g r) as [line Hline]; [lia|].
  rewrite Hline. simpl. rewrite Forall_lookup in Hrows.
  destruct (lookup_lt_is_Some_2 line c) as [x Hx]; [rewrite (Hrows _ _ Hline); lia|].
  by rewrite Hx.
Qed.

(** The clues are in place: where the original grid is not 0 the player
    grid holds the same value. *)
Definition givensIntact {R : Type} (this : Game R) : Prop :=
  ∀ r c, (r < 9)%nat → (c < 9)%nat → get (originalGrid this) r c ≠ 0 →
    get (grid this) r c = get (originalGrid this) r c.

Lemma hasUserProgress_false {R : Type} (this : Game R) :
  wf9 (grid this) → wf9 (originalGrid this) →
  hasUserProgress this = false
  ↔ ∀ r c, (r < 9)%nat → (c < 9)%nat →
      get (grid this) r c = get (originalGrid this) r c
      ∨ get (grid this) r c = 0.
Proof.
  intros Hg Ho. unfold hasUserProgress.
  rewrite <- not_true_iff_false, existsb_exists. split.
  - intros Hno r c Hr Hc.
    destruct (decide (get (grid this) r c = get (originalGrid this) r c)) as [|Hne];
      [by left|].
    destruct (decide (get (grid this) r c = 0)) as [|Hnz]; [by right|].
    exfalso. apply Hno. exists (r, c).
    split; [by apply list_elem_of_In, elem_of_cells|]. simpl.
    rewrite !rowCellOr0_get by done.
    rewrite !bool_decide_eq_false_2; [done|congruence|congruence].
  - intros Hall ([r c] & [Hr Hc]%list_elem_of_In%elem_of_cells & Htest).
    simpl in Htest. rewrite !rowCellOr0_get in Htest by done.
    apply andb_true_iff in Htest
      as [Hne%negb_true_iff%bool_decide_eq_false Hnz%negb_true_iff%bool_decide_eq_false].
    destruct (Hall r c Hr Hc) as [Heq|Heq]; [apply Hne|apply Hnz]; congruence.
Qed.

(** X6: [hasUserProgress] after a reset and on a consistent board.  Right
    after [resetGame] it is false, whatever the grids are.  On 9x9 grids
    whose clues are in place it is false exactly when the player grid
    equals the original grid; so there [resetGame] changes nothing when
    [hasUserProgress] is false. *)
Theorem hasUserProgress_spec {R : Type} (this : Game R) :
  hasUserProgress (resetGame this) = false
  ∧ (wf9 (grid this) → wf9 (originalGrid this) → givensIntact this →
       (hasUserProgress this = false ↔ grid this = originalGrid this)
       ∧ (hasUserProgress this = false → resetGame this = this)).
Proof.
  split.
  - unfold hasUserProgress, resetGame. cbn [grid originalGrid].
    apply not_true_iff_false. intros (rc & _ & Htest)%existsb_exists.
    by rewrite bool_decide_eq_true_2 in Htest.
  - intros Hg Ho Hgiv.
    assert (Hiff : hasUserProgress this = false ↔ grid this = originalGrid this).
    { rewrite hasUserProgress_false by done. split.
      - intros Hall. apply grid_ext; [done..|]. intros r c Hr Hc.
        destruct (Hall r c Hr Hc) as [|H0]; [done|].
        destruct (decide (get (originalGrid this) r c = 0)) as [|Hnz]; [congruence|].
        by apply Hgiv.
      - intros ->. by left. }
    split; [done|]. intros Heq%Hiff. destruct this. simpl in *. by subst.
Qed.

Lemma hasUserProgress_spec_witness :
  (hasUserProgress sampleGame = false ↔ grid sampleGame = originalGrid sampleGame)
  ∧ (hasUserProgress sampleGame = false → resetGame sampleGame = sampleGame).
Proof.
  refine (proj2 (hasUserProgress_spec sampleGame) wf9_ninesBlanked wf9_ninesBlanked _).
  intros r c _ _ _. reflexivity.
Defined.

Lemma hasUserProgress_same_grids {R : Type} (this : Game R) :
  grid this = originalGrid this → hasUserProgress this = false.
Proof.
  intros Heq. unfold hasUserProgress. rewrite Heq.
  apply not_true_iff_false. intros (rc & _ & Htest)%existsb_exists.
  by rewrite bool_decide_eq_true_2 in Htest.
Qed.

Lemma generatePuzzle_is_Some {R : Type} (random : R → Q * R)
    (sort_random : list Z → R → list Z * R) (fuelCarve : nat)
    (this : Game R) :
  (∀ s, inUnitRange (random s).1) →
  (∀ l s, (sort_random l s).1 ≡ₚ l) →
  (∀ ok sol s1,
     generateSolution sort_random 82 emptyGrid (rng this) = Some (ok, sol, s1) →
     (cellsToRemoveOf (difficulty this)
        ≤ size (list_to_set (drawsOf random fuelCarve s1)
                  : gset (nat * nat)))%nat) →
  is_Some (generatePuzzle random sort_random 82 fuelCarve this).
Proof.
  intros Hrange Hperm Hdraws. unfold generatePuzzle.
  destruct (generateSolution_is_Some sort_random Hperm 82 emptyGrid (rng this))
    as [[[ok sol] s1] Hsol].
  { apply wf9_emptyGrid. }
  { rewrite countZeros_emptyGrid. lia. }
  rewrite Hsol. specialize (Hdraws ok sol s1 Hsol).
  assert (Hsolved : wf9 sol ∧ noZero sol).
  { destruct ok.
    - apply (generateSolution_true sort_random Hperm) in Hsol as [Hok Hnz];
        [|apply partialOK_emptyGrid].
      split; [apply Hok|done].
    - exfalso. revert Hsol.
      apply (generateSolution_not_false sort_random Hperm _ _ sampleSolution).
      + apply solved_sampleSolution.
      + apply wf9_emptyGrid.
      + apply extends_emptyGrid. }
  destruct Hsolved as [Hwf Hnz].
  destruct (proj2 (carveLoop_is_Some random Hrange sol
                     (cellsToRemoveOf (difficulty this)) fuelCarve _ _ _ [] s1
                     Hnz (CarveInv_start sol Hwf)))
    as [[[[orig removed] keys] s2] Hrun].
  { rewrite freshDraws_size. simpl. by rewrite difference_empty_L. }
  rewrite Hrun. eauto.
Qed.

(** X7: a new game starts clean.  With a shuffle that permutes and a
    source of binary64 numbers of [0,1): [startNewGame] returns as soon
    as the coordinates drawn after the solution is generated contain as
    many distinct ones as the difficulty asks for; and whenever it
    returns, the hint counter is 0, the game is not complete, the player
    grid is the original grid (so [hasUserProgress] is false), the stored
    solution is a solved grid, every clue is the solution's value, and
    the number of empty cells is the one of the difficulty, which is
    unchanged. *)
Theorem startNewGame_spec {R : Type} (random : R → Q * R)
    (sort_random : list Z → R → list Z * R) (fuelCarve : nat)
    (this : Game R) :
  (∀ s, inUnitRange (random s).1) →
  (∀ l s, (sort_random l s).1 ≡ₚ l) →
  ((∀ ok sol s1,
      generateSolution sort_random 82 emptyGrid (rng this)
        = Some (ok, sol, s1) →
      (cellsToRemoveOf (difficulty this)
         ≤ size (list_to_set (drawsOf random fuelCarve s1)
                   : gset (nat * nat)))%nat) →
     is_Some (startNewGame random sort_random 82 fuelCarve this))
  ∧ (∀ this',
       startNewGame random sort_random 82 fuelCarve this = Some this' →
       hintsUsed this' = 0%nat
       ∧ isGameComplete this' = false
       ∧ grid this' = originalGrid this'
       ∧ hasUserProgress this' = false
       ∧ unitsArePermutations (solution this')
       ∧ (∀ r c, (r < 9)%nat → (c < 9)%nat →
            get (originalGrid this') r c ≠ 0 →
            get (originalGrid this') r c = get (solution this') r c)
       ∧ countZeros (originalGrid this') = cellsToRemoveOf (difficulty this)
       ∧ difficulty this' = difficulty this).
Proof.
  intros Hrange Hperm. split.
  { intros Hdraws. unfold startNewGame.
    by apply generatePuzzle_is_Some. }
  intros this' Hrun. unfold startNewGame in Hrun.
  destruct (generatePuzzle_spec random sort_random fuelCarve _ _ Hrange Hperm Hrun)
    as (Hsol & Heq & Hcount & Hclues).
  assert (Hfields : hintsUsed this' = 0%nat ∧ isGameComplete this' = false
                    ∧ difficulty this' = difficulty this).
  { unfold generatePuzzle in Hrun.
    cbn [rng difficulty hintsUsed isGameComplete signals] in Hrun.
    destruct (generateSolution _ _ _ _) as [[[ok sol] s1]|]; [|done].
    destruct (carveLoop _ _ _ _ _ _ _) as [[[[g' n] ks] s2]|]; [|done].
    by injection Hrun as <-. }
  destruct Hfields as (Hh & Hc & Hd).
  split; [done|]. split; [done|]. split; [done|].
  split; [by apply hasUserProgress_same_grids|].
  split; [done|]. split; [done|]. split; [done|done].
Qed.

(** A shuffle on the state of [mulberry32] that rotates by the state. *)
Definition rotateBySeed (l : list Z) (s : Z) : list Z * Z :=
  (rotate (Z.to_nat (s mod 9)) l, s + 1).

Lemma rotateBySeed_perm (l : list Z) (s : Z) : (rotateBySeed l s).1 ≡ₚ l.
Proof.
  simpl. unfold rotate. rewrite Permutation_app_comm. by rewrite take_drop.
Qed.

(** The game [startNewGame] makes of [sampleGame] with [mulberry32]. *)
Definition newGameSample : Game Z :=
  default sampleGame (startNewGame mulberry32 rotateBySeed 82 200 sampleGame).

Lemma startNewGame_spec_witness :
  ∃ this',
    startNewGame mulberry32 rotateBySeed 82 200 sampleGame = Some this'
    ∧ this' = newGameSample
    ∧ hasUserProgress this' = false
    ∧ countZeros (originalGrid this') = 40%nat.
Proof.
  destruct (startNewGame_spec mulberry32 rotateBySeed 200 sampleGame
              mulberry32_range rotateBySeed_perm) as [Hruns Hprops].
  destruct Hruns as [this' Hrun].
  { intros ok sol s1 Hgen. vm_compute in Hgen. injection Hgen as _ _ <-.
    apply Nat.leb_le. vm_compute. reflexivity. }
  exists this'. split; [exact Hrun|].
  destruct (Hprops this' Hrun) as (_ & _ & _ & Hprog & _ & _ & Hcount & _).
  split; [|split; [exact Hprog|exact Hcount]].
  unfold newGameSample. by rewrite Hrun.
Defined.

(** ** Typing into a cell *)

Lemma digitOf_range (value : string) (d : Z) :
  digitOf value = Some d → 1 ≤ d ≤ 9.
Proof.
  unfold digitOf. destruct value as [|ch [|]]; try done.
  destruct (Z.leb_spec 49 (Z.of_N (Ascii.N_of_ascii ch)));
    destruct (Z.leb_spec (Z.of_N (Ascii.N_of_ascii ch)) 57); simpl; try done.
  intros [= <-]. lia.
Qed.

Lemma checkGameCompletion_complete_iff {R : Type} (this : Game R) :
  isGameComplete this = false →
  isGameComplete (checkGameCompletion this) = true
  ↔ noZero (grid this) ∧ isSolutionValid (grid this) = true.
Proof.
  intros Hnot. unfold checkGameCompletion. rewrite Hnot.
  destruct (existsb _ cells) eqn:Hscan.
  - rewrite Hnot. split; [done|]. intros [Hnz%zero_scan_false _]. congruence.
  - apply zero_scan_false in Hscan.
    destruct (isSolutionValid (grid this)); simpl; [tauto|].
    rewrite Hnot. split; [done|]. by intros [_ ?].
Qed.

Lemma inRange_set (g : Grid) (row col : nat) (v : Z) :
  wf9 g → (row < 9)%nat → (col < 9)%nat → 0 ≤ v ≤ 9 →
  (∀ r c, (r < 9)%nat → (c < 9)%nat → 0 ≤ get g r c ≤ 9) →
  ∀ r c, (r < 9)%nat → (c < 9)%nat → 0 ≤ get (set g row col v) r c ≤ 9.
Proof.
  intros Hwf Hrow Hcol Hv Hall r c Hr Hc.
  destruct (decide ((row, col) = (r, c))) as [[= <- <-]|Hne].
  - by rewrite get_set_eq.
  - rewrite get_set_ne by done. by apply Hall.
Qed.

(** The game after [handleCellInput] wrote [v]. *)
Lemma handleCellInput_cases {R : Type} (value : string) (row col : nat)
    (this : Game R) :
  (value ≠ "" ∧ digitOf value = None
     ∧ handleCellInput value row col this = this)
  ∨ (∃ v, 0 ≤ v ≤ 9
       ∧ (value = "" ∧ v = 0 ∨ digitOf value = Some v)
       ∧ handleCellInput value row col this
         = checkGameCompletion (withGrid (set (grid this) row col v) this)).
Proof.
  unfold handleCellInput. destruct (String.eqb_spec value "") as [->|Hne].
  - right. exists 0. split; [lia|]. split; [by left|done].
  - destruct (digitOf value) as [d|] eqn:Hd.
    + right. exists d. pose proof (digitOf_range _ _ Hd).
      split; [lia|]. split; [by right|done].
    + by left.
Qed.

(** X8: [handleCellInput] on a 9x9 player grid writes at most the cell it
    is called for, and only 0 (empty text) or the digit typed; any other
    text leaves the game as it was.  So the grid stays 9x9, cells in 0..9
    stay in 0..9, the solution and the original grid are untouched, and
    when the cell is not a clue the clues stay in place. *)
Theorem handleCellInput_spec {R : Type} (value : string) (row col : nat)
    (this : Game R) :
  wf9 (grid this) → (row < 9)%nat → (col < 9)%nat →
  wf9 (grid (handleCellInput value row col this))
  ∧ solution (handleCellInput value row col this) = solution this
  ∧ originalGrid (handleCellInput value row col this) = originalGrid this
  ∧ (∀ r c, (r, c) ≠ (row, col) →
       get (grid (handleCellInput value row col this)) r c
       = get (grid this) r c)
  ∧ (value = "" → get (grid (handleCellInput value row col this)) row col = 0)
  ∧ (∀ d, digitOf value = Some d →
       get (grid (handleCellInput value row col this)) row col = d)
  ∧ (value ≠ "" → digitOf value = None →
       handleCellInput value row col this = this)
  ∧ ((∀ r c, (r < 9)%nat → (c < 9)%nat → 0 ≤ get (grid this) r c ≤ 9) →
       ∀ r c, (r < 9)%nat → (c < 9)%nat →
         0 ≤ get (grid (handleCellInput value row col this)) r c ≤ 9)
  ∧ (get (originalGrid this) row col = 0 → givensIntact this →
       givensIntact (handleCellInput value row col this)).
Proof.
  intros Hwf Hrow Hcol.
  destruct (handleCellInput_cases value row col this)
    as [(Hne & Hnone & ->)|(v & Hv & Hval & ->)].
  - split; [done|]. split; [done|]. split; [done|]. split; [done|].
    split; [done|]. split; [intros d Hd; congruence|]. split; [done|].
    split; [done|done].
  - destruct (checkGameCompletion_frame (withGrid (set (grid this) row col v) this))
      as (Hsol & Hgrid & Horig & _ & _).
    rewrite Hgrid, Hsol, Horig. simpl.
    split; [by apply wf9_set|]. split; [done|]. split; [done|]. split; [|split; [|split; [|split; [|split]]]].
    + intros r c Hne. by rewrite get_set_ne.
    + intros ->. rewrite get_set_eq by done. by destruct Hval as [[_ ->]|Hd].
    + intros d Hd. rewrite get_set_eq by done.
      destruct Hval as [[-> _]|Hd']; [done|congruence].
    + intros Hne Hnone. destruct Hval as [[-> _]|Hd]; [done|congruence].
    + intros Hall. by apply inRange_set.
    + intros H0 Hgiv r c Hr Hc Hnz. unfold givensIntact in Hgiv.
      rewrite Horig in Hnz. rewrite Hgrid, Horig. simpl in *.
      rewrite get_set_ne; [by apply Hgiv|]. intros [= <- <-]. done.
Qed.

Lemma handleCellInput_spec_witness :
  get (grid (handleCellInput "7" 0 8 sampleGame)) 0 8 = 7
  ∧ handleCellInput "x" 0 8 sampleGame = sampleGame.
Proof.
  pose proof (handleCellInput_spec "7" 0 8 sampleGame wf9_ninesBlanked
                ltac:(lia) ltac:(lia)) as H7.
  pose proof (handleCellInput_spec "x" 0 8 sampleGame wf9_ninesBlanked
                ltac:(lia) ltac:(lia)) as Hx.
  split.
  - exact (proj1 (proj2 (proj2 (proj2 (proj2 (proj2 H7))))) 7 eq_refl).
  - refine (proj1 (proj2 (proj2 (proj2 (proj2 (proj2 (proj2 Hx)))))) _ eq_refl).
    discriminate.
Defined.

Lemma solved_isSolutionValid (sol : Grid) :
  solved sol → isSolutionValid sol = true.
Proof.
  intros [(_ & _ & Hdist) Hnz].
  apply isSolutionValid_unitsNoDup, unitsNoDup_allDistinct.
  intros r c r' c' Hr Hc Hr' Hc' Hne Hunit. apply Hdist; auto.
Qed.

(** X9: the last digit.  When every cell of the player grid but one
    holds the value a solved grid has there, typing a digit into that
    cell completes the game exactly when the digit is the value of the
    solved grid; then the player grid is the solved grid and the
    completion modal is shown, once. *)
Theorem handleCellInput_last_digit {R : Type} (value : string) (d : Z)
    (row col : nat) (sol : Grid) (this : Game R) :
  wf9 (grid this) → (row < 9)%nat → (col < 9)%nat →
  isGameComplete this = false → solved sol →
  (∀ r c, (r < 9)%nat → (c < 9)%nat → (r, c) ≠ (row, col) →
     get (grid this) r c = get sol r c) →
  digitOf value = Some d →
  (isGameComplete (handleCellInput value row col this) = true
     ↔ d = get sol row col)
  ∧ (d = get sol row col →
       grid (handleCellInput value row col this) = sol
       ∧ signals (handleCellInput value row col this)
         = signals this ++ [CompletionModal]).
Proof.
  intros Hwf Hrow Hcol Hnot Hsol Hagree Hd.
  assert (Hrun : handleCellInput value row col this
                 = checkGameCompletion (withGrid (set (grid this) row col d) this)).
  { unfold handleCellInput. rewrite Hd.
    destruct (String.eqb_spec value "") as [->|]; [done|done]. }
  pose proof (digitOf_range _ _ Hd) as Hrange.
  pose proof Hsol as [(Hwfs & Hsrange & Hsdist) Hsnz].
  assert (Heq : d = get sol row col → set (grid this) row col d = sol).
  { intros ->. apply grid_ext; [by apply wf9_set|done|]. intros r c Hr Hc.
    destruct (decide ((row, col) = (r, c))) as [[= <- <-]|Hne].
    - by rewrite get_set_eq.
    - rewrite get_set_ne by done. apply Hagree; [done..|congruence]. }
  rewrite Hrun. split.
  - rewrite checkGameCompletion_complete_iff by done. simpl. split.
    + intros [Hnz Hvalid].
      destruct (decide (d = get sol row col)) as [|Hne]; [done|]. exfalso.
      apply isSolutionValid_unitsNoDup, unitsNoDup_allDistinct in Hvalid.
      pose proof (partialOK_solved sol (proj1 Hsol) Hsnz) as (Hrows & _ & _).
      assert (Hin : d ∈ rowOf sol row).
      { rewrite (Hrows row Hrow). unfold digits.
        rewrite !elem_of_cons, elem_of_nil. lia. }
      apply list_elem_of_fmap in Hin as (c' & Hc'eq & Hc'%elem_of_idx9).
      assert (Hcne : c' ≠ col) by (intros ->; congruence).
      apply (Hvalid row col row c' Hrow Hcol Hrow Hc'); [congruence|by left|].
      rewrite get_set_eq by done. rewrite get_set_ne by congruence.
      rewrite Hagree; [done|done|done|congruence].
    + intros Hdeq. rewrite (Heq Hdeq). split; [done|].
      by apply solved_isSolutionValid.
  - intros Hdeq. unfold checkGameCompletion, withGrid.
    cbn [grid isGameComplete signals solution originalGrid difficulty
         hintsUsed rng].
    rewrite Hnot, (Heq Hdeq).
    rewrite (proj2 (zero_scan_false sol) Hsnz), (solved_isSolutionValid sol Hsol).
    done.
Qed.

Lemma handleCellInput_last_digit_witness :
  (isGameComplete
     (handleCellInput "9" 0 8
        (withGrid (set sampleSolution 0 8 0) sampleGame)) = true
   ↔ 9 = get sampleSolution 0 8)
  ∧ (9 = get sampleSolution 0 8 →
       grid (handleCellInput "9" 0 8
               (withGrid (set sampleSolution 0 8 0) sampleGame)) = sampleSolution
       ∧ signals (handleCellInput "9" 0 8
                    (withGrid (set sampleSolution 0 8 0) sampleGame))
         = signals (withGrid (set sampleSolution 0 8 0) sampleGame)
           ++ [CompletionModal]).
Proof.
  refine (handleCellInput_last_digit "9" 9 0 8 sampleSolution
            (withGrid (set sampleSolution 0 8 0) sampleGame)
            _ _ _ eq_refl solved_sampleSolution _ eq_refl).
  - apply wf9_set, wf9_sampleSolution.
  - lia.
  - lia.
  - intros r c _ _ Hne. unfold withGrid. cbn [grid].
    rewrite get_set_ne; [done|congruence].
Defined.

(** ** Keys *)

(** X10: [handleKeyDown] on a cell of the board.  An arrow key moves the
    focus at most to the adjacent cell in its direction, never off the
    board and never onto a clue, and changes nothing in the game;
    Backspace and Delete put 0 in the cell and touch no other cell; any
    other key does nothing. *)
Theorem handleKeyDown_spec {R : Type} (key : string) (rowNum colNum : nat)
    (this : Game R) :
  (rowNum < 9)%nat → (colNum < 9)%nat →
  (∀ r c, (handleKeyDown key rowNum colNum this).2 = Some (r, c) →
     (r < 9)%nat ∧ (c < 9)%nat
     ∧ get (originalGrid this) r c = 0
     ∧ (handleKeyDown key rowNum colNum this).1 = this
     ∧ (key = "ArrowUp" ∧ S r = rowNum ∧ c = colNum
        ∨ key = "ArrowDown" ∧ r = S rowNum ∧ c = colNum
        ∨ key = "ArrowLeft" ∧ r = rowNum ∧ S c = colNum
        ∨ key = "ArrowRight" ∧ r = rowNum ∧ c = S colNum))
  ∧ ((key = "Backspace" ∨ key = "Delete") →
       (handleKeyDown key rowNum colNum this)
       = (withGrid (set (grid this) rowNum colNum 0) this, None))
  ∧ (key ≠ "Backspace" → key ≠ "Delete" →
       (handleKeyDown key rowNum colNum this).1 = this).
Proof.
  intros Hrow Hcol. unfold handleKeyDown, focusCell.
  destruct (String.eqb_spec key "ArrowUp") as [->|Hup]; simpl.
  { destruct (Nat.ltb_spec 0 rowNum); simpl.
    - split; [|split; [by intros [|]|done]].
      intros r c Hf.
      destruct (Z.eqb_spec (get (originalGrid this) (rowNum - 1) colNum) 0);
        [|done].
      injection Hf as <- <-. repeat split; try done; try lia.
      left. repeat split; lia.
    - split; [done|]. split; [by intros [|]|done]. }
  destruct (String.eqb_spec key "ArrowDown") as [->|Hdown]; simpl.
  { destruct (Nat.ltb_spec rowNum 8); simpl.
    - split; [|split; [by intros [|]|done]].
      intros r c Hf.
      destruct (Z.eqb_spec (get (originalGrid this) (rowNum + 1) colNum) 0);
        [|done].
      injection Hf as <- <-. repeat split; try done; try lia.
      right. left. repeat split; lia.
    - split; [done|]. split; [by intros [|]|done]. }
  destruct (String.eqb_spec key "ArrowLeft") as [->|Hleft]; simpl.
  { destruct (Nat.ltb_spec 0 colNum); simpl.
    - split; [|split; [by intros [|]|done]].
      intros r c Hf.
      destruct (Z.eqb_spec (get (originalGrid this) rowNum (colNum - 1)) 0);
        [|done].
      injection Hf as <- <-. repeat split; try done; try lia.
      right. right. left. repeat split; lia.
    - split; [done|]. split; [by intros [|]|done]. }
  destruct (String.eqb_spec key "ArrowRight") as [->|Hright]; simpl.
  { destruct (Nat.ltb_spec colNum 8); simpl.
    - split; [|split; [by intros [|]|done]].
      intros r c Hf.
      destruct (Z.eqb_spec (get (originalGrid this) rowNum (colNum + 1)) 0);
        [|done].
      injection Hf as <- <-. repeat split; try done; try lia.
      right. right. right. repeat split; lia.
    - split; [done|]. split; [by intros [|]|done]. }
  destruct (String.eqb_spec key "Backspace") as [->|Hback]; simpl.
  { split; [done|]. split; [done|]. by intros ?. }
  destruct (String.eqb_spec key "Delete") as [->|Hdel]; simpl.
  { split; [done|]. split; [done|]. by intros ? ?. }
  split; [done|]. split; [by intros [|]|done].
Qed.

Lemma handleKeyDown_spec_witness :
  (handleKeyDown "ArrowUp" 0 8 sampleGame).2 = None
  ∧ (handleKeyDown "Delete" 0 8 sampleGame)
    = (withGrid (set (grid sampleGame) 0 8 0) sampleGame, None).
Proof.
  pose proof (handleKeyDown_spec "Delete" 0 8 sampleGame ltac:(lia) ltac:(lia))
    as H.
  split; [reflexivity|].
  exact (proj1 (proj2 H) (or_intror eq_refl)).
Defined.

(** ** Hints, one after the other *)

(** [n] calls of [grantHint] in a row, as [n] clicks on the hint button
    make them. *)
Fixpoint grantHints {R : Type} (random : R → Q * R) (n : nat) (this : Game R)
    : option (Game R) :=
  match n with
  | O => Some this
  | S n' =>
      match grantHint random this with
      | None => None
      | Some this' => grantHints random n' this'
      end
  end.

Lemma filter_length_agree {A : Type} (P Q : A → Prop)
    `{!∀ x, Decision (P x)} `{!∀ x, Decision (Q x)} (l : list A) :
  (∀ y, y ∈ l → (Q y ↔ P y)) →
  length (filter P l) = length (filter Q l).
Proof.
  induction l as [|a l IH]; intros Hagree; [done|].
  rewrite !filter_cons.
  assert (Ha : Q a ↔ P a) by (apply Hagree; left).
  assert (IH' : length (filter P l) = length (filter Q l)).
  { apply IH. intros y Hy. apply Hagree. by right. }
  repeat case_decide; simpl; try tauto; by rewrite ?IH'.
Qed.

Lemma filter_length_remove {A : Type} (P Q : A → Prop)
    `{!∀ x, Decision (P x)} `{!∀ x, Decision (Q x)} (l : list A) (x : A) :
  NoDup l → x ∈ l → P x → ¬ Q x → (∀ y, y ≠ x → (Q y ↔ P y)) →
  length (filter P l) = S (length (filter Q l)).
Proof.
  intros Hnd Hx HP HQ Hagree.
  induction l as [|a l IH]; [by apply elem_of_nil in Hx|].
  apply NoDup_cons in Hnd as [Hnotin Hnd]. rewrite !filter_cons.
  apply elem_of_cons in Hx as [<-|Hx].
  - rewrite decide_True, decide_False by done. simpl. f_equal.
    apply filter_length_agree. intros y Hy. apply Hagree. by intros ->.
  - assert (Ha : Q a ↔ P a) by (apply Hagree; by intros ->).
    specialize (IH Hnd Hx).
    repeat case_decide; simpl; try tauto; by rewrite IH.
Qed.

Lemma countZeros_set_exact (g : Grid) (row col : nat) (num : Z) :
  wf9 g → (row < 9)%nat → (col < 9)%nat → get g row col = 0 → num ≠ 0 →
  countZeros g = S (countZeros (set g row col num)).
Proof.
  intros Hwf Hrow Hcol H0 Hnum. unfold countZeros, emptyCellsOf.
  apply (filter_length_remove _ _ _ (row, col)).
  - apply NoDup_cells.
  - by apply elem_of_cells.
  - done.
  - simpl. by rewrite get_set_eq.
  - intros [r c] Hne. simpl. rewrite get_set_ne; [done|congruence].
Qed.

Lemma countZeros_0 (g : Grid) : countZeros g = O ↔ noZero g.
Proof.
  unfold countZeros. split.
  - intros Hlen r c Hr Hc H0. apply length_zero_iff_nil in Hlen.
    assert (Hin : (r, c) ∈ emptyCellsOf g) by (by apply elem_of_emptyCellsOf).
    rewrite Hlen in Hin. by apply elem_of_nil in Hin.
  - intros Hnz. destruct (emptyCellsOf g) as [|[r c] rest] eqn:Hempty; [done|].
    assert (Hin : (r, c) ∈ emptyCellsOf g) by (rewrite Hempty; left).
    apply elem_of_emptyCellsOf in Hin as (Hr & Hc & H0). by destruct (Hnz r c).
Qed.

Lemma extends_noZero_eq (g sol : Grid) :
  wf9 g → wf9 sol → extends g sol → noZero g → g = sol.
Proof.
  intros Hwf Hwfs Hext Hnz. apply grid_ext; [done..|].
  intros r c Hr Hc. apply Hext; [done..|]. by apply Hnz.
Qed.

Section Hints.

Context {R : Type} (random : R → Q * R).
Hypothesis random_range : ∀ s, inUnitRange (random s).1.

(** One hint on a grid whose filled cells hold the solution's values. *)
Lemma grantHint_progress (this : Game R) (n : nat) :
  solved (solution this) → wf9 (grid this) →
  extends (grid this) (solution this) →
  isGameComplete this = false → countZeros (grid this) = S n →
  ∃ this', grantHint random this = Some this'
    ∧ solution this' = solution this
    ∧ originalGrid this' = originalGrid this
    ∧ wf9 (grid this')
    ∧ extends (grid this') (solution this)
    ∧ countZeros (grid this') = n
    ∧ hintsUsed this' = S (hintsUsed this)
    ∧ (isGameComplete this' = true ↔ n = O)
    ∧ (n = O → grid this' = solution this
               ∧ signals this' = signals this ++ [CompletionModal])
    ∧ (n ≠ O → signals this' = signals this).
Proof.
  intros Hsol Hwf Hext Hnot Hcount.
  pose proof Hsol as [(Hwfs & _ & _) Hsnz].
  destruct (grantHint_cases random random_range this)
    as [[Hnz _]|(row & col & s' & Hrow & Hcol & H0 & Hrun)].
  { apply countZeros_0 in Hnz. lia. }
  set (g' := set (grid this) row col (get (solution this) row col)).
  assert (Hwf' : wf9 g') by (by apply wf9_set).
  assert (Hext' : extends g' (solution this)).
  { intros r c Hr Hc Hne. subst g'.
    destruct (decide ((row, col) = (r, c))) as [[= <- <-]|Hneq].
    - by rewrite get_set_eq.
    - rewrite get_set_ne in Hne |- * by done. by apply Hext. }
  assert (Hcount' : countZeros g' = n).
  { pose proof (countZeros_set_exact (grid this) row col
                  (get (solution this) row col) Hwf Hrow Hcol H0
                  (Hsnz row col Hrow Hcol)) as Hex.
    fold g' in Hex. lia. }
  pose proof (checkGameCompletion_frame (afterReveal this row col s'))
    as (Hs & Hg & Ho & Hh & _).
  pose proof (checkGameCompletion_complete_iff (afterReveal this row col s') Hnot)
    as Hdone.
  cbn [afterReveal solution grid originalGrid hintsUsed] in Hs, Hg, Ho, Hh, Hdone.
  fold g' in Hg, Hdone.
  exists (checkGameCompletion (afterReveal this row col s')).
  rewrite Hs, Hg, Ho, Hh.
  split; [done|]. split; [done|]. split; [done|]. split; [done|].
  split; [done|]. split; [done|]. split; [done|].
  assert (Hiff : isGameComplete (checkGameCompletion (afterReveal this row col s'))
                 = true ↔ n = O).
  { rewrite Hdone, <- Hcount', countZeros_0. split; [tauto|].
    intros Hnz. split; [done|].
    rewrite (extends_noZero_eq g' (solution this)) by done.
    by apply solved_isSolutionValid. }
  split; [done|]. split.
  - intros Hn. rewrite <- Hcount' in Hn. apply countZeros_0 in Hn.
    pose proof (extends_noZero_eq g' (solution this) Hwf' Hwfs Hext' Hn) as Heq.
    split; [done|].
    unfold checkGameCompletion.
    cbn [afterReveal solution grid originalGrid hintsUsed isGameComplete
         signals difficulty rng].
    fold g'. rewrite Hnot, Heq.
    by rewrite (proj2 (zero_scan_false _) Hsnz), (solved_isSolutionValid _ Hsol).
  - intros Hn. unfold checkGameCompletion.
    cbn [afterReveal solution grid originalGrid hintsUsed isGameComplete
         signals difficulty rng].
    fold g'. rewrite Hnot.
    destruct (existsb _ cells) eqn:Hscan; [done|].
    apply zero_scan_false, countZeros_0 in Hscan. lia.
Qed.

Lemma grantHints_progress (k : nat) : ∀ (this : Game R) (n : nat),
  solved (solution this) → wf9 (grid this) →
  extends (grid this) (solution this) →
  isGameComplete this = false → countZeros (grid this) = n → (k ≤ n)%nat →
  ∃ this', grantHints random k this = Some this'
    ∧ originalGrid this' = originalGrid this
    ∧ countZeros (grid this') = (n - k)%nat
    ∧ hintsUsed this' = (hintsUsed this + k)%nat
    ∧ (isGameComplete this' = true ↔ k = n ∧ (0 < n)%nat)
    ∧ (k = n → grid this' = solution this)
    ∧ signals this'
      = signals this ++ (if isGameComplete this' then [CompletionModal] else []).
Proof.
  induction k as [|k IH]; intros this n Hsol Hwf Hext Hnot Hcount Hle.
  { exists this. simpl. rewrite Hnot, app_nil_r.
    repeat split; try done; try lia.
    intros Hn. rewrite <- Hn in Hcount. apply countZeros_0 in Hcount.
    apply extends_noZero_eq; try done. by destruct Hsol as [(? & _) _]. }
  destruct n as [|n]; [lia|].
  destruct (grantHint_progress this n Hsol Hwf Hext Hnot Hcount)
    as (t & Hrun & Hs & Ho & Hwft & Hextt & Hct & Hh & Hdone & Hlast & Hmid).
  simpl. rewrite Hrun.
  destruct (decide (n = O)) as [->|Hn].
  - assert (k = O) as -> by lia. simpl. exists t.
    destruct (Hlast eq_refl) as [Hg Hsig].
    rewrite (proj2 Hdone eq_refl).
    repeat split; try done; try lia.
  - assert (Hnott : isGameComplete t = false).
    { destruct (isGameComplete t); [|done]. by destruct Hn, (proj1 Hdone). }
    rewrite <- Hs in Hsol, Hextt.
    destruct (IH t n Hsol Hwft Hextt Hnott Hct ltac:(lia))
      as (t' & Hrun' & Ho' & Hc' & Hh' & Hdone' & Hg' & Hsig').
    exists t'. rewrite Hs in Hg'. rewrite (Hmid Hn) in Hsig'.
    split; [done|]. split; [congruence|]. split; [done|].
    split; [lia|]. split; [|split; [|done]].
    + rewrite Hdone'. lia.
    + intros [= ->]. by apply Hg'.
Qed.

End Hints.

(** X11: hints solve the puzzle.  On a game that is not complete, whose
    filled cells hold the values of its (solved) solution and which has
    [n] > 0 empty cells, [n] hints in a row never fail, leave the player
    grid equal to the solution, count [n] more hints used, complete the
    game and show the completion modal once; any smaller number of hints
    leaves the game incomplete, with one empty cell fewer per hint and no
    message. *)
Theorem grantHints_solve {R : Type} (random : R → Q * R) (this : Game R)
    (n : nat) :
  (∀ s, inUnitRange (random s).1) →
  solved (solution this) → wf9 (grid this) →
  extends (grid this) (solution this) →
  isGameComplete this = false → countZeros (grid this) = n → (0 < n)%nat →
  (∃ this', grantHints random n this = Some this'
     ∧ grid this' = solution this
     ∧ hintsUsed this' = (hintsUsed this + n)%nat
     ∧ isGameComplete this' = true
     ∧ signals this' = signals this ++ [CompletionModal])
  ∧ (∀ k, (k < n)%nat →
       ∃ this', grantHints random k this = Some this'
         ∧ countZeros (grid this') = (n - k)%nat
         ∧ hintsUsed this' = (hintsUsed this + k)%nat
         ∧ isGameComplete this' = false
         ∧ signals this' = signals this).
Proof.
  intros Hrange Hsol Hwf Hext Hnot Hcount Hpos. split.
  - destruct (grantHints_progress random Hrange n this n)
      as (t & Hrun & _ & _ & Hh & Hdone & Hg & Hsig); [done..|].
    exists t. assert (Hc : isGameComplete t = true) by (apply Hdone; lia).
    rewrite Hc in Hsig. auto.
  - intros k Hk.
    destruct (grantHints_progress random Hrange k this n)
      as (t & Hrun & _ & Hc & Hh & Hdone & _ & Hsig); [done..|lia|].
    exists t. assert (Hnc : isGameComplete t = false).
    { destruct (isGameComplete t); [|done]. destruct (proj1 Hdone); lia. }
    rewrite Hnc, app_nil_r in Hsig. auto.
Qed.

Definition extendsb (g sol : Grid) : bool :=
  forallb (λ a, (get g a.1 a.2 =? 0) || (get g a.1 a.2 =? get sol a.1 a.2))
    cells.

Lemma extendsb_true (g sol : Grid) : extendsb g sol = true → extends g sol.
Proof.
  unfold extendsb. rewrite forallb_forall. intros Hall r c Hr Hc Hne.
  specialize (Hall (r, c)). cbn [fst snd] in Hall.
  rewrite <- list_elem_of_In, elem_of_cells in Hall.
  specialize (Hall (conj Hr Hc)).
  apply orb_true_iff in Hall as [H0%Z.eqb_eq|Heq%Z.eqb_eq]; done.
Qed.

Lemma grantHints_solve_witness :
  (∃ this', grantHints mulberry32 9 sampleGame = Some this'
     ∧ grid this' = solution sampleGame
     ∧ hintsUsed this' = (hintsUsed sampleGame + 9)%nat
     ∧ isGameComplete this' = true
     ∧ signals this' = signals sampleGame ++ [CompletionModal])
  ∧ (∀ k, (k < 9)%nat →
       ∃ this', grantHints mulberry32 k sampleGame = Some this'
         ∧ countZeros (grid this') = (9 - k)%nat
         ∧ hintsUsed this' = (hintsUsed sampleGame + k)%nat
         ∧ isGameComplete this' = false
         ∧ signals this' = signals sampleGame).
Proof.
  apply (grantHints_solve mulberry32 sampleGame 9).
  - apply mulberry32_range.
  - apply solved_sampleSolution.
  - apply wf9_ninesBlanked.
  - apply extendsb_true. by vm_compute.
  - reflexivity.
  - by vm_compute.
  - lia.
Defined.

(** ** The seeded generator *)

Lemma toInt32_mod (x y : Z) :
  x mod 2 ^ 32 = y mod 2 ^ 32 → toInt32 x = toInt32 y.
Proof.
  intros Heq. unfold toInt32.
  rewrite <- (Z.add_mod_idemp_l x), <- (Z.add_mod_idemp_l y) by lia.
  by rewrite Heq.
Qed.

(** The closure of [mulberry32] called [n] times: the last number it
    returned (0 before the first call) and its state. *)
Fixpoint mulberry32_calls (n : nat) (seed : Z) : Q * Z :=
  match n with
  | O => (0%Q, seed)
  | S n' => mulberry32 (mulberry32_calls n' seed).2
  end.

(** X12: the state of the [mulberry32] closure is a plain JavaScript
    number that is never reduced to 32 bits: as long as it stays below
    2^53, the state after [n] calls is [seed + n * 0x6D2B79F5].  Within
    that bound, where the addition is exact, the number a call returns
    depends on the state before it modulo 2^32 only: it is the number
    returned from any other state below 2^53 - 0x6D2B79F5 that is equal
    modulo 2^32.  (Beyond 2^53 the addition is rounded and this no longer
    holds, see [mulberry32_beyond_2_53].) *)
Theorem mulberry32_state (seed : Z) (n : nat) :
  0 ≤ seed → seed + Z.of_nat n * 0x6D2B79F5 < 2 ^ 53 →
  (mulberry32_calls n seed).2 = seed + Z.of_nat n * 0x6D2B79F5
  ∧ (∀ (k : nat) (seed2 : Z), (k < n)%nat →
       0 ≤ seed2 < 2 ^ 53 - 0x6D2B79F5 →
       seed2 mod 2 ^ 32 = (seed + Z.of_nat k * 0x6D2B79F5) mod 2 ^ 32 →
       (mulberry32 seed2).1 = (mulberry32_calls (S k) seed).1).
Proof.
  intros Hseed Hbound.
  assert (Hstate : ∀ k, (k ≤ n)%nat →
            (mulberry32_calls k seed).2 = seed + Z.of_nat k * 0x6D2B79F5).
  { induction k as [|k IH]; intros Hk; [simpl; lia|].
    cbn [mulberry32_calls]. unfold mulberry32. cbn [snd].
    rewrite IH by lia. unfold jsAdd. rewrite roundDouble_exact; lia. }
  split; [by apply Hstate|].
  intros k seed2 Hk Hseed2 Hmod. cbn [mulberry32_calls].
  rewrite Hstate by lia.
  assert (Hst : 0 ≤ seed + Z.of_nat k * 0x6D2B79F5 < 2 ^ 53 - 0x6D2B79F5)
    by lia.
  revert Hst Hmod. generalize (seed + Z.of_nat k * 0x6D2B79F5).
  intros st Hst Hmod.
  assert (Hsum : (jsAdd seed2 0x6D2B79F5) mod 2 ^ 32
                 = (jsAdd st 0x6D2B79F5) mod 2 ^ 32).
  { unfold jsAdd. rewrite !roundDouble_exact by lia.
    rewrite (Z.add_mod seed2), (Z.add_mod st) by lia. by rewrite Hmod. }
  unfold mulberry32. cbn [fst].
  revert Hsum. generalize (jsAdd seed2 0x6D2B79F5), (jsAdd st 0x6D2B79F5).
  intros a b Hab.
  unfold jsXor, jsOr, jsShru, toUint32.
  by rewrite (toInt32_mod a b Hab), Hab.
Qed.

Lemma mulberry32_state_witness :
  (mulberry32_calls 3 12345).2 = 12345 + Z.of_nat 3 * 0x6D2B79F5
  ∧ (mulberry32 (12345 + 2 ^ 32)).1 = (mulberry32_calls 1 12345).1.
Proof.
  pose proof (mulberry32_state 12345 3 ltac:(lia) ltac:(lia)) as [Hst Hout].
  split; [exact Hst|].
  apply (Hout O (12345 + 2 ^ 32)); [lia|lia|reflexivity].
Defined.

(** Two states equal modulo 2^32, one of them above 2^53: the sums are
    rounded differently and the numbers returned differ. *)
Example mulberry32_beyond_2_53 :
  2 mod 2 ^ 32 = (2 ^ 53 + 2) mod 2 ^ 32
  ∧ (mulberry32 2).1 ≠ (mulberry32 (2 ^ 53 + 2)).1.
Proof. split; [done|]. by vm_compute. Qed.

(** ** After the game is complete *)

(** What the player can do on the board between two new games: type in a
    cell, press a key in a cell, reset the board, take a hint. *)
Inductive Move : Type :=
  | CellInput (value : string) (row col : nat)
  | KeyDown (key : string) (row col : nat)
  | Reset
  | Hint.

Definition play {R : Type} (random : R → Q * R) (m : Move) (this : Game R)
    : option (Game R) :=
  match m with
  | CellInput value row col => Some (handleCellInput value row col this)
  | KeyDown key row col => Some (handleKeyDown key row col this).1
  | Reset => Some (resetGame this)
  | Hint => grantHint random this
  end.

Fixpoint playAll {R : Type} (random : R → Q * R) (ms : list Move)
    (this : Game R) : option (Game R) :=
  match ms with
  | [] => Some this
  | m :: ms' =>
      match play random m this with
      | None => None
      | Some this' => playAll random ms' this'
      end
  end.

#[global] Instance Signal_eq_dec : EqDecision Signal.
Proof. solve_decision. Defined.

(** How many times the completion modal was shown. *)
Definition modalsShown {R : Type} (this : Game R) : nat :=
  length (filter (λ s, s = CompletionModal) (signals this)).

Lemma checkGameCompletion_complete {R : Type} (this : Game R) :
  isGameComplete this = true → checkGameCompletion this = this.
Proof. intros H. unfold checkGameCompletion. by rewrite H. Qed.

Lemma play_complete {R : Type} (random : R → Q * R) (m : Move)
    (this this' : Game R) :
  isGameComplete this = true → play random m this = Some this' →
  isGameComplete this' = true ∧ modalsShown this' = modalsShown this
  ∧ solution this' = solution this ∧ originalGrid this' = originalGrid this.
Proof.
  intros Hdone Hplay. destruct m as [value row col|key row col| |]; simpl in Hplay.
  - injection Hplay as <-.
    destruct (handleCellInput_cases value row col this)
      as [(_ & _ & ->)|(v & _ & _ & ->)]; [done|].
    by rewrite checkGameCompletion_complete.
  - injection Hplay as <-. unfold handleKeyDown.
    repeat (match goal with |- context [if ?b then _ else _] => destruct b end);
      done.
  - by injection Hplay as <-.
  - unfold grantHint in Hplay.
    destruct (length (emptyCellsOf (grid this)) =? 0)%nat.
    + injection Hplay as <-. repeat split; try done.
      unfold modalsShown. cbn [signals].
      by rewrite filter_app, length_app, filter_cons_False, Nat.add_0_r.
    + destruct (randomBelow random _ (rng this)) as [i s'].
      destruct (emptyCellsOf (grid this) !! i) as [[row col]|]; [|done].
      injection Hplay as <-. by rewrite checkGameCompletion_complete.
Qed.

(** X13: completion is sticky.  Once [isGameComplete] is set, no input,
    key, reset or hint clears it, and none of them shows the completion
    modal again, whatever they do to the player grid: only a new game
    makes the game winnable again. *)
Theorem complete_is_sticky {R : Type} (random : R → Q * R) (ms : list Move)
    (this this' : Game R) :
  isGameComplete this = true → playAll random ms this = Some this' →
  isGameComplete this' = true ∧ modalsShown this' = modalsShown this
  ∧ solution this' = solution this ∧ originalGrid this' = originalGrid this.
Proof.
  revert this. induction ms as [|m ms IH]; intros this Hdone Hrun.
  - by injection Hrun as <-.
  - simpl in Hrun. destruct (play random m this) as [t|] eqn:Hplay; [|done].
    destruct (play_complete random m this t Hdone Hplay) as (Ht & Hm & Hs & Ho).
    destruct (IH t Ht Hrun) as (? & ? & ? & ?).
    repeat split; congruence.
Qed.

(** A win, then the board reset and filled in again as in the solution. *)
Definition refill : list Move :=
  Reset :: map (λ rc, CellInput "9" rc.1 rc.2)
             (emptyCellsOf ninesBlanked).

Lemma complete_is_sticky_witness :
  ∃ this',
    playAll mulberry32 refill (checkGameCompletion filledGame) = Some this'
    ∧ grid this' = solution this'
    ∧ isGameComplete this' = true
    ∧ modalsShown this' = 1%nat
    ∧ modalsShown (checkGameCompletion filledGame) = 1%nat.
Proof.
  destruct (playAll mulberry32 refill (checkGameCompletion filledGame))
    as [t|] eqn:Hrun; [|by vm_compute in Hrun].
  exists t.
  destruct (complete_is_sticky mulberry32 refill
              (checkGameCompletion filledGame) t eq_refl Hrun)
    as (Hdone & Hm & Hs & Ho).
  split; [done|]. split; [|split; [done|split; [by rewrite Hm|done]]].
  vm_compute in Hrun. by injection Hrun as <-.
Defined.

(** * The rewards of the second build (part_000)

    part_000 adds a timer, coins, a streak, achievements and a
    leaderboard to the game object.  The page, the sounds, the messages
    and [localStorage] are left out; [now] is the text of
    [new Date().toISOString()]. *)

Module Part000.

(** An entry of the leaderboard. *)
Record Entry : Type := mkEntry { time : Z; date : string }.

(** The game object: the fields of [Game] and the fields the rewards
    read and write.  [speedMultiplier] only ever holds 1.0 or 2.0
    (part_000 88, 2867, 3101), hence an integer.  A key of
    [achievements] is set when its value is [true]. *)
Record Session (R : Type) : Type := mkSession {
  game : Game R;
  timer : Z;
  usedSolve : bool;
  speedMultiplier : Z;
  coins : Z;
  streakData_count : Z;
  dailyChallengeMode : bool;
  achievements : gmap string bool;
  leaderboard : gmap string (list Entry);
  unlockedThemes : list string;
  unlockedBoardColors : list string
}.

Arguments mkSession {R}.
Arguments game {R}.
Arguments timer {R}.
Arguments usedSolve {R}.
Arguments speedMultiplier {R}.
Arguments coins {R}.
Arguments streakData_count {R}.
Arguments dailyChallengeMode {R}.
Arguments achievements {R}.
Arguments leaderboard {R}.
Arguments unlockedThemes {R}.
Arguments unlockedBoardColors {R}.

(** [this.achievements[id]] as a condition. *)
Definition achieved {R : Type} (this : Session R) (id : string) : bool :=
  default false (achievements this !! id).

(** [unlockAchievement] (part_000 1845-1853) *)
Definition unlockAchievement {R : Type} (id : string) (this : Session R)
    : Session R :=
  if achieved this id then this
  else mkSession (game this) (timer this) (usedSolve this)
         (speedMultiplier this) (coins this) (streakData_count this)
         (dailyChallengeMode this) (<[id := true]> (achievements this))
         (leaderboard this) (unlockedThemes this) (unlockedBoardColors this).

(** [unlockCosmetic] (part_000 3211-3231): its result and the game
    object after it. *)
Definition unlockCosmetic {R : Type} (cosmeticType cosmeticName : string)
    (this : Session R) : bool * Session R :=
  if String.eqb cosmeticType "theme" then
    if bool_decide (cosmeticName ∈ unlockedThemes this) then (false, this)
    else (true,
          mkSession (game this) (timer this) (usedSolve this)
            (speedMultiplier this) (coins this) (streakData_count this)
            (dailyChallengeMode this) (achievements this) (leaderboard this)
            (unlockedThemes this ++ [cosmeticName]) (unlockedBoardColors this))
  else if String.eqb cosmeticType "board_color" then
    if bool_decide (cosmeticName ∈ unlockedBoardColors this) then (false, this)
    else (true,
          mkSession (game this) (timer this) (usedSolve this)
            (speedMultiplier this) (coins this) (streakData_count this)
            (dailyChallengeMode this) (achievements this) (leaderboard this)
            (unlockedThemes this) (unlockedBoardColors this ++ [cosmeticName]))
  else (false, this).

(** [updateAchievementsOnWin] (part_000 1760-1776) *)
Definition updateAchievementsOnWin {R : Type} (this : Session R) : Session R :=
  let this := unlockAchievement "first_win" this in
  let this := if (hintsUsed (game this) =? 0)%nat
              then unlockAchievement "no_hints" this else this in
  let this := if timer this <=? 300
              then unlockAchievement "under_5" this else this in
  let this := if 3 <=? streakData_count this
              then unlockAchievement "daily_3" this else this in
  if achieved this "first_win"
  then (unlockCosmetic "theme" "classic" this).2 else this.

(** [updateStreakOnWin] (part_000 1855-1866) *)
Definition updateStreakOnWin {R : Type} (this : Session R) : Session R :=
  if usedSolve this then
    mkSession (game this) (timer this) false
      (speedMultiplier this) (coins this) (streakData_count this)
      (dailyChallengeMode this) (achievements this) (leaderboard this)
      (unlockedThemes this) (unlockedBoardColors this)
  else
    mkSession (game this) (timer this) (usedSolve this)
      (speedMultiplier this) (coins this) (jsAdd (streakData_count this) 1)
      (dailyChallengeMode this) (achievements this) (leaderboard this)
      (unlockedThemes this) (unlockedBoardColors this).

(** [sort((a, b) => a.time - b.time)]: the sort of an array is stable,
    which fixes its result; here by insertion from the right, an entry
    going before the first one that is not faster. *)
Fixpoint insertByTime (e : Entry) (l : list Entry) : list Entry :=
  match l with
  | [] => [e]
  | x :: l' => if time e <=? time x then e :: l else x :: insertByTime e l'
  end.

Definition sortByTime (l : list Entry) : list Entry :=
  foldr insertByTime [] l.

(** [updateLeaderboardOnWin] (part_000 1778-1794).

    [this.leaderboard] is a plain object: besides its own keys, a key that
    names a property of [Object.prototype] reads as that inherited value.
    Such a value is truthy, so the guard [if (!this.leaderboard[key])]
    does not replace it, and it has no [push]: the call throws
    [TypeError], here [None], before anything is written.  The lists
    under the own keys are arrays ([loadLeaderboard] sees to it). *)
Definition leaderboardKey {R : Type} (this : Session R) : string :=
  if dailyChallengeMode this then "daily" else difficulty (game this).

(** The property names of [Object.prototype]. *)
Definition inheritedKeys : list string :=
  ["constructor"; "__defineGetter__"; "__defineSetter__"; "hasOwnProperty";
   "__lookupGetter__"; "__lookupSetter__"; "isPrototypeOf";
   "propertyIsEnumerable"; "toString"; "valueOf"; "__proto__";
   "toLocaleString"].

(** [this.leaderboard[key]] once the guard has run; [None] when it is an
    inherited value. *)
Definition entriesAt {R : Type} (this : Session R) (key : string)
    : option (list Entry) :=
  match leaderboard this !! key with
  | Some entries => Some entries
  | None => if bool_decide (key ∈ inheritedKeys) then None else Some []
  end.

Definition updateLeaderboardOnWin {R : Type} (now : string) (this : Session R)
    : option (Session R) :=
  let key := leaderboardKey this in
  match entriesAt this key with
  | None => None
  | Some entries =>
      let entry := mkEntry (timer this) now in
      Some (mkSession (game this) (timer this) (usedSolve this)
              (speedMultiplier this) (coins this) (streakData_count this)
              (dailyChallengeMode this) (achievements this)
              (<[key := take 10 (sortByTime (entries ++ [entry]))]>
                 (leaderboard this))
              (unlockedThemes this) (unlockedBoardColors this))
  end.

(** [showCompletionModal] (part_000 2854-2906): the game object after
    the call.  [Math.floor] is applied to an integer.  When
    [updateLeaderboardOnWin] throws, the call ends there, with the game
    object as the steps before it left it; only reporting would have
    followed. *)
Definition baseCoins (difficulty : string) : Z :=
  if String.eqb difficulty "easy" then 10
  else if String.eqb difficulty "medium" then 25 else 50.

Definition earnedCoins {R : Type} (this : Session R) : Z :=
  let timeBonus := Z.max 0 (jsAdd 60 (- timer this)) in
  if usedSolve this then 0
  else jsMul (jsAdd (baseCoins (difficulty (game this))) timeBonus)
         (speedMultiplier this).

Definition showCompletionModal {R : Type} (now : string) (this : Session R)
    : Session R :=
  let g := game this in
  let this :=
    mkSession
      (mkGame (solution g) (grid g) (originalGrid g) (difficulty g)
         (hintsUsed g) (isGameComplete g) (rng g)
         (signals g ++ [CompletionModal]))
      (timer this) (usedSolve this) 1
      (if usedSolve this then coins this
       else jsAdd (coins this) (earnedCoins this))
      (streakData_count this) (dailyChallengeMode this) (achievements this)
      (leaderboard this) (unlockedThemes this) (unlockedBoardColors this) in
  let this := updateStreakOnWin this in
  let this := updateAchievementsOnWin this in
  default this (updateLeaderboardOnWin now this).

(** The game object with [isGameComplete] set, the grid being [g]. *)
Definition completeWith {R : Type} (g : Grid) (viaSolve : bool)
    (this : Session R) : Session R :=
  mkSession
    (mkGame (solution (game this)) g (originalGrid (game this))
       (difficulty (game this)) (hintsUsed (game this)) true
       (rng (game this)) (signals (game this)))
    (timer this) viaSolve (speedMultiplier this) (coins this)
    (streakData_count this) (dailyChallengeMode this) (achievements this)
    (leaderboard this) (unlockedThemes this) (unlockedBoardColors this).

(** [checkGameCompletion] (part_000 2790-2805) *)
Definition checkGameCompletion {R : Type} (now : string) (this : Session R)
    : Session R :=
  if isGameComplete (game this) then this
  else if existsb (λ rc, get (grid (game this)) rc.1 rc.2 =? 0) cells then this
  else if isSolutionValid (grid (game this)) then
    showCompletionModal now
      (completeWith (grid (game this)) (usedSolve this) this)
  else this.

(** [solveGame] (part_000 2845-2852) *)
Definition solveGame {R : Type} (now : string) (this : Session R)
    : Session R :=
  showCompletionModal now (completeWith (solution (game this)) true this).

End Part000.

(** ** The leaderboard *)

Definition notSlower (x y : Part000.Entry) : Prop :=
  Part000.time x ≤ Part000.time y.

#[global] Instance notSlower_dec (x y : Part000.Entry) :
  Decision (notSlower x y).
Proof. unfold notSlower. apply _. Defined.

Lemma insertByTime_perm (e : Part000.Entry) (l : list Part000.Entry) :
  Part000.insertByTime e l ≡ₚ e :: l.
Proof.
  induction l as [|x l IH]; simpl; [done|].
  destruct (Part000.time e <=? Part000.time x); [done|].
  rewrite IH. apply Permutation_swap.
Qed.

Lemma sortByTime_perm (l : list Part000.Entry) : Part000.sortByTime l ≡ₚ l.
Proof.
  induction l as [|x l IH]; simpl; [done|].
  by rewrite insertByTime_perm, IH.
Qed.





(** The list of the game's key before the update, and the new entry. *)
Definition entriesOf {R : Type} (this : Part000.Session R)
    : list Part000.Entry :=
  default [] (Part000.leaderboard this !! Part000.leaderboardKey this).

Definition entryOf {R : Type} (now : string) (this : Part000.Session R)
    : Part000.Entry :=
  Part000.mkEntry (Part000.timer this) now.

(** The key of the game is an own key of the leaderboard, or no name that
    objects inherit. *)
Definition keyUsable {R : Type} (this : Part000.Session R) : Prop :=
  is_Some (Part000.leaderboard this !! Part000.leaderboardKey this)
  ∨ Part000.leaderboardKey this ∉ Part000.inheritedKeys.

Lemma entriesAt_usable {R : Type} (this : Part000.Session R) :
  keyUsable this →
  Part000.entriesAt this (Part000.leaderboardKey this) = Some (entriesOf this).
Proof.
  unfold keyUsable, Part000.entriesAt, entriesOf.
  destruct (Part000.leaderboard this !! Part000.leaderboardKey this)
    as [l|]; [done|].
  intros [[? [=]]|Hfree]. by rewrite bool_decide_eq_false_2.
Qed.

Lemma entriesAt_inherited {R : Type} (this : Part000.Session R) :
  ¬ keyUsable this →
  Part000.entriesAt this (Part000.leaderboardKey this) = None.
Proof.
  unfold keyUsable, Part000.entriesAt. intros Hno.
  destruct (Part000.leaderboard this !! Part000.leaderboardKey this)
    as [l|]; [destruct Hno; eauto|].
  case_bool_decide; [done|]. destruct Hno. by right.
Qed.

(** The game object after [updateLeaderboardOnWin]: only the leaderboard
    may differ. *)
Definition exceptLeaderboard {R : Type} (this : Part000.Session R) :=
  (Part000.game this, Part000.timer this, Part000.usedSolve this,
   Part000.speedMultiplier this, Part000.coins this,
   Part000.streakData_count this, Part000.dailyChallengeMode this,
   Part000.achievements this, Part000.unlockedThemes this,
   Part000.unlockedBoardColors this).

Lemma leaderboard_after_eq {R : Type} (now : string)
    (a b : Part000.Session R) :
  Part000.leaderboardKey a = Part000.leaderboardKey b →
  Part000.leaderboard a = Part000.leaderboard b →
  Part000.timer a = Part000.timer b →
  Part000.leaderboard (default a (Part000.updateLeaderboardOnWin now a))
  = Part000.leaderboard (default b (Part000.updateLeaderboardOnWin now b)).
Proof.
  intros Hk Hl Ht. unfold Part000.updateLeaderboardOnWin, Part000.entriesAt.
  rewrite Hk, Hl, Ht.
  destruct (Part000.leaderboard b !! Part000.leaderboardKey b); [done|].
  by destruct (bool_decide (Part000.leaderboardKey b ∈ Part000.inheritedKeys)).
Qed.

Lemma updateLeaderboardOnWin_rest {R : Type} (now : string)
    (this : Part000.Session R) :
  exceptLeaderboard (default this (Part000.updateLeaderboardOnWin now this))
  = exceptLeaderboard this.
Proof.
  unfold Part000.updateLeaderboardOnWin.
  by destruct (Part000.entriesAt this (Part000.leaderboardKey this)).
Qed.


(** ** The rewards of a win *)

(** The fields that neither the achievements nor the themes touch. *)
Definition restOf {R : Type} (this : Part000.Session R) :=
  (Part000.game this, Part000.timer this, Part000.usedSolve this,
   Part000.speedMultiplier this, Part000.coins this,
   Part000.streakData_count this, Part000.dailyChallengeMode this,
   Part000.leaderboard this, Part000.unlockedBoardColors this).

Lemma unlockAchievement_rest {R : Type} (id : string)
    (this : Part000.Session R) :
  restOf (Part000.unlockAchievement id this) = restOf this
  ∧ Part000.unlockedThemes (Part000.unlockAchievement id this)
    = Part000.unlockedThemes this.
Proof.
  unfold Part000.unlockAchievement. by destruct (Part000.achieved this id).
Qed.

Lemma achieved_unlockAchievement {R : Type} (id id' : string)
    (this : Part000.Session R) :
  Part000.achieved (Part000.unlockAchievement id this) id'
  = Part000.achieved this id' || bool_decide (id' = id).
Proof.
  unfold Part000.unlockAchievement.
  destruct (Part000.achieved this id) eqn:Hid.
  - case_bool_decide as Heq; [subst; by rewrite Hid|by rewrite orb_false_r].
  - unfold Part000.achieved. cbn [Part000.achievements].
    case_bool_decide as Heq.
    + subst. by rewrite lookup_insert_eq, orb_true_r.
    + by rewrite lookup_insert_ne, orb_false_r.
Qed.

Lemma unlockAchievement_other {R : Type} (id id' : string)
    (this : Part000.Session R) :
  id' ≠ id →
  Part000.achievements (Part000.unlockAchievement id this) !! id'
  = Part000.achievements this !! id'.
Proof.
  intros Hne. unfold Part000.unlockAchievement.
  destruct (Part000.achieved this id); [done|].
  cbn [Part000.achievements]. by rewrite lookup_insert_ne.
Qed.

(** An achievement unlocked under a condition. *)
Definition unlockIf {R : Type} (b : bool) (id : string)
    (this : Part000.Session R) : Part000.Session R :=
  if b then Part000.unlockAchievement id this else this.

Lemma unlockIf_rest {R : Type} (b : bool) (id : string)
    (this : Part000.Session R) :
  restOf (unlockIf b id this) = restOf this
  ∧ Part000.unlockedThemes (unlockIf b id this) = Part000.unlockedThemes this.
Proof. destruct b; [apply unlockAchievement_rest|done]. Qed.

Lemma achieved_unlockIf {R : Type} (b : bool) (id id' : string)
    (this : Part000.Session R) :
  Part000.achieved (unlockIf b id this) id'
  = Part000.achieved this id' || (bool_decide (id' = id) && b).
Proof.
  destruct b; simpl.
  - by rewrite achieved_unlockAchievement, andb_true_r.
  - by rewrite andb_false_r, orb_false_r.
Qed.

Lemma unlockIf_other {R : Type} (b : bool) (id id' : string)
    (this : Part000.Session R) :
  id' ≠ id →
  Part000.achievements (unlockIf b id this) !! id'
  = Part000.achievements this !! id'.
Proof. intros Hne. destruct b; [by apply unlockAchievement_other|done]. Qed.

Lemma updateAchievementsOnWin_unfold {R : Type} (this : Part000.Session R) :
  ∃ this4,
    this4 = unlockIf (3 <=? Part000.streakData_count this) "daily_3"
              (unlockIf (Part000.timer this <=? 300) "under_5"
                 (unlockIf (hintsUsed (Part000.game this) =? 0)%nat "no_hints"
                    (Part000.unlockAchievement "first_win" this)))
    ∧ Part000.updateAchievementsOnWin this
      = (Part000.unlockCosmetic "theme" "classic" this4).2.
Proof.
  eexists. split; [reflexivity|]. unfold Part000.updateAchievementsOnWin.
  pose proof (unlockAchievement_rest "first_win" this) as [H1 _].
  set (s1 := Part000.unlockAchievement "first_win" this) in *.
  assert (Hh : hintsUsed (Part000.game s1) = hintsUsed (Part000.game this))
    by (unfold restOf in H1; congruence).
  rewrite Hh. fold (unlockIf (hintsUsed (Part000.game this) =? 0)%nat "no_hints" s1).
  pose proof (unlockIf_rest (hintsUsed (Part000.game this) =? 0)%nat "no_hints" s1)
    as [H2 _].
  set (s2 := unlockIf _ "no_hints" s1) in *.
  assert (Ht : Part000.timer s2 = Part000.timer this)
    by (unfold restOf in H1, H2; congruence).
  rewrite Ht. fold (unlockIf (Part000.timer this <=? 300) "under_5" s2).
  pose proof (unlockIf_rest (Part000.timer this <=? 300) "under_5" s2) as [H3 _].
  set (s3 := unlockIf _ "under_5" s2) in *.
  assert (Hs : Part000.streakData_count s3 = Part000.streakData_count this)
    by (unfold restOf in H1, H2, H3; congruence).
  rewrite Hs.
  fold (unlockIf (3 <=? Part000.streakData_count this) "daily_3" s3).
  set (s4 := unlockIf _ "daily_3" s3).
  assert (Hfirst : Part000.achieved s4 "first_win" = true).
  { subst s4 s3 s2 s1.
    rewrite !achieved_unlockIf, achieved_unlockAchievement.
    rewrite (bool_decide_eq_true_2 ("first_win" = "first_win")) by done.
    by rewrite orb_true_r. }
  by rewrite Hfirst.
Qed.

Lemma updateAchievementsOnWin_spec {R : Type} (this : Part000.Session R) :
  restOf (Part000.updateAchievementsOnWin this) = restOf this
  ∧ (∀ id, Part000.achieved (Part000.updateAchievementsOnWin this) id
           = Part000.achieved this id
             || bool_decide (id = "first_win")
             || (bool_decide (id = "no_hints")
                 && (hintsUsed (Part000.game this) =? 0)%nat)
             || (bool_decide (id = "under_5") && (Part000.timer this <=? 300))
             || (bool_decide (id = "daily_3")
                 && (3 <=? Part000.streakData_count this)))
  ∧ (∀ id, id ≠ "first_win" → id ≠ "no_hints" → id ≠ "under_5" →
       id ≠ "daily_3" →
       Part000.achievements (Part000.updateAchievementsOnWin this) !! id
       = Part000.achievements this !! id)
  ∧ Part000.unlockedThemes (Part000.updateAchievementsOnWin this)
    = (if bool_decide ("classic" ∈ Part000.unlockedThemes this)
       then Part000.unlockedThemes this
       else Part000.unlockedThemes this ++ ["classic"]).
Proof.
  destruct (updateAchievementsOnWin_unfold this) as (s4 & Hs4 & ->).
  pose proof (unlockAchievement_rest "first_win" this) as [H1 T1].
  set (s1 := Part000.unlockAchievement "first_win" this) in *.
  pose proof (unlockIf_rest (hintsUsed (Part000.game this) =? 0)%nat "no_hints" s1)
    as [H2 T2].
  set (s2 := unlockIf _ "no_hints" s1) in *.
  pose proof (unlockIf_rest (Part000.timer this <=? 300) "under_5" s2) as [H3 T3].
  set (s3 := unlockIf _ "under_5" s2) in *.
  pose proof (unlockIf_rest (3 <=? Part000.streakData_count this) "daily_3" s3)
    as [H4 T4].
  rewrite <- Hs4 in H4, T4.
  assert (Hrest : restOf s4 = restOf this) by congruence.
  assert (Hthemes : Part000.unlockedThemes s4 = Part000.unlockedThemes this)
    by congruence.
  assert (Hach : ∀ id, Part000.achieved s4 id
            = Part000.achieved this id
              || bool_decide (id = "first_win")
              || (bool_decide (id = "no_hints")
                  && (hintsUsed (Part000.game this) =? 0)%nat)
              || (bool_decide (id = "under_5") && (Part000.timer this <=? 300))
              || (bool_decide (id = "daily_3")
                  && (3 <=? Part000.streakData_count this))).
  { intros id. rewrite Hs4. subst s3 s2 s1.
    by rewrite !achieved_unlockIf, achieved_unlockAchievement. }
  assert (Hother : ∀ id, id ≠ "first_win" → id ≠ "no_hints" → id ≠ "under_5" →
            id ≠ "daily_3" →
            Part000.achievements s4 !! id = Part000.achievements this !! id).
  { intros id ? ? ? ?. rewrite Hs4. subst s3 s2 s1.
    by rewrite !unlockIf_other, unlockAchievement_other. }
  clear -Hrest Hthemes Hach Hother.
  unfold Part000.unlockCosmetic. simpl String.eqb. cbv iota.
  rewrite <- Hthemes.
  destruct (bool_decide ("classic" ∈ Part000.unlockedThemes s4)); cbn [snd].
  - repeat split; try done.
  - by split; [|split; [|split]].
Qed.

(** The game after the modal is shown. *)
Definition withModal {R : Type} (g : Game R) : Game R :=
  mkGame (solution g) (grid g) (originalGrid g) (difficulty g) (hintsUsed g)
    (isGameComplete g) (rng g) (signals g ++ [CompletionModal]).

Lemma earnedCoins_exact {R : Type} (this : Part000.Session R) :
  0 ≤ Part000.timer this < 2 ^ 52 → 1 ≤ Part000.speedMultiplier this ≤ 2 →
  Part000.usedSolve this = false →
  Part000.earnedCoins this
  = (Part000.baseCoins (difficulty (Part000.game this))
     + Z.max 0 (60 - Part000.timer this)) * Part000.speedMultiplier this
  ∧ 10 ≤ Part000.earnedCoins this ≤ 220.
Proof.
  intros Ht Hm Hu. unfold Part000.earnedCoins, jsMul, jsAdd. rewrite Hu.
  rewrite (roundDouble_exact (60 + - Part000.timer this)) by lia.
  assert (Hb : 10 ≤ Part000.baseCoins (difficulty (Part000.game this)) ≤ 50).
  { unfold Part000.baseCoins.
    destruct (String.eqb _ "easy"); [lia|].
    destruct (String.eqb _ "medium"); lia. }
  rewrite (roundDouble_exact (_ + Z.max 0 _)) by lia.
  rewrite roundDouble_exact by nia.
  split; [f_equal; lia|nia].
Qed.

Lemma updateStreakOnWin_rest {R : Type} (this : Part000.Session R) :
  Part000.game (Part000.updateStreakOnWin this) = Part000.game this
  ∧ Part000.timer (Part000.updateStreakOnWin this) = Part000.timer this
  ∧ Part000.speedMultiplier (Part000.updateStreakOnWin this)
    = Part000.speedMultiplier this
  ∧ Part000.coins (Part000.updateStreakOnWin this) = Part000.coins this
  ∧ Part000.dailyChallengeMode (Part000.updateStreakOnWin this)
    = Part000.dailyChallengeMode this
  ∧ Part000.achievements (Part000.updateStreakOnWin this)
    = Part000.achievements this
  ∧ Part000.leaderboard (Part000.updateStreakOnWin this)
    = Part000.leaderboard this
  ∧ Part000.unlockedThemes (Part000.updateStreakOnWin this)
    = Part000.unlockedThemes this
  ∧ Part000.usedSolve (Part000.updateStreakOnWin this) = false
  ∧ Part000.streakData_count (Part000.updateStreakOnWin this)
    = (if Part000.usedSolve this then Part000.streakData_count this
       else jsAdd (Part000.streakData_count this) 1).
Proof.
  unfold Part000.updateStreakOnWin.
  by destruct (Part000.usedSolve this) eqn:Hu.
Qed.

(** [showCompletionModal], field by field. *)
Lemma showCompletionModal_fields {R : Type} (now : string)
    (this : Part000.Session R) :
  Part000.speedMultiplier (Part000.showCompletionModal now this) = 1
  ∧ Part000.usedSolve (Part000.showCompletionModal now this) = false
  ∧ Part000.game (Part000.showCompletionModal now this)
    = withModal (Part000.game this)
  ∧ Part000.coins (Part000.showCompletionModal now this)
    = (if Part000.usedSolve this then Part000.coins this
       else jsAdd (Part000.coins this) (Part000.earnedCoins this))
  ∧ Part000.streakData_count (Part000.showCompletionModal now this)
    = (if Part000.usedSolve this then Part000.streakData_count this
       else jsAdd (Part000.streakData_count this) 1)
  ∧ (∀ id, Part000.achieved (Part000.showCompletionModal now this) id
           = Part000.achieved this id
             || bool_decide (id = "first_win")
             || (bool_decide (id = "no_hints")
                 && (hintsUsed (Part000.game this) =? 0)%nat)
             || (bool_decide (id = "under_5") && (Part000.timer this <=? 300))
             || (bool_decide (id = "daily_3")
                 && (3 <=? Part000.streakData_count
                             (Part000.showCompletionModal now this))))
  ∧ "classic" ∈ Part000.unlockedThemes (Part000.showCompletionModal now this)
  ∧ Part000.leaderboard (Part000.showCompletionModal now this)
    = Part000.leaderboard
        (default this (Part000.updateLeaderboardOnWin now this))
  ∧ Part000.dailyChallengeMode (Part000.showCompletionModal now this)
    = Part000.dailyChallengeMode this
  ∧ Part000.timer (Part000.showCompletionModal now this) = Part000.timer this.
Proof.
  unfold Part000.showCompletionModal.
  fold (withModal (Part000.game this)).
  match goal with
  | |- context [Part000.updateStreakOnWin ?s] => set (s1 := s)
  end.
  destruct (updateStreakOnWin_rest s1)
    as (Hg2 & Ht2 & Hm2 & Hc2 & Hd2 & Ha2 & Hb2 & Hth2 & Hu2 & Hs2).
  set (s2 := Part000.updateStreakOnWin s1) in *.
  destruct (updateAchievementsOnWin_spec s2) as (Hrest & Hach & _ & Hthemes).
  set (s3 := Part000.updateAchievementsOnWin s2) in *.
  unfold restOf in Hrest.
  injection Hrest as Hgame Htimer Hused Hmult Hcoins Hstreak Hdaily Hboard _.
  subst s1.
  cbn [Part000.game Part000.timer Part000.usedSolve Part000.speedMultiplier
       Part000.coins Part000.streakData_count Part000.dailyChallengeMode
       Part000.achievements Part000.leaderboard Part000.unlockedThemes]
    in Hg2, Ht2, Hm2, Hc2, Hd2, Ha2, Hb2, Hth2, Hu2, Hs2.
  assert (Hkey : Part000.leaderboardKey s3 = Part000.leaderboardKey this).
  { unfold Part000.leaderboardKey. by rewrite Hdaily, Hgame, Hd2, Hg2. }
  assert (Hach2 : ∀ id, Part000.achieved s2 id = Part000.achieved this id).
  { intros id. unfold Part000.achieved. by rewrite Ha2. }
  assert (Hboard3 :
    Part000.leaderboard (default s3 (Part000.updateLeaderboardOnWin now s3))
    = Part000.leaderboard
        (default this (Part000.updateLeaderboardOnWin now this))).
  { apply leaderboard_after_eq; congruence. }
  pose proof (updateLeaderboardOnWin_rest now s3) as Hlast.
  revert Hlast Hboard3.
  generalize (default s3 (Part000.updateLeaderboardOnWin now s3)).
  intros s4 Hlast Hboard3. unfold exceptLeaderboard in Hlast.
  injection Hlast as Hg4 Ht4 Hu4 Hm4 Hc4 Hs4 Hd4 Ha4 Hth4 _.
  clearbody s2. clearbody s3.
  split; [congruence|]. split; [congruence|]. split; [congruence|].
  split; [congruence|]. split; [congruence|]. split.
  { intros id. unfold Part000.achieved at 1. rewrite Ha4.
    fold (Part000.achieved s3 id).
    rewrite Hach, Hach2, Hg2, Ht2, Hs4, Hstreak. done. }
  split.
  { rewrite Hth4, Hthemes. case_bool_decide as Hin; [done|].
    apply elem_of_app. right. left. }
  split; [done|].
  split; congruence.
Qed.

(** X15: what a win pays.  [showCompletionModal] resets the speed boost
    and the solve mark; a win by the solve button pays no coins and does
    not count for the streak, any other win pays
    (base + max(0, 60 - timer)) * multiplier coins, base being 10 for
    easy, 25 for medium and 50 for anything else, and adds 1 to the
    streak; every achievement held is kept, first_win is set, no_hints,
    under_5 and daily_3 are set under their conditions, the last one on
    the streak as just updated; the classic theme is unlocked. *)
Theorem showCompletionModal_spec {R : Type} (now : string)
    (this : Part000.Session R) :
  0 ≤ Part000.timer this < 2 ^ 52 →
  1 ≤ Part000.speedMultiplier this ≤ 2 →
  Z.abs (Part000.coins this) < 2 ^ 52 →
  Z.abs (Part000.streakData_count this) < 2 ^ 52 →
  Part000.speedMultiplier (Part000.showCompletionModal now this) = 1
  ∧ Part000.usedSolve (Part000.showCompletionModal now this) = false
  ∧ Part000.game (Part000.showCompletionModal now this)
    = withModal (Part000.game this)
  ∧ (Part000.usedSolve this = true →
       Part000.coins (Part000.showCompletionModal now this)
       = Part000.coins this
       ∧ Part000.streakData_count (Part000.showCompletionModal now this)
         = Part000.streakData_count this)
  ∧ (Part000.usedSolve this = false →
       Part000.coins (Part000.showCompletionModal now this)
       = Part000.coins this
         + (Part000.baseCoins (difficulty (Part000.game this))
            + Z.max 0 (60 - Part000.timer this))
           * Part000.speedMultiplier this
       ∧ Part000.coins this + 10
         ≤ Part000.coins (Part000.showCompletionModal now this)
       ∧ Part000.streakData_count (Part000.showCompletionModal now this)
         = Part000.streakData_count this + 1)
  ∧ Part000.achieved (Part000.showCompletionModal now this) "first_win" = true
  ∧ (∀ id, Part000.achieved this id = true →
       Part000.achieved (Part000.showCompletionModal now this) id = true)
  ∧ (Part000.achieved (Part000.showCompletionModal now this) "no_hints" = true
       ↔ Part000.achieved this "no_hints" = true
         ∨ hintsUsed (Part000.game this) = O)
  ∧ (Part000.achieved (Part000.showCompletionModal now this) "under_5" = true
       ↔ Part000.achieved this "under_5" = true ∨ Part000.timer this ≤ 300)
  ∧ (Part000.achieved (Part000.showCompletionModal now this) "daily_3" = true
       ↔ Part000.achieved this "daily_3" = true
         ∨ 3 ≤ Part000.streakData_count (Part000.showCompletionModal now this))
  ∧ "classic" ∈ Part000.unlockedThemes (Part000.showCompletionModal now this).
Proof.
  intros Ht Hm Hc Hs.
  destruct (showCompletionModal_fields now this)
    as (Hmult & Hused & Hgame & Hcoins & Hstreak & Hach & Hthemes & _).
  split; [done|]. split; [done|]. split; [done|]. split.
  { intros Hu. rewrite Hu in *. done. }
  split.
  { intros Hu. rewrite Hu in *.
    destruct (earnedCoins_exact this Ht Hm Hu) as [He Hrange].
    rewrite Hcoins, Hstreak. unfold jsAdd.
    rewrite !roundDouble_exact by lia. rewrite <- He. lia. }
  split.
  { rewrite Hach.
    by rewrite (bool_decide_eq_true_2 ("first_win" = "first_win")), orb_true_r. }
  split.
  { intros id Hid. rewrite Hach, Hid. done. }
  split.
  { rewrite Hach.
    rewrite (bool_decide_eq_false_2 ("no_hints" = "first_win")) by done.
    rewrite (bool_decide_eq_true_2 ("no_hints" = "no_hints")) by done.
    rewrite (bool_decide_eq_false_2 ("no_hints" = "under_5")) by done.
    rewrite (bool_decide_eq_false_2 ("no_hints" = "daily_3")) by done.
    rewrite !orb_false_r. cbn [andb].
    rewrite orb_true_iff, Nat.eqb_eq. done. }
  split.
  { rewrite Hach.
    rewrite (bool_decide_eq_false_2 ("under_5" = "first_win")) by done.
    rewrite (bool_decide_eq_false_2 ("under_5" = "no_hints")) by done.
    rewrite (bool_decide_eq_true_2 ("under_5" = "under_5")) by done.
    rewrite (bool_decide_eq_false_2 ("under_5" = "daily_3")) by done.
    rewrite !orb_false_r. cbn [andb].
    rewrite orb_true_iff, Z.leb_le. done. }
  split; [|done].
  rewrite Hach.
  rewrite (bool_decide_eq_false_2 ("daily_3" = "first_win")) by done.
  rewrite (bool_decide_eq_false_2 ("daily_3" = "no_hints")) by done.
  rewrite (bool_decide_eq_false_2 ("daily_3" = "under_5")) by done.
  rewrite (bool_decide_eq_true_2 ("daily_3" = "daily_3")) by done.
  rewrite !orb_false_r. cbn [andb].
  rewrite orb_true_iff, Z.leb_le. done.
Qed.

(** A boosted easy game won by hand after 42 seconds. *)
Definition sampleSession : Part000.Session Z :=
  Part000.mkSession filledGame 42 false 2 100 2 false ∅ ∅ ["default"] [].

(** The same game with its difficulty set to a name that objects
    inherit. *)
Definition constructorSession : Part000.Session Z :=
  Part000.mkSession (withDifficulty "constructor" filledGame) 42 false 2 100 2
    false ∅ ∅ ["default"] [].


Lemma showCompletionModal_spec_witness :
  Part000.coins (Part000.showCompletionModal "2024-01-01" sampleSession) = 156
  ∧ Part000.streakData_count
      (Part000.showCompletionModal "2024-01-01" sampleSession) = 3
  ∧ Part000.achieved
      (Part000.showCompletionModal "2024-01-01" sampleSession) "daily_3" = true
  ∧ Part000.speedMultiplier
      (Part000.showCompletionModal "2024-01-01" sampleSession) = 1.
Proof.
  destruct (showCompletionModal_spec "2024-01-01" sampleSession)
    as (Hmult & _ & _ & _ & Hpaid & _ & _ & _ & _ & Hdaily & _).
  - simpl. lia.
  - simpl. lia.
  - simpl. lia.
  - simpl. lia.
  - destruct (Hpaid eq_refl) as (Hcoins & _ & Hstreak).
    split; [exact Hcoins|]. split; [exact Hstreak|]. split; [|exact Hmult].
    apply Hdaily. right. rewrite Hstreak. simpl. lia.
Defined.

(** ** The solve button and the completion check of part_000 *)

Lemma entry_kept (old : list Part000.Entry) (e : Part000.Entry) :
  (length old < 10)%nat → e ∈ take 10 (Part000.sortByTime (old ++ [e])).
Proof.
  intros Hlen. rewrite take_ge.
  - rewrite sortByTime_perm. apply elem_of_app. right. left.
  - rewrite sortByTime_perm, length_app. simpl. lia.
Qed.

(** X16: the solve button.  [solveGame] of part_000 copies the solution
    into the player grid, completes the game and shows the modal; it
    pays no coins and leaves the streak alone, but it does set first_win,
    also no_hints when no hint was used and under_5 when the timer is
    at most 300, and it puts the time on the leaderboard when there is
    room and the key of the game is an own key of the leaderboard or no
    name that objects inherit; with a key that is only inherited the
    leaderboard is left as it is. *)
Theorem solveGame_spec {R : Type} (now : string) (this : Part000.Session R) :
  grid (Part000.game (Part000.solveGame now this))
  = solution (Part000.game this)
  ∧ isGameComplete (Part000.game (Part000.solveGame now this)) = true
  ∧ signals (Part000.game (Part000.solveGame now this))
    = signals (Part000.game this) ++ [CompletionModal]
  ∧ Part000.coins (Part000.solveGame now this) = Part000.coins this
  ∧ Part000.streakData_count (Part000.solveGame now this)
    = Part000.streakData_count this
  ∧ Part000.usedSolve (Part000.solveGame now this) = false
  ∧ Part000.achieved (Part000.solveGame now this) "first_win" = true
  ∧ (hintsUsed (Part000.game this) = O →
       Part000.achieved (Part000.solveGame now this) "no_hints" = true)
  ∧ (Part000.timer this ≤ 300 →
       Part000.achieved (Part000.solveGame now this) "under_5" = true)
  ∧ (keyUsable this → (length (entriesOf this) < 10)%nat →
       entryOf now this ∈ entriesOf (Part000.solveGame now this))
  ∧ (¬ keyUsable this →
       Part000.leaderboard (Part000.solveGame now this)
       = Part000.leaderboard this).
Proof.
  unfold Part000.solveGame.
  set (s0 := Part000.completeWith (solution (Part000.game this)) true this).
  destruct (showCompletionModal_fields now s0)
    as (Hmult & Hused & Hgame & Hcoins & Hstreak & Hach & Hthemes & Hboard
        & Hdaily & Htimer).
  assert (Hkey : Part000.leaderboardKey (Part000.showCompletionModal now s0)
                 = Part000.leaderboardKey this).
  { unfold Part000.leaderboardKey. by rewrite Hgame, Hdaily. }
  rewrite (leaderboard_after_eq now s0 this) in Hboard by done.
  rewrite Hgame, Hcoins, Hstreak, Hused. subst s0.
  cbn [Part000.completeWith Part000.game Part000.usedSolve Part000.coins
       Part000.streakData_count Part000.timer withModal grid isGameComplete
       signals hintsUsed] in *.
  split; [done|]. split; [done|]. split; [done|]. split; [done|].
  split; [done|]. split; [done|]. split.
  { rewrite Hach.
    by rewrite (bool_decide_eq_true_2 ("first_win" = "first_win")), orb_true_r. }
  split.
  { intros Hh. rewrite Hach. cbn [Part000.game hintsUsed]. rewrite Hh.
    rewrite (bool_decide_eq_true_2 ("no_hints" = "no_hints")) by done.
    cbn [Nat.eqb andb]. by rewrite !orb_true_r. }
  split.
  { intros Ht. rewrite Hach. cbn [Part000.timer].
    rewrite (bool_decide_eq_true_2 ("under_5" = "under_5")) by done.
    rewrite (proj2 (Z.leb_le _ _) Ht). cbn [andb]. by rewrite !orb_true_r. }
  split.
  - intros Husable Hroom. unfold entriesOf at 1. rewrite Hkey, Hboard.
    unfold Part000.updateLeaderboardOnWin.
    rewrite (entriesAt_usable this Husable). simpl.
    rewrite lookup_insert_eq. simpl. by apply entry_kept.
  - intros Hno. rewrite Hboard. unfold Part000.updateLeaderboardOnWin.
    by rewrite (entriesAt_inherited this Hno).
Qed.

Lemma solveGame_spec_witness :
  entryOf "2024-01-01" sampleSession
    ∈ entriesOf (Part000.solveGame "2024-01-01" sampleSession)
  ∧ Part000.leaderboard (Part000.solveGame "2024-01-01" constructorSession)
    = Part000.leaderboard constructorSession.
Proof.
  split.
  - apply (solveGame_spec "2024-01-01" sampleSession).
    + right. apply (bool_decide_unpack _). by vm_compute.
    + apply Nat.ltb_lt. by vm_compute.
  - apply (solveGame_spec "2024-01-01" constructorSession).
    intros [[l Hl]|Hfree]; [done|]. apply Hfree.
    apply (bool_decide_unpack _). by vm_compute.
Defined.

(** X17: the completion check of part_000 pays at the moment of
    completion and at no other call.  Its effect on the fields of the
    bare game is that of [checkGameCompletion] of sudoku.js; when the
    game was not complete and the grid is full and valid, the coins and
    the streak go up as for a win by hand; in every other case the game
    object is left as it is. *)
Theorem checkGameCompletion_pays {R : Type} (now : string)
    (this : Part000.Session R) :
  0 ≤ Part000.timer this < 2 ^ 52 →
  1 ≤ Part000.speedMultiplier this ≤ 2 →
  Z.abs (Part000.coins this) < 2 ^ 52 →
  Z.abs (Part000.streakData_count this) < 2 ^ 52 →
  Part000.usedSolve this = false →
  Part000.game (Part000.checkGameCompletion now this)
  = checkGameCompletion (Part000.game this)
  ∧ (isGameComplete (Part000.game this) = false →
     noZero (grid (Part000.game this)) →
     isSolutionValid (grid (Part000.game this)) = true →
       isGameComplete (Part000.game (Part000.checkGameCompletion now this))
       = true
       ∧ Part000.coins (Part000.checkGameCompletion now this)
         = Part000.coins this
           + (Part000.baseCoins (difficulty (Part000.game this))
              + Z.max 0 (60 - Part000.timer this))
             * Part000.speedMultiplier this
       ∧ Part000.streakData_count (Part000.checkGameCompletion now this)
         = Part000.streakData_count this + 1)
  ∧ (isGameComplete (Part000.game this) = true
     ∨ ¬ noZero (grid (Part000.game this))
     ∨ isSolutionValid (grid (Part000.game this)) = false →
       Part000.checkGameCompletion now this = this).
Proof.
  intros Ht Hm Hc Hs Hu.
  unfold Part000.checkGameCompletion, checkGameCompletion.
  destruct (isGameComplete (Part000.game this)) eqn:Hdone.
  { split; [done|]. split; [done|done]. }
  destruct (existsb _ cells) eqn:Hscan.
  { split; [done|]. split; [|done].
    intros _ Hnz. apply zero_scan_false in Hnz. congruence. }
  destruct (isSolutionValid (grid (Part000.game this))) eqn:Hvalid.
  2:{ split; [done|]. split; [done|done]. }
  set (s0 := Part000.completeWith (grid (Part000.game this))
               (Part000.usedSolve this) this).
  destruct (showCompletionModal_fields now s0)
    as (_ & _ & Hgame & Hcoins & Hstreak & _).
  assert (Hu0 : Part000.usedSolve s0 = false) by done.
  destruct (earnedCoins_exact s0 Ht Hm Hu0) as [He Hrange].
  rewrite He in Hrange.
  rewrite Hgame, Hcoins, Hstreak, Hu0, He. clear He Hgame Hcoins Hstreak.
  subst s0.
  cbn [Part000.completeWith Part000.game Part000.coins Part000.timer
       Part000.streakData_count Part000.speedMultiplier difficulty
       withModal isGameComplete] in *.
  unfold jsAdd. rewrite !roundDouble_exact by lia.
  split; [done|]. split; [done|].
  intros [?|[Hz|?]]; [done| |done].
  destruct Hz. by apply zero_scan_false.
Qed.

Lemma checkGameCompletion_pays_witness :
  isGameComplete
    (Part000.game (Part000.checkGameCompletion "2024-01-01" sampleSession))
  = true
  ∧ Part000.coins (Part000.checkGameCompletion "2024-01-01" sampleSession)
    = 156
  ∧ Part000.streakData_count
      (Part000.checkGameCompletion "2024-01-01" sampleSession) = 3.
Proof.
  destruct (checkGameCompletion_pays "2024-01-01" sampleSession)
    as (_ & Hwin & _).
  - simpl. lia.
  - simpl. lia.
  - simpl. lia.
  - simpl. lia.
  - reflexivity.
  - apply Hwin.
    + reflexivity.
    + apply noZero_sampleSolution.
    + by vm_compute.
Defined.
